(** * graph.cpp: a shallow embedding of the Graph class and its algorithms

    The development follows src/graph/graph.cpp.  [int] values are
    modelled as [Z] (conversions to [int] and [size_t] written out),
    [std::vector] as its allocated buffer together with [size()],
    [std::bitset<MAX_VERTEX+1>] as the bits of a [Z], [std::stack] and
    [std::queue] as lists, and [cout] as a log of tokens.

    An access outside an allocated buffer or outside a bitset has no
    defined behaviour in C++; the model stops there with [None].  An
    [operator[]] between [size()] and the capacity addresses reserved
    memory: unchecked as it is, the model lets it through and keeps
    [size()] apart, so that the bounds can be stated. *)

From Stdlib Require Import ZArith List Bool Lia Arith Relations FinFun Permutation.
From Stdlib Require String.
Import ListNotations String.StringSyntax.
Delimit Scope string_scope with string.
Open Scope Z_scope.

(** ** Machine integers *)

(** Conversion to a 32-bit [int] (two's complement); [++] and [--] on an
    [int] wrap around. *)
Definition to_int (z : Z) : Z := (z + 2 ^ 31) mod 2 ^ 32 - 2 ^ 31.

(** Conversion to a 64-bit [size_t]. *)
Definition to_size_t (z : Z) : Z := z mod 2 ^ 64.

(** ** Data *)

Record Edge : Type := mkEdge { weight : Z; to : Z }.

Record Vertex : Type := mkVertex {
  indegree : Z;
  outdegree : Z;
  neighbors : list Edge
}.

(** [std::vector<A>]: [buf] is the allocated buffer (its length is the
    capacity), [vsize] is what [size()] returns.  [operator[]] is not
    checked against [size()]: it addresses the buffer. *)
Record vector (A : Type) : Type := mkVector { buf : list A; vsize : nat }.

Arguments mkVector {A} _ _.
Arguments buf {A} _.
Arguments vsize {A} _.

Definition capacity {A} (v : vector A) : nat := length (buf v).

Definition empty_vector {A} : vector A := mkVector [] 0.

(** [reserve(k)] allocates room for [k] elements and constructs none of
    them: [size()] is unchanged and the new slots hold whatever the
    allocator hands out, [raw]. *)
Definition reserve {A} (raw : nat -> A) (k : nat) (v : vector A) : vector A :=
  if (k <=? capacity v)%nat then v
  else mkVector (firstn (vsize v) (buf v)
                   ++ map raw (seq (vsize v) (k - vsize v)))
                (vsize v).

(** [size_t i < size()] *)
Definition in_bounds {A} (v : vector A) (i : Z) : bool :=
  (0 <=? i) && (i <? Z.of_nat (vsize v)).

Definition MAX_VERTEX : Z := 10000.

Record Graph : Type := mkGraph {
  _vertex : vector Vertex;
  _parent : vector Z;
  _discovered : Z;
  _processed : Z;
  _nvertex : nat;
  _directed : bool
}.

(** ** Buffers *)

Definition slot {A} (l : list A) (i : Z) : option A :=
  if i <? 0 then None else nth_error l (Z.to_nat i).

Fixpoint list_set {A} (l : list A) (n : nat) (a : A) : list A :=
  match l, n with
  | [], _ => []
  | _ :: l', O => a :: l'
  | x :: l', S n' => x :: list_set l' n' a
  end.

Definition store {A} (l : list A) (i : Z) (a : A) : option (list A) :=
  if (0 <=? i) && (i <? Z.of_nat (length l))
  then Some (list_set l (Z.to_nat i) a) else None.

Definition obind {A B} (o : option A) (f : A -> option B) : option B :=
  match o with Some a => f a | None => None end.

Notation "'let?' x ':=' o 'in' k" := (obind o (fun x => k))
  (at level 10, x pattern, o at level 100, k at level 200).

Definition with_vertex (g : Graph) (b : list Vertex) : Graph :=
  mkGraph (mkVector b (vsize (_vertex g))) (_parent g)
          (_discovered g) (_processed g) (_nvertex g) (_directed g).

Definition with_parent (g : Graph) (b : list Z) : Graph :=
  mkGraph (_vertex g) (mkVector b (vsize (_parent g)))
          (_discovered g) (_processed g) (_nvertex g) (_directed g).

Definition with_visit (g : Graph) (d p : Z) : Graph :=
  mkGraph (_vertex g) (_parent g) d p (_nvertex g) (_directed g).

(** [_vertex[i]] read and written *)
Definition vertex_at (g : Graph) (i : Z) : option Vertex :=
  slot (buf (_vertex g)) i.

Definition set_vertex (g : Graph) (i : Z) (vx : Vertex) : option Graph :=
  option_map (with_vertex g) (store (buf (_vertex g)) i vx).

(** [_parent[i]] read and written *)
Definition parent_at (g : Graph) (i : Z) : option Z :=
  slot (buf (_parent g)) i.

Definition set_parent (g : Graph) (i : Z) (p : Z) : option Graph :=
  option_map (with_parent g) (store (buf (_parent g)) i p).

(** ** Construction and mutation *)

(** Body of the constructor's loop. *)
Definition init_slot (g : Graph) (i : nat) : option Graph :=
  let? vx := vertex_at g (Z.of_nat i) in
  let? g1 := set_vertex g (Z.of_nat i) (mkVertex (indegree vx) 0 (neighbors vx)) in
  let? vx1 := vertex_at g1 (Z.of_nat i) in
  let? g2 := set_vertex g1 (Z.of_nat i) (mkVertex 0 (outdegree vx1) (neighbors vx1)) in
  set_parent g2 (Z.of_nat i) (-1).

(** [Graph::Graph(n, directed)].  [rawV] and [rawP] are the contents of
    the memory that the two [reserve] calls obtain. *)
Definition Graph_ctor (rawV : nat -> Vertex) (rawP : nat -> Z)
           (n : nat) (directed : bool) : option Graph :=
  let g0 := mkGraph (reserve rawV (n + 1) empty_vector)
                    (reserve rawP (n + 1) empty_vector)
                    0 0 n directed in
  fold_left (fun og i => let? g := og in init_slot g i)
            (seq 0 (vsize (_vertex g0))) (Some g0).

(** [Graph::add_edge(x, y, weight)] *)
Definition add_edge (x y w : Z) (g : Graph) : option Graph :=
  let e := mkEdge w y in
  let? vx := vertex_at g x in
  let? g1 := set_vertex g x (mkVertex (indegree vx) (outdegree vx) (neighbors vx ++ [e])) in
  if _directed g1 then
    let? vx1 := vertex_at g1 x in
    let? g2 := set_vertex g1 x
        (mkVertex (indegree vx1) (to_int (outdegree vx1 + 1)) (neighbors vx1)) in
    let? vy := vertex_at g2 y in
    set_vertex g2 y (mkVertex (to_int (indegree vy + 1)) (outdegree vy) (neighbors vy))
  else Some g1.

(** [Graph::read_graph(ins)], the stream being the list of pairs read. *)
Fixpoint read_graph (ins : list (Z * Z)) (g : Graph) : option Graph :=
  match ins with
  | [] => Some g
  | (x, y) :: rest =>
      let? g1 := add_edge x y 0 g in
      let? g2 := (if negb (_directed g1) then add_edge y x 0 g1 else Some g1) in
      read_graph rest g2
  end.

(** Memory as a fresh mapping delivers it: all bytes zero, which reads
    as zero integers and empty vectors. *)
Definition zeroV : nat -> Vertex := fun _ => mkVertex 0 0 [].
Definition zeroP : nat -> Z := fun _ => 0.

Definition build (n : nat) (directed : bool) (ins : list (Z * Z)) : option Graph :=
  let? g := Graph_ctor zeroV zeroP n directed in read_graph ins g.

(** The vertex ids [1 .. _nvertex], as the loops [for (size_t i = 1; i <= _nvertex; ++i)] enumerate them. *)
Definition vertices (g : Graph) : list Z := map Z.of_nat (seq 1 (_nvertex g)).

(** Targets of the outgoing edges of [u], in insertion order. *)
Definition succs (g : Graph) (u : Z) : list Z :=
  match vertex_at g u with
  | Some vx => map to (neighbors vx)
  | None => []
  end.

(** ** Effects: visitation bits and output

    Traversals write the two bitsets and print.  A computation returns
    the log of what it did, in order, and its result and final state
    unless it stopped ([None]: an access outside the storage, or no fuel
    left).  The log keeps, after every write to a bitset, the value of
    both bitsets at that point of the execution. *)

Inductive token : Type :=
| Tcomponent (k : Z)   (* "component k: " *)
| Tvertex (v : Z)      (* v followed by a blank *)
| Tnewline.

Inductive event : Type :=
| Cout (t : token)
| Snapshot (discovered processed : Z).

Definition M (A : Type) : Type := Graph -> list event * option (A * Graph).

Definition ret {A} (a : A) : M A := fun g => ([], Some (a, g)).

Definition bind {A B} (m : M A) (f : A -> M B) : M B :=
  fun g =>
    match m g with
    | (l1, None) => (l1, None)
    | (l1, Some (a, g1)) =>
        match f a g1 with (l2, r) => (l1 ++ l2, r) end
    end.

Notation "x <- m ;; k" := (bind m (fun x => k))
  (at level 61, m at next level, right associativity).
Notation "m ;; k" := (bind m (fun _ => k))
  (at level 61, right associativity).

Definition stuck {A} : M A := fun _ => ([], None).

Definition lift {A} (f : Graph -> option (A * Graph)) : M A :=
  fun g => ([], f g).

Definition cout (t : token) : M unit := fun g => ([Cout t], Some (tt, g)).

Definition log_of {A} (r : list event * option (A * Graph)) : list event := fst r.
Definition outcome {A} (r : list event * option (A * Graph)) : option (A * Graph) := snd r.
Definition value_of {A} (r : list event * option (A * Graph)) : option A :=
  option_map fst (snd r).
Definition state_of {A} (r : list event * option (A * Graph)) : option Graph :=
  option_map snd (snd r).

(** What was printed, in order. *)
Fixpoint printed (l : list event) : list token :=
  match l with
  | [] => []
  | Cout t :: l' => t :: printed l'
  | Snapshot _ _ :: l' => printed l'
  end.

(** [bitset<MAX_VERTEX+1>::operator[]] *)
Definition bit_ok (i : Z) : bool := (0 <=? i) && (i <=? MAX_VERTEX).

Definition get_discovered (i : Z) : M bool :=
  fun g => if bit_ok i then ([], Some (Z.testbit (_discovered g) i, g)) else ([], None).

Definition get_processed (i : Z) : M bool :=
  fun g => if bit_ok i then ([], Some (Z.testbit (_processed g) i, g)) else ([], None).

Definition write_visit (d p : Z) : M unit :=
  fun g => ([Snapshot d p], Some (tt, with_visit g d p)).

Definition set_discovered (i : Z) : M unit :=
  fun g => if bit_ok i
           then write_visit (Z.setbit (_discovered g) i) (_processed g) g
           else ([], None).

Definition set_processed (i : Z) : M unit :=
  fun g => if bit_ok i
           then write_visit (_discovered g) (Z.setbit (_processed g) i) g
           else ([], None).

Definition reset_discovered : M unit :=
  fun g => write_visit 0 (_processed g) g.

Definition reset_processed : M unit :=
  fun g => write_visit (_discovered g) 0 g.

Definition get_vertex (i : Z) : M Vertex :=
  lift (fun g => option_map (fun vx => (vx, g)) (vertex_at g i)).

Definition get_parent (i : Z) : M Z :=
  lift (fun g => option_map (fun p => (p, g)) (parent_at g i)).

Definition put_parent (i p : Z) : M unit :=
  lift (fun g => option_map (fun g1 => (tt, g1)) (set_parent g i p)).

Fixpoint for_each {A} (l : list A) (body : A -> M unit) : M unit :=
  match l with
  | [] => ret tt
  | a :: l' => body a ;; for_each l' body
  end.

(** [for (size_t i = 1; i <= _nvertex; ++i) body(i)] *)
Definition for_vertices (body : Z -> M unit) : M unit :=
  fun g => for_each (vertices g) body g.

(** ** Visitation reset *)

(** [Graph::unvisit()] *)
Definition unvisit : M unit := reset_discovered ;; reset_processed.

(** ** Depth-first traversal *)

(** [Graph::do_dfs(v)]; [fuel] bounds the depth of the recursion. *)
Fixpoint do_dfs (fuel : nat) (v : Z) : M unit :=
  match fuel with
  | O => stuck
  | S f =>
      d <- get_discovered v ;;
      if negb d then
        set_discovered v ;;
        cout (Tvertex v) ;;
        vx <- get_vertex v ;;
        for_each (neighbors vx) (fun e => do_dfs f (to e)) ;;
        set_processed v
      else ret tt
  end.

(** [Graph::dfs(v)] *)
Definition dfs (fuel : nat) (v : Z) : M unit :=
  fun g =>
    ((if (to_size_t v <=? Z.of_nat (_nvertex g)) && (0 <? v)
      then do_dfs fuel v else ret tt) ;;
     for_vertices (fun i =>
       p <- get_processed i ;;
       if negb p then do_dfs fuel (to_int i) else ret tt)) g.

(** ** Breadth-first traversal *)

(** The loop over the edges of the front vertex in [do_bfs]. *)
Fixpoint bfs_scan (es : list Edge) (q : list Z) : M (list Z) :=
  match es with
  | [] => ret q
  | e :: es' =>
      d <- get_discovered (to e) ;;
      if negb d then
        set_discovered (to e) ;;
        bfs_scan es' (q ++ [to e])
      else bfs_scan es' q
  end.

(** The [while (!q.empty())] loop of [do_bfs]; [fuel] bounds the number
    of iterations. *)
Fixpoint bfs_loop (fuel : nat) (q : list Z) {struct fuel} : M unit :=
  match q with
  | [] => ret tt
  | x :: _ =>
      match fuel with
      | O => stuck
      | S f =>
          vx <- get_vertex x ;;
          q1 <- bfs_scan (neighbors vx) q ;;
          set_processed x ;;
          cout (Tvertex x) ;;
          bfs_loop f (tl q1)
      end
  end.

(** [Graph::do_bfs(start)] *)
Definition do_bfs (fuel : nat) (start : Z) : M unit :=
  set_discovered start ;;
  bfs_loop fuel [start].

(** [Graph::bfs(start)] *)
Definition bfs (fuel : nat) (start : Z) : M unit :=
  fun g =>
    ((if (0 <? start) && (to_size_t start <=? Z.of_nat (_nvertex g))
      then do_bfs fuel start else ret tt) ;;
     for_vertices (fun i =>
       p <- get_processed i ;;
       if negb p then do_bfs fuel (to_int i) else ret tt)) g.

(** ** Components *)

Fixpoint find_components_loop (fuel : nat) (ids : list Z) (ncomponent : Z) : M unit :=
  match ids with
  | [] => ret tt
  | i :: rest =>
      d <- get_discovered i ;;
      if negb d then
        cout (Tcomponent ncomponent) ;;
        dfs fuel (to_int i) ;;
        cout Tnewline ;;
        find_components_loop fuel rest (to_int (ncomponent + 1))
      else find_components_loop fuel rest ncomponent
  end.

(** [Graph::find_components()] *)
Definition find_components (fuel : nat) : M unit :=
  fun g => find_components_loop fuel (vertices g) 1 g.

(** ** Cycle detection *)

(** A loop over edges that leaves through [goto found] as soon as the
    body says so. *)
Fixpoint any_edge (es : list Edge) (body : Edge -> M bool) : M bool :=
  match es with
  | [] => ret false
  | e :: es' => r <- body e ;; if r then ret true else any_edge es' body
  end.

(** What [detect_undirected_cycle(v)] does with the edge [e] of [v];
    [rec] is the recursive call. *)
Definition cycle_edge (rec : Z -> M bool) (v : Z) (e : Edge) : M bool :=
  de <- get_discovered (to e) ;;
  if negb de then
    put_parent (to e) v ;;
    rec (to e)
  else
    p <- get_parent v ;;
    ret (negb (p =? to e)).

(** [Graph::detect_undirected_cycle(v)]; [fuel] bounds the depth of the
    recursion. *)
Fixpoint detect_undirected_cycle (fuel : nat) (v : Z) : M bool :=
  match fuel with
  | O => stuck
  | S f =>
      d <- get_discovered v ;;
      if negb d then
        set_discovered v ;;
        vx <- get_vertex v ;;
        any_edge (neighbors vx) (cycle_edge (detect_undirected_cycle f) v)
      else ret false
  end.

(** The first loop of [detect_directed_cycle]: push the vertices of
    indegree zero. *)
Fixpoint kahn_seed (g : Graph) (ids : list Z) (s : list Z) : option (list Z) :=
  match ids with
  | [] => Some s
  | i :: rest =>
      let? vx := vertex_at g i in
      kahn_seed g rest (if 0 =? indegree vx then to_int i :: s else s)
  end.

(** The loop over the edges of the popped vertex. *)
Fixpoint kahn_relax (es : list Edge) (g : Graph) (s : list Z) : option (Graph * list Z) :=
  match es with
  | [] => Some (g, s)
  | e :: es' =>
      let? vx := vertex_at g (to e) in
      let d := to_int (indegree vx - 1) in
      let? g1 := set_vertex g (to e) (mkVertex d (outdegree vx) (neighbors vx)) in
      kahn_relax es' g1 (if 0 =? d then to e :: s else s)
  end.

(** The [while (!s.empty())] loop.  [order] is not in the source: it
    records the vertices in the order in which they are popped. *)
Fixpoint kahn_loop (fuel : nat) (g : Graph) (s : list Z)
         (nprocessed : nat) (order : list Z) {struct fuel}
  : option (nat * list Z * Graph) :=
  match s with
  | [] => Some (nprocessed, order, g)
  | v :: s' =>
      match fuel with
      | O => None
      | S f =>
          let? vx := vertex_at g v in
          let? (g1, s1) := kahn_relax (neighbors vx) g s' in
          kahn_loop f g1 s1 (S nprocessed) (order ++ [v])
      end
  end.

Definition kahn (fuel : nat) (g : Graph) : option (nat * list Z * Graph) :=
  let? s := kahn_seed g (vertices g) [] in
  kahn_loop fuel g s 0 [].

(** [Graph::detect_directed_cycle()] *)
Definition detect_directed_cycle (fuel : nat) (g : Graph) : option (bool * Graph) :=
  let? (r, g1) := kahn fuel g in
  Some (negb (fst r =? _nvertex g1)%nat, g1).

(** The loop of [has_cycle] over the vertices of an undirected graph. *)
Fixpoint undirected_scan (fuel : nat) (ids : list Z) (cycle : bool) : M bool :=
  match ids with
  | [] => ret cycle
  | i :: rest =>
      d <- get_discovered i ;;
      if negb d then
        r <- detect_undirected_cycle fuel (to_int i) ;;
        undirected_scan fuel rest (cycle || r)
      else undirected_scan fuel rest cycle
  end.

(** The two branches of [has_cycle] that follow [unvisit()]. *)
Definition detect_cycle (fuel : nat) : M bool :=
  fun g =>
    if negb (_directed g)
    then undirected_scan fuel (vertices g) false g
    else lift (detect_directed_cycle fuel) g.

(** [Graph::has_cycle()] *)
Definition has_cycle (fuel : nat) : M bool :=
  fun g =>
    if (0 <? _nvertex g)%nat then (unvisit ;; detect_cycle fuel) g
    else ret false g.

(** ** Observations and scenarios *)

Definition neighbors_of (g : Graph) (u : Z) : list Edge :=
  match vertex_at g u with Some vx => neighbors vx | None => [] end.

Definition indegree_of (g : Graph) (u : Z) : Z :=
  match vertex_at g u with Some vx => indegree vx | None => 0 end.

Definition outdegree_of (g : Graph) (u : Z) : Z :=
  match vertex_at g u with Some vx => outdegree vx | None => 0 end.

(** The buffers hold the slots [0 .. _nvertex]. *)
Definition storage_ok (g : Graph) : Prop :=
  length (buf (_vertex g)) = S (_nvertex g) /\
  length (buf (_parent g)) = S (_nvertex g).

(** Run [m] on a graph that may not exist. *)
Definition run {A} (og : option Graph) (m : M A) : list event * option (A * Graph) :=
  match og with Some g => m g | None => ([], None) end.

(** Scenario A: directed, 1->2, 2->3. *)
Definition scenario_A : option Graph := build 3 true [(1, 2); (2, 3)].
(** Scenario B: directed, 1->2, 2->3, 3->1. *)
Definition scenario_B : option Graph := build 3 true [(1, 2); (2, 3); (3, 1)].
(** Scenario C: undirected, 1-2, 2-3, vertex 4 isolated. *)
Definition scenario_C : option Graph := build 4 false [(1, 2); (2, 3)].
(** Scenario D: undirected triangle. *)
Definition scenario_D : option Graph := build 3 false [(1, 2); (2, 3); (3, 1)].
(** Directed, 1->2 and the cycle 2->3->2. *)
Definition tail_into_cycle : option Graph := build 3 true [(1, 2); (2, 3); (3, 2)].

(** The graph built, or an empty one when the construction stopped. *)
Definition the (og : option Graph) : Graph :=
  match og with
  | Some g => g
  | None => mkGraph empty_vector empty_vector 0 0 0 false
  end.

(** ** The visitation invariant *)

(** [processed[v]] implies [discovered[v]], for every [v]. *)
Definition visit_ok (d p : Z) : Prop :=
  forall i, Z.testbit p i = true -> Z.testbit d i = true.

Definition inv (g : Graph) : Prop := visit_ok (_discovered g) (_processed g).

(** The invariant at a point of the execution. *)
Definition event_ok (e : event) : Prop :=
  match e with
  | Snapshot d p => visit_ok d p
  | Cout _ => True
  end.

(** The invariant holds and the vertices of [l] are discovered. *)
Definition K (l : list Z) (d p : Z) : Prop :=
  visit_ok d p /\ Forall (fun x => Z.testbit d x = true) l.

(** From bits satisfying [P], [m] goes through points that all satisfy
    the invariant and, if it returns, returns with bits satisfying [Q]. *)
Definition triple {A} (P : Z -> Z -> Prop) (m : M A) (Q : A -> Z -> Z -> Prop) : Prop :=
  forall g, P (_discovered g) (_processed g) ->
    Forall event_ok (log_of (m g)) /\
    forall a g', outcome (m g) = Some (a, g') -> Q a (_discovered g') (_processed g').

(** [m] reads the bits at most: no log, bits unchanged. *)
Definition quiet {A} (m : M A) : Prop :=
  forall g, log_of (m g) = [] /\
    forall a g', outcome (m g) = Some (a, g') ->
      _discovered g' = _discovered g /\ _processed g' = _processed g.

(** [g'] is [g] up to the degree counters. *)
Definition frame (g g' : Graph) : Prop :=
  map neighbors (buf (_vertex g')) = map neighbors (buf (_vertex g)) /\
  _parent g' = _parent g /\ _discovered g' = _discovered g /\
  _processed g' = _processed g /\ _nvertex g' = _nvertex g /\
  _directed g' = _directed g.

(** ** Directed graphs: well-formedness, cycles, topological order *)

Definition in_range (g : Graph) (t : Z) : bool :=
  (1 <=? t) && (t <=? Z.of_nat (_nvertex g)).

(** At most [MAX_VERTEX] vertices, buffers holding the slots
    [0 .. _nvertex], and every edge of a vertex leading to a vertex. *)
Definition wfb (g : Graph) : bool :=
  (Z.of_nat (_nvertex g) <=? MAX_VERTEX) &&
  (length (buf (_vertex g)) =? S (_nvertex g))%nat &&
  (length (buf (_parent g)) =? S (_nvertex g))%nat &&
  forallb (fun u => forallb (in_range g) (succs g u)) (vertices g).

(** The targets of all edges, with multiplicity. *)
Definition edge_targets (g : Graph) : list Z := flat_map (succs g) (vertices g).

(** The indegree counters are what [add_edge] made them: the number of
    edges into each vertex (an [int]).  This is the state in which the
    first [has_cycle] finds a directed graph. *)
Definition indegrees_match (g : Graph) : bool :=
  forallb (fun t =>
             (indegree_of g t =? Z.of_nat (count_occ Z.eq_dec (edge_targets g) t))
             && (indegree_of g t <? 2 ^ 31))
          (vertices g).

Definition edge (g : Graph) (u v : Z) : Prop :=
  In u (vertices g) /\ In v (succs g u).

(** A directed cycle: a vertex that reaches itself along at least one edge. *)
Definition has_directed_cycle (g : Graph) : Prop :=
  exists v, clos_trans Z (edge g) v v.

Definition appears_before (l : list Z) (u v : Z) : Prop :=
  exists a b c, l = a ++ u :: b ++ v :: c.

(** Every vertex of [l] comes after all its predecessors. *)
Definition topo (g : Graph) (l : list Z) : Prop :=
  forall l1 v l2, l = l1 ++ v :: l2 -> forall u, edge g u v -> In u l1.

(** Edges into [t] that the elimination has not yet taken away: those
    leaving a vertex of [U] (not popped) and those of the popped vertex
    still to be looked at ([pend]). *)
Definition inflow (g0 : Graph) (U pend : list Z) (t : Z) : nat :=
  (count_occ Z.eq_dec (flat_map (succs g0) U) t + count_occ Z.eq_dec pend t)%nat.

(** The invariant of the elimination started on [g0]: [order] popped so
    far, [s] the stack, [pend] the targets of the edges of the last
    popped vertex not yet looked at, [U] the vertices not popped. *)
Set Implicit Arguments.

Record kahn_inv (g0 g : Graph) (order s pend U : list Z) : Prop := mk_kahn_inv {
  ki_frame : frame g0 g;
  ki_nodup : NoDup (order ++ s);
  ki_incl : forall x, In x (order ++ s) -> In x (vertices g0);
  ki_U_nodup : NoDup U;
  ki_U : forall x, In x (vertices g0) <-> In x order \/ In x U;
  ki_disj : forall x, In x order -> ~ In x U;
  ki_indeg : forall t, In t (vertices g0) ->
                       indegree_of g t = Z.of_nat (inflow g0 U pend t);
  ki_small : forall t, In t (vertices g0) -> indegree_of g t < 2 ^ 31;
  ki_zero : forall t, In t (vertices g0) ->
                      (In t (order ++ s) <-> indegree_of g t = 0);
  ki_topo : topo g0 order
}.

Unset Implicit Arguments.

(** [U] without [v]. *)
Definition without (v : Z) (U : list Z) : list Z :=
  filter (fun x => negb (Z.eqb x v)) U.

(** ** Traversals: what a run discovers *)

(** [m], started in [g], logs [l] and returns [a] in state [g']. *)
Definition runs {A} (m : M A) (g : Graph) (l : list event) (a : A) (g' : Graph) : Prop :=
  m g = (l, Some (a, g')).

(** The bits of [b'] are those of [b] and those of the vertices of [new]. *)
Definition grown (new : list Z) (b b' : Z) : Prop :=
  forall x, Z.testbit b' x = true <-> Z.testbit b x = true \/ In x new.

(** [new] lists, each once, vertices of [g] that are not discovered in [d]. *)
Definition fresh (g : Graph) (new : list Z) (d : Z) : Prop :=
  NoDup new /\ forall x, In x new -> In x (vertices g) /\ Z.testbit d x = false.

(** Every edge leaving a vertex of [l] leads to a vertex discovered in [d]. *)
Definition closed (g : Graph) (l : list Z) (d : Z) : Prop :=
  forall x, In x l -> forall y, In y (succs g x) -> Z.testbit d y = true.

(** The vertices not discovered in [d]. *)
Definition undiscovered (g : Graph) (d : Z) : list Z :=
  filter (fun x => negb (Z.testbit d x)) (vertices g).

(** [v] is [u] or can be reached from [u] along edges. *)
Definition reach (g : Graph) (u v : Z) : Prop := clos_refl_trans Z (edge g) u v.

(** What a depth-first walk from the vertices [roots] has done when it
    returns: it printed the vertices [new], which were not discovered
    before, each once; these are now discovered and processed, the roots
    are discovered, each new vertex is reached from a root, and no edge
    leaves the new vertices for an undiscovered one. *)
Definition dfs_result (g : Graph) (roots : list Z) (d p d' p' : Z)
           (new : list Z) (l : list event) : Prop :=
  printed l = map Tvertex new /\
  fresh g new d /\ grown new d d' /\ grown new p p' /\
  (forall r, In r roots -> Z.testbit d' r = true) /\
  (forall x, In x new -> exists r, In r roots /\ reach g r x) /\
  closed g new d'.

(** Discovered and processed are the same vertices: no traversal is
    under way. *)
Definition settled (d p : Z) : Prop :=
  forall x, Z.testbit d x = true <-> Z.testbit p x = true.

(** The edges that [read_graph] appends to the list of [u] for the pair
    [(x, y)]: the edge to [y] if [u] is [x] and, on an undirected graph,
    then the edge to [x] if [u] is [y]. *)
Definition pair_edges (directed : bool) (u : Z) (xy : Z * Z) : list Edge :=
  (if u =? fst xy then [mkEdge 0 (snd xy)] else []) ++
  (if directed then [] else if u =? snd xy then [mkEdge 0 (fst xy)] else []).

(** Whenever [m] returns, the state it returns is related by [R] to the
    state it was started in. *)
Definition preserves {A} (R : Graph -> Graph -> Prop) (m : M A) : Prop :=
  forall g a g', outcome (m g) = Some (a, g') -> R g g'.

(** [g'] is [g] up to the two visitation bitsets. *)
Definition bits_apart (g g' : Graph) : Prop :=
  g' = with_visit g (_discovered g') (_processed g').

(** [g'] has the edge lists and the shape of [g]. *)
Definition edges_kept (g g' : Graph) : Prop :=
  map neighbors (buf (_vertex g')) = map neighbors (buf (_vertex g)) /\
  _nvertex g' = _nvertex g /\ _directed g' = _directed g.

(** [g] is [g0] up to the discovered bits and the entries of the parent
    array. *)
Definition parents_apart (g0 g : Graph) : Prop :=
  _vertex g = _vertex g0 /\ _nvertex g = _nvertex g0 /\
  _directed g = _directed g0 /\
  length (buf (_parent g)) = length (buf (_parent g0)) /\
  _processed g = _processed g0.

(** ** The program *)

(** What [main] writes to [cout]: its own string literals, and the
    tokens that the member functions write. *)
Inductive output : Type :=
| Text (s : String.string)
| Item (t : token).

Definition Prog (A : Type) : Type := Graph -> list output * option (A * Graph).

Definition pret {A} (a : A) : Prog A := fun g => ([], Some (a, g)).

Definition pbind {A B} (m : Prog A) (f : A -> Prog B) : Prog B :=
  fun g =>
    match m g with
    | (l1, None) => (l1, None)
    | (l1, Some (a, g1)) =>
        match f a g1 with (l2, r) => (l1 ++ l2, r) end
    end.

Declare Scope prog_scope.
Delimit Scope prog_scope with prog.
Notation "x <- m ;; k" := (pbind m (fun x => k)) : prog_scope.
Notation "m ;; k" := (pbind m (fun _ => k)) : prog_scope.

(** [cout << s] in [main] *)
Definition say (s : String.string) : Prog unit := fun g => ([Text s], Some (tt, g)).

(** A call of a member function: what it prints goes to the same stream. *)
Definition call {A} (m : M A) : Prog A :=
  fun g => match m g with (l, r) => (map Item (printed l), r) end.

(** The character ['\n'] *)
Definition nl : String.string :=
  String.String (Ascii.Ascii false true false true false false false false)
                String.EmptyString.

(** The statements of [main] after the graph has been read. *)
Definition main_body (fuel : nat) (n : Z) : Prog Z :=
  (say "bfs: "%string ;;
   call (bfs fuel (Z.quot n 2)) ;;
   call unvisit ;;
   say (String.append nl "dfs: "%string) ;;
   call (dfs fuel (Z.quot n 2)) ;;
   say nl ;;
   call unvisit ;;
   call (find_components fuel) ;;
   c <- call (has_cycle fuel) ;;
   (if c then say (String.append "Cycle detected."%string nl) else pret tt) ;;
   pret 0)%prog.

(** [main()], on the number [n] and the pairs [ins] that [cin] delivers;
    the graph is allocated in zeroed memory.  [delete g] releases the
    graph and writes nothing. *)
Definition main (fuel : nat) (n : Z) (ins : list (Z * Z)) : list output * option Z :=
  match build (Z.to_nat (to_size_t n)) true ins with
  | None => ([], None)
  | Some g => match main_body fuel n g with (l, r) => (l, option_map fst r) end
  end.

(** ** Cycles of undirected graphs *)

(** Consecutive vertices of [l] are joined by an edge. *)
Fixpoint chain (g : Graph) (l : list Z) : Prop :=
  match l with
  | a :: (b :: _) as t => edge g a b /\ chain g t
  | _ => True
  end.

(** A closed chain: the last vertex has an edge to the first. *)
Definition ring (g : Graph) (c : list Z) : Prop :=
  chain g c /\ edge g (last c 0) (hd 0 c).

(** A cycle of a graph whose adjacency lists hold every edge at both of
    its ends: an edge from a vertex to itself, two edges between the
    same two vertices, or a ring of at least three distinct vertices. *)
Definition undirected_cycle (g : Graph) : Prop :=
  (exists v, edge g v v) \/
  (exists u v, In u (vertices g) /\ u <> v /\
               (2 <= count_occ Z.eq_dec (succs g u) v)%nat) \/
  (exists c, (3 <= length c)%nat /\ NoDup c /\ ring g c).

(** Every edge is listed at both ends, as often at the one as at the other. *)
Definition symmetric (g : Graph) : Prop :=
  forall u v, In u (vertices g) -> In v (vertices g) ->
    count_occ Z.eq_dec (succs g u) v = count_occ Z.eq_dec (succs g v) u.

(** The entry of the parent array for [x]. *)
Definition parent_of (g : Graph) (x : Z) : Z :=
  match parent_at g x with Some p => p | None => 0 end.

(** No entry of the parent array names a vertex. *)
Definition no_parents (g : Graph) : Prop :=
  forall x, In x (vertices g) -> ~ In (parent_of g x) (vertices g).

(** The edges [pre] of [x] have been looked at without finding a cycle:
    each led to the parent of [x] or to a vertex that then got [x] as
    parent, no two of the latter to the same vertex. *)
Definition seen (g : Graph) (x : Z) (pre : list Z) : Prop :=
  (forall y, In y pre ->
     Z.testbit (_discovered g) y = true /\ (parent_of g x = y \/ parent_of g y = x)) /\
  NoDup (filter (fun y => negb (y =? parent_of g x)) pre).

Definition finished (g0 g : Graph) (x : Z) : Prop := seen g x (succs g0 x).

(** The state of a search that has found no cycle so far: [ord] lists
    the discovered vertices in the order of their discovery, a parent
    that is a vertex was discovered before its child, and the vertices
    outside [act] are finished. *)
Definition forest_inv (g0 g : Graph) (ord act : list Z) : Prop :=
  NoDup ord /\
  (forall x, In x ord <-> In x (vertices g0) /\ Z.testbit (_discovered g) x = true) /\
  (forall x, In x ord ->
     ~ In (parent_of g x) (vertices g0) \/ appears_before ord (parent_of g x) x) /\
  (forall x, In x ord -> In x act \/ finished g0 g x).

(** The undiscovered vertices other than [ex] have no vertex as parent. *)
Definition clean_but (g0 g : Graph) (ex : list Z) : Prop :=
  forall x, In x (vertices g0) -> ~ In x ex -> Z.testbit (_discovered g) x = false ->
    ~ In (parent_of g x) (vertices g0).

(** From [g] to [g'] the discovered vertices stay discovered and keep
    their parent. *)
Definition keeps (g g' : Graph) : Prop :=
  forall y, Z.testbit (_discovered g) y = true ->
    Z.testbit (_discovered g') y = true /\ parent_of g' y = parent_of g y.

(** The parent of [v] when the search reaches it along the vertices
    [stk], the nearest first. *)
Definition came_from (g0 g : Graph) (stk : list Z) (v : Z) : Prop :=
  match stk with
  | [] => ~ In (parent_of g v) (vertices g0)
  | p :: _ => parent_of g v = p
  end.

(** What [detect_undirected_cycle(v)] has done when it returns [b],
    having started in [g] below the vertices [stk]: true stands for a
    cycle; with false, the vertices [new], [v] among them, are finished. *)
Definition search_ok (g0 : Graph) (stk : list Z) (v : Z) (g : Graph) (ord : list Z)
           (b : bool) (g' : Graph) : Prop :=
  if b then undirected_cycle g0
  else exists new,
      In v new /\ forest_inv g0 g' (ord ++ new) stk /\ clean_but g0 g' [] /\
      keeps g g' /\ parent_of g' v = parent_of g v /\
      (forall x, In x new -> x = v \/ In (parent_of g' x) new).

Definition detect_spec (g0 : Graph) (fuel : nat) : Prop :=
  forall v g ord stk,
    parents_apart g0 g -> In v (vertices g0) -> Z.testbit (_discovered g) v = false ->
    (length (undiscovered g0 (_discovered g)) < fuel)%nat ->
    forest_inv g0 g ord stk -> clean_but g0 g [v] ->
    NoDup stk -> incl stk ord -> chain g0 (rev stk ++ [v]) ->
    came_from g0 g stk v ->
    exists l b g',
      runs (detect_undirected_cycle fuel v) g l b g' /\ parents_apart g0 g' /\
      search_ok g0 stk v g ord b g'.

(** * Properties *)

(** ** Buffers *)

Section Buffers.
Context {A : Type}.
Implicit Types (l : list A) (i j : Z) (a : A).

Lemma list_set_length l n a : length (list_set l n a) = length l.
Proof.
  revert n; induction l as [|x l IH]; intros [|n]; simpl; auto.
Qed.

Lemma nth_error_list_set_same l n a :
  (n < length l)%nat -> nth_error (list_set l n a) n = Some a.
Proof.
  revert n; induction l as [|x l IH]; intros [|n]; simpl; intros H;
    try lia; auto.
  apply IH; lia.
Qed.

Lemma nth_error_list_set_other l n m a :
  n <> m -> nth_error (list_set l n a) m = nth_error l m.
Proof.
  revert n m; induction l as [|x l IH]; intros [|n] [|m] H; simpl; auto;
    try congruence.
Qed.

Lemma slot_Some_iff l i : (exists a, slot l i = Some a) <-> 0 <= i < Z.of_nat (length l).
Proof.
  unfold slot. destruct (Z.ltb_spec i 0).
  - split; [intros [a Ha]; discriminate | lia].
  - split.
    + intros [a Ha]. assert (nth_error l (Z.to_nat i) <> None) as Hn by congruence.
      apply nth_error_Some in Hn. lia.
    + intros Hi. destruct (nth_error l (Z.to_nat i)) eqn:E; eauto.
      apply nth_error_None in E. lia.
Qed.

Lemma slot_in_range l i : 0 <= i < Z.of_nat (length l) -> exists a, slot l i = Some a.
Proof. apply slot_Some_iff. Qed.

Lemma slot_range l i a : slot l i = Some a -> 0 <= i < Z.of_nat (length l).
Proof. intros H; apply slot_Some_iff; eauto. Qed.

Lemma store_in_range l i a :
  0 <= i < Z.of_nat (length l) -> store l i a = Some (list_set l (Z.to_nat i) a).
Proof.
  intros H. unfold store.
  destruct (Z.leb_spec 0 i), (Z.ltb_spec i (Z.of_nat (length l))); simpl; auto; lia.
Qed.

Lemma store_range l i a l' : store l i a = Some l' ->
  0 <= i < Z.of_nat (length l) /\ l' = list_set l (Z.to_nat i) a.
Proof.
  unfold store.
  destruct (Z.leb_spec 0 i), (Z.ltb_spec i (Z.of_nat (length l))); simpl;
    intros Hs; inversion Hs; split; auto; lia.
Qed.

Lemma slot_list_set_same l i a :
  0 <= i < Z.of_nat (length l) -> slot (list_set l (Z.to_nat i) a) i = Some a.
Proof.
  intros H. unfold slot. destruct (Z.ltb_spec i 0); [lia|].
  apply nth_error_list_set_same. lia.
Qed.

Lemma slot_list_set_other l i j a :
  0 <= i -> i <> j -> slot (list_set l (Z.to_nat i) a) j = slot l j.
Proof.
  intros Hi H. unfold slot. destruct (Z.ltb_spec j 0); auto.
  apply nth_error_list_set_other. lia.
Qed.
End Buffers.

(** ** The constructor *)

Lemma reserve_empty {A} (raw : nat -> A) k :
  reserve raw k empty_vector = mkVector (map raw (seq 0 k)) 0 \/
  (k = 0%nat /\ reserve raw k (@empty_vector A) = empty_vector).
Proof.
  unfold reserve, capacity; simpl. destruct k; simpl; auto.
Qed.

Lemma vsize_reserve_empty {A} (raw : nat -> A) k :
  vsize (reserve raw k empty_vector) = 0%nat.
Proof.
  destruct (reserve_empty raw k) as [-> | [_ ->]]; reflexivity.
Qed.

Lemma Graph_ctor_eq rawV rawP n directed :
  Graph_ctor rawV rawP n directed =
  Some (mkGraph (mkVector (map rawV (seq 0 (n + 1))) 0)
                (mkVector (map rawP (seq 0 (n + 1))) 0) 0 0 n directed).
Proof.
  unfold Graph_ctor. cbv zeta.
  replace (vsize (_vertex _)) with 0%nat by (simpl; now rewrite vsize_reserve_empty).
  simpl fold_left. do 2 f_equal.
  - destruct (reserve_empty rawV (n + 1)) as [-> | [H _]]; [reflexivity | lia].
  - destruct (reserve_empty rawP (n + 1)) as [-> | [H _]]; [reflexivity | lia].
Qed.

(** C1 (what the code does instead). The constructor reserves room for
    the ids [0 .. n] but constructs no element: [size()] of both vectors
    is 0 for every [n], the loop that should zero the counters runs zero
    times, so the slots keep the content of the raw memory, and no index
    at all is within the bounds of the vertex storage.  For
    [new(3, true)] on memory holding the value 7, vertex 1 has indegree
    and outdegree 7 and the access [_vertex[1]] of [add_edge(1, 2, 0)] is
    out of bounds. *)
Theorem C1_ctor_constructs_no_vertex :
  (forall rawV rawP n directed, exists g,
      Graph_ctor rawV rawP n directed = Some g /\
      vsize (_vertex g) = 0%nat /\ vsize (_parent g) = 0%nat /\
      (forall x, in_bounds (_vertex g) x = false) /\
      (forall i, (i <= n)%nat -> vertex_at g (Z.of_nat i) = Some (rawV i)) /\
      (forall i, (i <= n)%nat -> parent_at g (Z.of_nat i) = Some (rawP i))) /\
  (exists g, Graph_ctor (fun _ => mkVertex 7 7 []) (fun _ => 9) 3 true = Some g /\
             indegree_of g 1 = 7 /\ outdegree_of g 1 = 7 /\
             parent_at g 1 = Some 9 /\
             in_bounds (_vertex g) 1 = false /\ in_bounds (_vertex g) 2 = false).
Proof.
  split.
  - intros rawV rawP n directed. rewrite Graph_ctor_eq.
    eexists; split; [reflexivity|]. simpl.
    repeat split; auto.
    + intros x. unfold in_bounds; simpl. destruct (Z.leb_spec 0 x), (Z.ltb_spec x 0); auto; lia.
    + intros i Hi. unfold vertex_at, slot; simpl.
      destruct (Z.ltb_spec (Z.of_nat i) 0); [lia|]. rewrite Nat2Z.id.
      rewrite nth_error_map, nth_error_nth' with (d := 0%nat) by (rewrite length_seq; lia).
      rewrite seq_nth by lia. reflexivity.
    + intros i Hi. unfold parent_at, slot; simpl.
      destruct (Z.ltb_spec (Z.of_nat i) 0); [lia|]. rewrite Nat2Z.id.
      rewrite nth_error_map, nth_error_nth' with (d := 0%nat) by (rewrite length_seq; lia).
      rewrite seq_nth by lia. reflexivity.
  - eexists; split; [reflexivity|]. repeat split; reflexivity.
Qed.

(** ** Vertex storage *)

Lemma vertex_at_range g i vx :
  vertex_at g i = Some vx -> 0 <= i < Z.of_nat (length (buf (_vertex g))).
Proof. apply slot_range. Qed.

Lemma set_vertex_in_range g i vx :
  0 <= i < Z.of_nat (length (buf (_vertex g))) ->
  set_vertex g i vx =
  Some (with_vertex g (list_set (buf (_vertex g)) (Z.to_nat i) vx)).
Proof.
  intros H. unfold set_vertex. now rewrite store_in_range.
Qed.

Lemma set_vertex_inv g i vx g' :
  set_vertex g i vx = Some g' ->
  0 <= i < Z.of_nat (length (buf (_vertex g))) /\
  g' = with_vertex g (list_set (buf (_vertex g)) (Z.to_nat i) vx).
Proof.
  unfold set_vertex. destruct (store _ i vx) eqn:E; simpl; [|discriminate].
  intros H; inversion H; subst. apply store_range in E as [? ->]. auto.
Qed.

Lemma vertex_at_set_vertex g i vx g' :
  set_vertex g i vx = Some g' ->
  forall j, vertex_at g' j = if j =? i then Some vx else vertex_at g j.
Proof.
  intros H j. apply set_vertex_inv in H as [Hi ->].
  unfold vertex_at; simpl. destruct (Z.eqb_spec j i) as [->|Hn].
  - now apply slot_list_set_same.
  - apply slot_list_set_other; lia.
Qed.

Lemma set_vertex_frame g i vx g' :
  set_vertex g i vx = Some g' ->
  length (buf (_vertex g')) = length (buf (_vertex g)) /\
  _parent g' = _parent g /\ _discovered g' = _discovered g /\
  _processed g' = _processed g /\ _nvertex g' = _nvertex g /\
  _directed g' = _directed g.
Proof.
  intros H. apply set_vertex_inv in H as [Hi ->]. simpl.
  rewrite list_set_length. repeat split.
Qed.

Lemma in_vertices g v : In v (vertices g) <-> 1 <= v <= Z.of_nat (_nvertex g).
Proof.
  unfold vertices. rewrite in_map_iff. split.
  - intros [k [<- Hk]]. apply in_seq in Hk. lia.
  - intros H. exists (Z.to_nat v). split; [lia|]. apply in_seq. lia.
Qed.

(** ** add_edge *)

Lemma add_edge_slots g x y w :
  storage_ok g ->
  0 <= x <= Z.of_nat (_nvertex g) -> 0 <= y <= Z.of_nat (_nvertex g) ->
  exists g',
    add_edge x y w g = Some g' /\
    (forall u, neighbors_of g' u =
               if u =? x then neighbors_of g u ++ [mkEdge w y] else neighbors_of g u) /\
    (forall u, indegree_of g' u =
               if _directed g && (u =? y) then to_int (indegree_of g u + 1)
               else indegree_of g u) /\
    (forall u, outdegree_of g' u =
               if _directed g && (u =? x) then to_int (outdegree_of g u + 1)
               else outdegree_of g u) /\
    storage_ok g' /\ _nvertex g' = _nvertex g /\ _directed g' = _directed g /\
    _parent g' = _parent g /\ _discovered g' = _discovered g /\
    _processed g' = _processed g.
Proof.
  intros [Hv Hp] Hx Hy. unfold add_edge.
  destruct (slot_in_range (buf (_vertex g)) x) as [vx Evx]; [lia|].
  fold (vertex_at g x) in Evx. rewrite Evx. cbn [obind].
  destruct (set_vertex g x (mkVertex (indegree vx) (outdegree vx)
              (neighbors vx ++ [mkEdge w y]))) as [g1|] eqn:E1;
    [|rewrite set_vertex_in_range in E1 by lia; discriminate].
  cbn [obind].
  pose proof (vertex_at_set_vertex _ _ _ _ E1) as A1.
  destruct (set_vertex_frame _ _ _ _ E1) as (L1 & P1 & D1 & R1 & N1 & B1).
  rewrite B1. destruct (_directed g) eqn:Edir.
  - rewrite A1, Z.eqb_refl. cbn [obind indegree outdegree neighbors].
    match goal with |- context [set_vertex g1 x ?v] =>
      destruct (set_vertex g1 x v) as [g2|] eqn:E2;
        [|rewrite set_vertex_in_range in E2 by lia; discriminate] end.
    cbn [obind].
    pose proof (vertex_at_set_vertex _ _ _ _ E2) as A2.
    destruct (set_vertex_frame _ _ _ _ E2) as (L2 & P2 & D2 & R2 & N2 & B2).
    destruct (slot_in_range (buf (_vertex g2)) y) as [vy Evy]; [lia|].
    fold (vertex_at g2 y) in Evy. rewrite Evy. cbn [obind].
    match goal with |- context [set_vertex g2 y ?v] =>
      destruct (set_vertex g2 y v) as [g3|] eqn:E3;
        [|rewrite set_vertex_in_range in E3 by lia; discriminate] end.
    pose proof (vertex_at_set_vertex _ _ _ _ E3) as A3.
    destruct (set_vertex_frame _ _ _ _ E3) as (L3 & P3 & D3 & R3 & N3 & B3).
    exists g3. split; [reflexivity|].
    rewrite A2, A1 in Evy.
    assert (forall u, vertex_at g3 u =
              if u =? y then Some (mkVertex (to_int (indegree vy + 1)) (outdegree vy) (neighbors vy))
              else if u =? x then Some (mkVertex (indegree vx) (to_int (outdegree vx + 1))
                                                 (neighbors vx ++ [mkEdge w y]))
              else vertex_at g u) as A.
    { intros u. rewrite A3, A2, A1. destruct (u =? y), (u =? x); reflexivity. }
    assert (neighbors vy = (if y =? x then neighbors vx ++ [mkEdge w y]
                            else neighbors_of g y) /\
            indegree vy = indegree_of g y /\
            outdegree vy = (if y =? x then to_int (outdegree vx + 1)
                            else outdegree_of g y)) as (Hn & Hi & Ho).
    { unfold neighbors_of, indegree_of, outdegree_of. revert Evy.
      destruct (Z.eqb_spec y x) as [Hyx|Hyx].
      - subst y. rewrite Evx. intros Evy; inversion Evy; auto.
      - intros ->; auto. }
    unfold storage_ok.
    split; [|split; [|split; [|repeat split; congruence]]]; intros u;
      unfold neighbors_of, indegree_of, outdegree_of in *; rewrite A; cbn [andb].
    + destruct (Z.eqb_spec u y) as [Huy|Huy].
      * subst u. cbn [neighbors]. rewrite Hn.
        destruct (Z.eqb_spec y x) as [Hyx|Hyx]; [subst y; rewrite Evx|]; reflexivity.
      * destruct (Z.eqb_spec u x) as [Hux|Hux]; [subst u; rewrite Evx|]; reflexivity.
    + destruct (Z.eqb_spec u y) as [Huy|Huy].
      * subst u. cbn [indegree]. rewrite Hi. reflexivity.
      * destruct (Z.eqb_spec u x) as [Hux|Hux]; [subst u; rewrite Evx|]; reflexivity.
    + destruct (Z.eqb_spec u y) as [Huy|Huy].
      * subst u. cbn [outdegree]. rewrite Ho.
        destruct (Z.eqb_spec y x) as [Hyx|Hyx]; [subst y; rewrite Evx|]; reflexivity.
      * destruct (Z.eqb_spec u x) as [Hux|Hux]; [subst u; rewrite Evx|]; reflexivity.
  - exists g1. split; [reflexivity|].
    unfold neighbors_of, indegree_of, outdegree_of, storage_ok. cbn [andb].
    split; [|split; [|split; [|repeat split; congruence]]];
      intros u; rewrite A1; destruct (Z.eqb_spec u x) as [->|Hx'];
        try rewrite Evx; reflexivity.
Qed.

(** Concrete runs are settled by evaluation. *)
Ltac conjuncts := repeat match goal with |- _ /\ _ => split end.
Ltac by_run := conjuncts; vm_compute; solve [reflexivity | discriminate | lia | auto].

(** C8 (amended). [add_edge] checks nothing and reports nothing: when
    both endpoints address allocated slots, that is lie in
    [0 .. vertexCount] and so in particular in [1 .. vertexCount], it
    succeeds, appends the edge to the outgoing list of [from] and leaves
    the other lists as they were. *)
Theorem C8_add_edge_appends g x y w :
  storage_ok g ->
  0 <= x <= Z.of_nat (_nvertex g) -> 0 <= y <= Z.of_nat (_nvertex g) ->
  exists g',
    add_edge x y w g = Some g' /\
    neighbors_of g' x = neighbors_of g x ++ [mkEdge w y] /\
    (forall u, u <> x -> neighbors_of g' u = neighbors_of g u) /\
    storage_ok g' /\ _nvertex g' = _nvertex g.
Proof.
  intros Hs Hx Hy.
  destruct (add_edge_slots g x y w Hs Hx Hy) as (g' & E & Hn & _ & _ & Hs' & Hnv & _).
  exists g'. split; [exact E|]. split; [|split; [|split]]; auto.
  - rewrite Hn, Z.eqb_refl. reflexivity.
  - intros u Hu. rewrite Hn. destruct (Z.eqb_spec u x); [contradiction|reflexivity].
Qed.

Lemma C8_add_edge_appends_witness :
  exists g',
    add_edge 3 1 0 (the scenario_A) = Some g' /\
    neighbors_of g' 3 = neighbors_of (the scenario_A) 3 ++ [mkEdge 0 1] /\
    (forall u, u <> 3 -> neighbors_of g' u = neighbors_of (the scenario_A) u) /\
    storage_ok g' /\ _nvertex g' = _nvertex (the scenario_A).
Proof.
  apply (C8_add_edge_appends (the scenario_A) 3 1 0).
  - split; reflexivity.
  - simpl; lia.
  - simpl; lia.
Defined.

(** C8 (as claimed, refuted). On the graph of scenario A (three
    vertices), [add_edge(0, 1, 5)] has the endpoint 0 outside [1, 3]; it
    does not fail: it returns a graph that differs from the one it was
    given, slot 0 now holding the edge and vertex 1 one more indegree. *)
Lemma C8_endpoint_zero_accepted :
  exists g g',
    scenario_A = Some g /\ ~ (1 <= 0 <= Z.of_nat (_nvertex g)) /\
    add_edge 0 1 5 g = Some g' /\ g' <> g /\
    neighbors_of g 0 = [] /\ neighbors_of g' 0 = [mkEdge 5 1] /\
    indegree_of g 1 = 0 /\ indegree_of g' 1 = 1.
Proof.
  exists (the scenario_A), (the (add_edge 0 1 5 (the scenario_A))).
  conjuncts; try by_run.
  simpl; lia.
Qed.

(** C2 (what the code does instead). On scenario C, started from clear
    visitation bits, [find_components] prints one component holding all
    four vertices: [dfs(1)] does not stop at the vertices reachable from
    1, its sweep goes on to vertex 4. *)
Theorem C2_find_components_one_component :
  exists g g',
    scenario_C = Some g /\ _discovered g = 0 /\ _processed g = 0 /\
    outcome (find_components 5 g) = Some (tt, g') /\
    printed (log_of (find_components 5 g)) =
      [Tcomponent 1; Tvertex 1; Tvertex 2; Tvertex 3; Tvertex 4; Tnewline] /\
    printed (log_of (dfs 5 1 g)) = [Tvertex 1; Tvertex 2; Tvertex 3; Tvertex 4].
Proof.
  exists (the scenario_C), (the (state_of (find_components 5 (the scenario_C)))).
  by_run.
Qed.

(** C3 (what the code does instead). On the directed graph 1->2, 2->3,
    3->2 the first [has_cycle] returns true and takes the indegree of
    vertex 2 from 2 to 1 in the graph itself; the second call, on the
    graph the first one left, returns false. *)
Theorem C3_second_has_cycle_differs :
  exists g g1 g2,
    tail_into_cycle = Some g /\
    outcome (has_cycle 3 g) = Some (true, g1) /\
    outcome (has_cycle 3 g1) = Some (false, g2) /\
    map neighbors (buf (_vertex g1)) = map neighbors (buf (_vertex g)) /\
    indegree_of g 2 = 2 /\ indegree_of g1 2 = 1 /\ indegree_of g2 2 = -1.
Proof.
  pose (g := the tail_into_cycle).
  pose (g1 := the (state_of (has_cycle 3 g))).
  exists g, g1, (the (state_of (has_cycle 3 g1))).
  by_run.
Qed.

(** ** Cycle detection on undirected graphs *)

Lemma cycle_edge_found rec v e g p :
  bit_ok (to e) = true -> Z.testbit (_discovered g) (to e) = true ->
  parent_at g v = Some p -> p <> to e ->
  cycle_edge rec v e g = ([], Some (true, g)).
Proof.
  intros Hb Hd Hp Hne.
  unfold cycle_edge, bind, get_discovered, get_parent, lift, ret.
  rewrite Hb, Hd. cbn [negb]. rewrite Hp. cbn [option_map app].
  destruct (Z.eqb_spec p (to e)); [contradiction|reflexivity].
Qed.

Lemma cycle_edge_parent rec v e g :
  bit_ok (to e) = true -> Z.testbit (_discovered g) (to e) = true ->
  parent_at g v = Some (to e) ->
  cycle_edge rec v e g = ([], Some (false, g)).
Proof.
  intros Hb Hd Hp.
  unfold cycle_edge, bind, get_discovered, get_parent, lift, ret.
  rewrite Hb, Hd. cbn [negb]. rewrite Hp. cbn [option_map app].
  rewrite Z.eqb_refl. reflexivity.
Qed.

Lemma cycle_edge_descend rec v e g g1 :
  bit_ok (to e) = true -> Z.testbit (_discovered g) (to e) = false ->
  set_parent g (to e) v = Some g1 ->
  cycle_edge rec v e g = rec (to e) g1.
Proof.
  intros Hb Hd Hp.
  unfold cycle_edge, bind, get_discovered, put_parent, lift.
  rewrite Hb, Hd. cbn [negb]. rewrite Hp. cbn [option_map app].
  destruct (rec (to e) g1) as [l r]. reflexivity.
Qed.

(** ** has_cycle starts from clear bits *)

Lemma has_cycle_unvisit fuel g :
  (0 < _nvertex g)%nat ->
  has_cycle fuel g =
  (Snapshot 0 (_processed g) :: Snapshot 0 0
     :: log_of (detect_cycle fuel (with_visit g 0 0)),
   outcome (detect_cycle fuel (with_visit g 0 0))).
Proof.
  intros Hn. unfold has_cycle.
  destruct (Nat.ltb_spec 0 (_nvertex g)); [|lia].
  unfold unvisit, bind, reset_discovered, reset_processed, write_visit; simpl.
  change (with_visit (with_visit g 0 (_processed g)) 0 0) with (with_visit g 0 0).
  destruct (detect_cycle fuel (with_visit g 0 0)) as [l r]; reflexivity.
Qed.

(** C10. With [nvertex > 0], [has_cycle] first clears [_discovered],
    then [_processed], and only then detects, on the cleared state; two
    graphs that differ in their visitation bits only give the same
    result (and the same final state). *)
Theorem C10_has_cycle_ignores_visitation fuel g1 g2 :
  (0 < _nvertex g1)%nat ->
  with_visit g1 0 0 = with_visit g2 0 0 ->
  (exists rest,
      log_of (has_cycle fuel g1) = Snapshot 0 (_processed g1) :: Snapshot 0 0 :: rest /\
      rest = log_of (detect_cycle fuel (with_visit g1 0 0))) /\
  outcome (has_cycle fuel g1) = outcome (detect_cycle fuel (with_visit g1 0 0)) /\
  outcome (has_cycle fuel g1) = outcome (has_cycle fuel g2) /\
  value_of (has_cycle fuel g1) = value_of (has_cycle fuel g2).
Proof.
  intros Hn Hs.
  assert (0 < _nvertex g2)%nat as Hn2.
  { replace (_nvertex g2) with (_nvertex (with_visit g2 0 0)) by reflexivity.
    rewrite <- Hs. exact Hn. }
  rewrite (has_cycle_unvisit fuel g1 Hn), (has_cycle_unvisit fuel g2 Hn2).
  rewrite <- Hs. unfold value_of, outcome, log_of; simpl.
  repeat split; eauto.
Qed.

Lemma C10_has_cycle_ignores_visitation_witness :
  value_of (has_cycle 4 (the (state_of (dfs 4 1 (the scenario_D)))))
  = value_of (has_cycle 4 (the scenario_D)).
Proof.
  apply (C10_has_cycle_ignores_visitation 4
           (the (state_of (dfs 4 1 (the scenario_D)))) (the scenario_D)).
  - vm_compute; lia.
  - vm_compute; reflexivity.
Defined.


(** ** A program logic for the visitation bits *)

Lemma triple_ret {A} (a : A) P : triple P (ret a) (fun _ => P).
Proof. intros g Hg. split; [constructor|]. simpl. intros b g' H; inversion H; subst; auto. Qed.

Lemma triple_stuck {A} P (Q : A -> Z -> Z -> Prop) : triple P stuck Q.
Proof. intros g Hg. split; [constructor|]. simpl. discriminate. Qed.

Lemma triple_bind {A B} {P} {m : M A} {Q} {f : A -> M B} {R} :
  triple P m Q -> (forall a, triple (Q a) (f a) R) -> triple P (bind m f) R.
Proof.
  intros Hm Hf g Hg. destruct (Hm g Hg) as [Hl Hq].
  unfold bind, log_of, outcome in *. destruct (m g) as [l1 [[a g1]|]]; simpl in *.
  - specialize (Hq a g1 eq_refl). destruct (Hf a g1 Hq) as [Hl2 Hr].
    unfold log_of, outcome in *. destruct (f a g1) as [l2 r]; simpl in *.
    split; [apply Forall_app; auto | exact Hr].
  - split; [exact Hl | discriminate].
Qed.

Lemma triple_weaken {A} (P P' : Z -> Z -> Prop) (m : M A) (Q Q' : A -> Z -> Z -> Prop) :
  (forall d p, P' d p -> P d p) -> (forall a d p, Q a d p -> Q' a d p) ->
  triple P m Q -> triple P' m Q'.
Proof.
  intros HP HQ H g Hg. destruct (H g (HP _ _ Hg)) as [Hl Hq]. split; eauto.
Qed.

Lemma triple_quiet {A} P (m : M A) : quiet m -> triple P m (fun _ => P).
Proof.
  intros H g Hg. destruct (H g) as [Hl Hs]. split.
  - rewrite Hl. constructor.
  - intros a g' E. destruct (Hs a g' E) as [-> ->]. exact Hg.
Qed.

Lemma triple_if {A} P (b : bool) (m1 m2 : M A) Q :
  triple P m1 Q -> triple P m2 Q -> triple P (if b then m1 else m2) Q.
Proof. destruct b; auto. Qed.

Lemma triple_for_each {A} P (l : list A) body :
  (forall a, triple P (body a) (fun _ => P)) ->
  triple P (for_each l body) (fun _ => P).
Proof.
  intros H. induction l as [|a l IH]; simpl.
  - apply triple_ret.
  - eapply triple_bind; [apply H | intros ?; exact IH].
Qed.

Lemma triple_for_vertices P body :
  (forall i, triple P (body i) (fun _ => P)) ->
  triple P (for_vertices body) (fun _ => P).
Proof. intros H g Hg. unfold for_vertices. now apply triple_for_each. Qed.

Lemma triple_any_edge P es body :
  (forall e, triple P (body e) (fun _ => P)) ->
  triple P (any_edge es body) (fun _ => P).
Proof.
  intros H. induction es as [|e es IH]; simpl.
  - apply triple_ret.
  - eapply triple_bind; [apply H|]. intros r. apply triple_if; [apply triple_ret | exact IH].
Qed.

(** The primitives. *)

Lemma quiet_get_discovered i : quiet (get_discovered i).
Proof. intros g. unfold get_discovered. destruct (bit_ok i); simpl; split; auto; intros a g' H; inversion H; auto. Qed.

Lemma quiet_get_processed i : quiet (get_processed i).
Proof. intros g. unfold get_processed. destruct (bit_ok i); simpl; split; auto; intros a g' H; inversion H; auto. Qed.

Lemma quiet_lift {A} (f : Graph -> option (A * Graph)) :
  (forall g a g', f g = Some (a, g') ->
     _discovered g' = _discovered g /\ _processed g' = _processed g) ->
  quiet (lift f).
Proof. intros H g. unfold lift; simpl. split; auto. intros a g' E. eauto. Qed.

Lemma quiet_get_vertex i : quiet (get_vertex i).
Proof.
  apply quiet_lift. intros g a g'. destruct (vertex_at g i); simpl; intros H; inversion H; auto.
Qed.

Lemma quiet_get_parent i : quiet (get_parent i).
Proof.
  apply quiet_lift. intros g a g'. destruct (parent_at g i); simpl; intros H; inversion H; auto.
Qed.

Lemma quiet_put_parent i p : quiet (put_parent i p).
Proof.
  apply quiet_lift. intros g a g'. unfold set_parent.
  destruct (store _ i p); simpl; intros H; inversion H; auto.
Qed.

Lemma triple_cout P t : triple P (cout t) (fun _ => P).
Proof.
  intros g Hg. split; [repeat constructor|]. simpl. intros a g' H; inversion H; subst; auto.
Qed.

Lemma bit_ok_nonneg i : bit_ok i = true -> 0 <= i.
Proof. unfold bit_ok. intros H. apply andb_true_iff in H as [H _]. lia. Qed.

Lemma visit_ok_setbit_d d p i : 0 <= i -> visit_ok d p -> visit_ok (Z.setbit d i) p.
Proof.
  intros Hi H j Hj. destruct (Z.eq_dec i j) as [->|Hne].
  - now apply Z.setbit_eq.
  - rewrite Z.setbit_neq by auto. now apply H.
Qed.

Lemma visit_ok_setbit_p d p i :
  0 <= i -> Z.testbit d i = true -> visit_ok d p -> visit_ok d (Z.setbit p i).
Proof.
  intros Hi Hd H j Hj. destruct (Z.eq_dec i j) as [<-|Hne]; auto.
  rewrite Z.setbit_neq in Hj by auto. now apply H.
Qed.

Lemma visit_ok_clear : visit_ok 0 0.
Proof. intros i H. now rewrite Z.testbit_0_l in H. Qed.

Lemma K_tail x l d p : K (x :: l) d p -> K l d p.
Proof. intros [H1 H2]. split; auto. now inversion H2. Qed.

Lemma K_nil l d p : K l d p -> K [] d p.
Proof. intros [H1 _]. split; auto. Qed.

Lemma triple_set_discovered i l :
  triple (K l) (set_discovered i) (fun _ => K (l ++ [i])).
Proof.
  intros g [Hv Hl]. unfold set_discovered. destruct (bit_ok i) eqn:Hb.
  - apply bit_ok_nonneg in Hb. unfold write_visit; simpl.
    assert (K (l ++ [i]) (Z.setbit (_discovered g) i) (_processed g)) as HK.
    { split; [now apply visit_ok_setbit_d|]. apply Forall_app. split.
      - eapply Forall_impl; [|exact Hl]. intros x Hx. simpl in *.
        destruct (Z.eq_dec i x) as [->|Hne]; [now apply Z.setbit_eq|].
        now rewrite Z.setbit_neq.
      - repeat constructor. now apply Z.setbit_eq. }
    split.
    + repeat constructor. simpl. apply HK.
    + intros a g' H; inversion H; subst; simpl. exact HK.
  - split; [constructor | discriminate].
Qed.

Lemma triple_set_processed i l :
  In i l -> triple (K l) (set_processed i) (fun _ => K l).
Proof.
  intros Hi g HK. unfold set_processed. destruct (bit_ok i) eqn:Hb.
  - apply bit_ok_nonneg in Hb. unfold write_visit; simpl.
    assert (K l (_discovered g) (Z.setbit (_processed g) i)) as HK'.
    { destruct HK as [Hv Hl]. split; auto.
      apply visit_ok_setbit_p; auto. rewrite Forall_forall in Hl. auto. }
    split.
    + repeat constructor. simpl. apply HK'.
    + intros a g' H; inversion H; subst; simpl. exact HK'.
  - split; [constructor | discriminate].
Qed.

Lemma K_perm_cons i l d p : K (l ++ [i]) d p -> K (i :: l) d p.
Proof.
  intros [Hv Hl]. split; auto. apply Forall_app in Hl as [H1 H2].
  constructor; auto. now inversion H2.
Qed.

(** ** Traversals keep the invariant at every point *)

Lemma triple_do_dfs fuel : forall v l, triple (K l) (do_dfs fuel v) (fun _ => K l).
Proof.
  induction fuel as [|f IH]; intros v l; simpl; [apply triple_stuck|].
  eapply triple_bind; [apply triple_quiet, quiet_get_discovered|].
  intros d. apply triple_if; [|apply triple_ret].
  eapply triple_bind; [apply triple_set_discovered|]. intros ?.
  eapply triple_weaken with (P := K (v :: l)) (Q := fun _ => K l);
    [apply K_perm_cons | auto |].
  eapply triple_bind; [apply triple_cout|]. intros ?.
  eapply triple_bind; [apply triple_quiet, quiet_get_vertex|]. intros vx.
  eapply triple_bind; [apply triple_for_each; intros e; apply IH|]. intros ?.
  eapply triple_weaken; [| |apply (triple_set_processed v (v :: l)); now left]; auto.
  intros ? d' p'. apply K_tail.
Qed.

Lemma triple_sweep P (walk : Z -> M unit) :
  (forall i, triple P (walk i) (fun _ => P)) ->
  triple P (for_vertices (fun i =>
              p <- get_processed i ;; if negb p then walk (to_int i) else ret tt))
         (fun _ => P).
Proof.
  intros H. apply triple_for_vertices. intros i.
  eapply triple_bind; [apply triple_quiet, quiet_get_processed|].
  intros p. apply triple_if; [apply H | apply triple_ret].
Qed.

(** [bind] at a given state, for operations that first read a field. *)
Lemma triple_bind_at {A B} P (m : M A) (f : A -> M B) g :
  triple P m (fun _ => P) -> (forall a, triple P (f a) (fun _ => P)) ->
  P (_discovered g) (_processed g) ->
  Forall event_ok (log_of (bind m f g)) /\
  forall b g', outcome (bind m f g) = Some (b, g') -> P (_discovered g') (_processed g').
Proof. intros Hm Hf Hg. exact (triple_bind Hm Hf g Hg). Qed.

Lemma triple_dfs fuel v : triple (K []) (dfs fuel v) (fun _ => K []).
Proof.
  intros g Hg. unfold dfs. apply triple_bind_at; auto.
  - apply triple_if; [apply triple_do_dfs | apply triple_ret].
  - intros ?. apply triple_sweep. intros i. apply triple_do_dfs.
Qed.

Lemma triple_bfs_scan es : forall q,
  triple (K q) (bfs_scan es q) (fun q1 d p => K q1 d p /\ exists suf, q1 = q ++ suf).
Proof.
  induction es as [|e es IH]; intros q; simpl.
  - intros g Hg. split; [constructor|]. simpl. intros a g' H; inversion H; subst.
    split; auto. exists []. now rewrite app_nil_r.
  - eapply triple_bind; [apply triple_quiet, quiet_get_discovered|].
    intros d. apply triple_if.
    + eapply triple_bind; [apply triple_set_discovered|]. intros ?.
      eapply triple_weaken; [| |apply IH]; auto.
      intros q1 d' p' [HK [suf ->]]. split; auto.
      exists ([to e] ++ suf). now rewrite app_assoc.
    + apply IH.
Qed.

Lemma triple_bfs_loop fuel : forall q, triple (K q) (bfs_loop fuel q) (fun _ => K []).
Proof.
  induction fuel as [|f IH]; intros [|x q]; simpl;
    try apply triple_stuck;
    try (eapply triple_weaken; [| |apply triple_ret]; eauto using K_nil).
  eapply triple_bind; [apply triple_quiet, quiet_get_vertex|]. intros vx.
  eapply triple_bind; [apply triple_bfs_scan|]. intros q1.
  intros g [HK [suf ->]]. revert g HK.
  change (triple (K ((x :: q) ++ suf))
            (set_processed x ;; cout (Tvertex x) ;; bfs_loop f (tl ((x :: q) ++ suf)))
            (fun _ => K [])).
  eapply triple_bind; [apply triple_set_processed; now left|]. intros ?.
  eapply triple_bind; [apply triple_cout|]. intros ?.
  simpl. eapply triple_weaken; [| |apply IH]; auto.
  intros d p. apply K_tail.
Qed.

Lemma triple_do_bfs fuel start : triple (K []) (do_bfs fuel start) (fun _ => K []).
Proof.
  unfold do_bfs. eapply triple_bind; [apply triple_set_discovered|].
  intros ?. apply triple_bfs_loop.
Qed.

Lemma triple_bfs fuel start : triple (K []) (bfs fuel start) (fun _ => K []).
Proof.
  intros g Hg. unfold bfs. apply triple_bind_at; auto.
  - apply triple_if; [apply triple_do_bfs | apply triple_ret].
  - intros ?. apply triple_sweep. intros i. apply triple_do_bfs.
Qed.

Lemma triple_find_components_loop fuel ids : forall k,
  triple (K []) (find_components_loop fuel ids k) (fun _ => K []).
Proof.
  induction ids as [|i ids IH]; intros k; simpl; [apply triple_ret|].
  eapply triple_bind; [apply triple_quiet, quiet_get_discovered|].
  intros d. apply triple_if; [|apply IH].
  eapply triple_bind; [apply triple_cout|]. intros ?.
  eapply triple_bind; [apply triple_dfs|]. intros ?.
  eapply triple_bind; [apply triple_cout|]. intros ?.
  apply IH.
Qed.

Lemma triple_find_components fuel : triple (K []) (find_components fuel) (fun _ => K []).
Proof. intros g Hg. unfold find_components. now apply triple_find_components_loop. Qed.

Lemma triple_set_discovered_nil i : triple (K []) (set_discovered i) (fun _ => K []).
Proof.
  eapply triple_weaken; [| |apply (triple_set_discovered i [])]; auto.
  intros ? d p. apply K_nil.
Qed.

Lemma triple_detect_undirected_cycle fuel : forall v,
  triple (K []) (detect_undirected_cycle fuel v) (fun _ => K []).
Proof.
  induction fuel as [|f IH]; intros v; simpl; [apply triple_stuck|].
  eapply triple_bind; [apply triple_quiet, quiet_get_discovered|].
  intros d. apply triple_if; [|apply triple_ret].
  eapply triple_bind; [apply triple_set_discovered_nil|]. intros ?.
  eapply triple_bind; [apply triple_quiet, quiet_get_vertex|]. intros vx.
  apply triple_any_edge. intros e. unfold cycle_edge.
  eapply triple_bind; [apply triple_quiet, quiet_get_discovered|].
  intros de. apply triple_if.
  - eapply triple_bind; [apply triple_quiet, quiet_put_parent|]. intros ?. apply IH.
  - eapply triple_bind; [apply triple_quiet, quiet_get_parent|]. intros ?. apply triple_ret.
Qed.

Lemma triple_undirected_scan fuel ids : forall c,
  triple (K []) (undirected_scan fuel ids c) (fun _ => K []).
Proof.
  induction ids as [|i ids IH]; intros c; simpl; [apply triple_ret|].
  eapply triple_bind; [apply triple_quiet, quiet_get_discovered|].
  intros d. apply triple_if; [|apply IH].
  eapply triple_bind; [apply triple_detect_undirected_cycle|]. intros r. apply IH.
Qed.

(** ** What the directed check leaves alone *)

Lemma frame_refl g : frame g g.
Proof. repeat split. Qed.

Lemma frame_trans g1 g2 g3 : frame g1 g2 -> frame g2 g3 -> frame g1 g3.
Proof.
  intros (A1 & A2 & A3 & A4 & A5 & A6) (B1 & B2 & B3 & B4 & B5 & B6).
  repeat split; congruence.
Qed.

Lemma map_list_set {A B} (f : A -> B) l n a :
  map f (list_set l n a) = list_set (map f l) n (f a).
Proof.
  revert n; induction l as [|x l IH]; intros [|n]; simpl; auto. now rewrite IH.
Qed.

Lemma list_set_same {A} (l : list A) n a :
  nth_error l n = Some a -> list_set l n a = l.
Proof.
  revert n; induction l as [|x l IH]; intros [|n]; simpl; auto.
  - intros H; inversion H; auto.
  - intros H. now rewrite IH.
Qed.

Lemma set_vertex_degrees_frame g i vx vx' g' :
  vertex_at g i = Some vx -> neighbors vx' = neighbors vx ->
  set_vertex g i vx' = Some g' -> frame g g'.
Proof.
  intros Hv Hn Hs. apply set_vertex_inv in Hs as [Hi ->].
  unfold frame; simpl. repeat split.
  rewrite map_list_set, Hn. apply list_set_same.
  unfold vertex_at, slot in Hv. destruct (Z.ltb_spec i 0); [lia|].
  rewrite nth_error_map, Hv. reflexivity.
Qed.

Lemma frame_neighbors_of g g' u : frame g g' -> neighbors_of g' u = neighbors_of g u.
Proof.
  intros (H & _). unfold neighbors_of, vertex_at, slot.
  destruct (u <? 0); auto.
  assert (nth_error (map neighbors (buf (_vertex g'))) (Z.to_nat u)
          = nth_error (map neighbors (buf (_vertex g))) (Z.to_nat u)) as E by now rewrite H.
  rewrite !nth_error_map in E.
  destruct (nth_error (buf (_vertex g')) _), (nth_error (buf (_vertex g)) _);
    simpl in E; congruence.
Qed.

Lemma succs_neighbors_of g u : succs g u = map to (neighbors_of g u).
Proof. unfold succs, neighbors_of. destruct (vertex_at g u); reflexivity. Qed.

Lemma frame_succs g g' u : frame g g' -> succs g' u = succs g u.
Proof. intros H. rewrite !succs_neighbors_of. now rewrite (frame_neighbors_of g g' u H). Qed.

Lemma frame_length g g' : frame g g' ->
  length (buf (_vertex g')) = length (buf (_vertex g)).
Proof.
  intros (H & _). apply (f_equal (@length _)) in H. now rewrite !length_map in H.
Qed.

Lemma kahn_relax_frame es : forall g s g' s',
  kahn_relax es g s = Some (g', s') -> frame g g'.
Proof.
  induction es as [|e es IH]; intros g s g' s'; simpl.
  - intros H; inversion H; subst. apply frame_refl.
  - destruct (vertex_at g (to e)) as [vx|] eqn:Ev; simpl; [|discriminate].
    destruct (set_vertex g (to e) _) as [g1|] eqn:Es; simpl; [|discriminate].
    intros H. eapply frame_trans; [|eapply IH; exact H].
    eapply set_vertex_degrees_frame; [exact Ev| |exact Es]. reflexivity.
Qed.

Lemma kahn_loop_frame fuel : forall g s np order r g',
  kahn_loop fuel g s np order = Some (r, g') -> frame g g'.
Proof.
  induction fuel as [|f IH]; intros g [|v s] np order r g'; simpl;
    try discriminate;
    try (intros H; inversion H; subst; apply frame_refl).
  destruct (vertex_at g v) as [vx|]; simpl; [|discriminate].
  destruct (kahn_relax (neighbors vx) g s) as [[g1 s1]|] eqn:Er; simpl; [|discriminate].
  intros H. eapply frame_trans; [eapply kahn_relax_frame; exact Er | eapply IH; exact H].
Qed.

Lemma kahn_frame fuel g r g' : kahn fuel g = Some (r, g') -> frame g g'.
Proof.
  unfold kahn. destruct (kahn_seed g (vertices g) []) as [s|]; simpl; [|discriminate].
  apply kahn_loop_frame.
Qed.

Lemma detect_directed_cycle_frame fuel g b g' :
  detect_directed_cycle fuel g = Some (b, g') -> frame g g'.
Proof.
  unfold detect_directed_cycle.
  destruct (kahn fuel g) as [[r g1]|] eqn:E; simpl; [|discriminate].
  intros H; inversion H; subst. eapply kahn_frame; exact E.
Qed.

Lemma triple_detect_cycle fuel : triple (K []) (detect_cycle fuel) (fun _ => K []).
Proof.
  intros g Hg. unfold detect_cycle. destruct (negb (_directed g)).
  - now apply triple_undirected_scan.
  - apply triple_quiet; auto. apply quiet_lift. intros g0 a g' H.
    apply detect_directed_cycle_frame in H as (_ & _ & H1 & H2 & _). auto.
Qed.

Lemma inv_unprocessed g : _processed g = 0 -> inv g.
Proof. intros H i Hi. rewrite H, Z.testbit_0_l in Hi. discriminate. Qed.

Lemma inv_same g : _processed g = _discovered g -> inv g.
Proof. intros H i Hi. now rewrite <- H. Qed.

(** C9 (amended). From a state in which processed implies discovered,
    every point of [bfs], [dfs] and [find_components] satisfies the
    implication, and so does the state they return.  [unvisit] clears
    [_discovered] first and [_processed] second: the point between the
    two resets has every previously processed vertex processed and not
    discovered; from the second reset on the implication holds again, at
    every point of the detection that [has_cycle] goes on with and in the
    state either returns. *)
Theorem C9_processed_implies_discovered fuel g :
  inv g ->
  (forall start,
      Forall event_ok (log_of (bfs fuel start g)) /\
      forall g', state_of (bfs fuel start g) = Some g' -> inv g') /\
  (forall v,
      Forall event_ok (log_of (dfs fuel v g)) /\
      forall g', state_of (dfs fuel v g) = Some g' -> inv g') /\
  (Forall event_ok (log_of (find_components fuel g)) /\
   forall g', state_of (find_components fuel g) = Some g' -> inv g') /\
  (log_of (unvisit g) = [Snapshot 0 (_processed g); Snapshot 0 0] /\
   forall g', state_of (unvisit g) = Some g' -> inv g') /\
  (((0 < _nvertex g)%nat ->
    hd_error (log_of (has_cycle fuel g)) = Some (Snapshot 0 (_processed g))) /\
   Forall event_ok (tl (log_of (has_cycle fuel g))) /\
   forall g', state_of (has_cycle fuel g) = Some g' -> inv g').
Proof.
  intros Hinv. assert (K [] (_discovered g) (_processed g)) as HK by (split; auto).
  assert (forall A (m : M A), triple (K []) m (fun _ => K []) ->
            Forall event_ok (log_of (m g)) /\
            forall g', state_of (m g) = Some g' -> inv g') as run_ok.
  { intros A m Hm. destruct (Hm g HK) as [Hl Hs]. split; auto.
    intros g'. unfold state_of, outcome in *. destruct (snd (m g)) as [[a g1]|]; simpl;
      [|discriminate]. intros E; inversion E; subst. apply (Hs a g' eq_refl). }
  split; [|split; [|split; [|split]]].
  - intros start. apply run_ok, triple_bfs.
  - intros v. apply run_ok, triple_dfs.
  - apply run_ok, triple_find_components.
  - split; [reflexivity|]. simpl. intros g' E; inversion E; subst.
    unfold inv; simpl. apply visit_ok_clear.
  - destruct (Nat.ltb_spec 0 (_nvertex g)) as [Hn|Hn].
    + rewrite (has_cycle_unvisit fuel g Hn). unfold log_of, state_of; simpl.
      destruct (triple_detect_cycle fuel (with_visit g 0 0)) as [Hl Hs].
      { split; [apply visit_ok_clear | constructor]. }
      split; [auto|]. split.
      * constructor; [apply visit_ok_clear | exact Hl].
      * intros g'. unfold outcome in *.
        destruct (snd (detect_cycle fuel (with_visit g 0 0))) as [[a g1]|]; simpl;
          [|discriminate].
        intros E; inversion E; subst. apply (Hs a g' eq_refl).
    + unfold has_cycle. destruct (Nat.ltb_spec 0 (_nvertex g)); [lia|].
      simpl. split; [lia|]. split; [constructor|].
      intros g' E; inversion E; subst; auto.
Qed.

Lemma C9_processed_implies_discovered_witness :
  Forall event_ok (log_of (bfs 5 1 (the scenario_C))) /\
  Forall event_ok (tl (log_of (has_cycle 5 (the scenario_C)))).
Proof.
  assert (inv (the scenario_C)) as H.
  { apply inv_unprocessed. reflexivity. }
  split.
  - apply (proj1 (C9_processed_implies_discovered 5 (the scenario_C) H) 1).
  - apply (proj2 (proj2 (proj2 (proj2
             (C9_processed_implies_discovered 5 (the scenario_C) H))))).
Defined.

(** C9 (as claimed, refuted). After [bfs(1)] on scenario C every vertex
    is discovered and processed (bits 1 to 4, the value 30).  [unvisit],
    and [has_cycle] which starts with it, then pass through the point
    where [_discovered] is 0 and [_processed] still 30: vertex 1 is
    processed and not discovered. *)
Lemma C9_unvisit_breaks_invariant :
  exists g,
    state_of (bfs 5 1 (the scenario_C)) = Some g /\ inv g /\
    In (Snapshot 0 30) (log_of (unvisit g)) /\
    In (Snapshot 0 30) (log_of (has_cycle 5 g)) /\
    ~ event_ok (Snapshot 0 30) /\
    Z.testbit 30 1 = true /\ Z.testbit 0 1 = false.
Proof.
  exists (the (state_of (bfs 5 1 (the scenario_C)))).
  split; [by_run|]. split.
  - apply inv_same. reflexivity.
  - split; [vm_compute; auto|]. split; [vm_compute; auto|].
    split; [|split; reflexivity].
    intros H. specialize (H 1 eq_refl). discriminate.
Qed.

(** ** Kahn's elimination *)

Lemma to_int_small z : - 2 ^ 31 <= z < 2 ^ 31 -> to_int z = z.
Proof. intros H. unfold to_int. rewrite Z.mod_small; lia. Qed.

Lemma vertices_NoDup g : NoDup (vertices g).
Proof.
  unfold vertices. apply Injective_map_NoDup; [|apply seq_NoDup].
  intros a b H. now apply Nat2Z.inj.
Qed.

Lemma vertices_length g : length (vertices g) = _nvertex g.
Proof. unfold vertices. now rewrite length_map, length_seq. Qed.

Section WellFormed.
Variable g : Graph.
Hypothesis Hwf : wfb g = true.

Lemma wfb_nvertex : Z.of_nat (_nvertex g) <= MAX_VERTEX.
Proof.
  unfold wfb in Hwf. rewrite !andb_true_iff in Hwf.
  destruct Hwf as [[[H _] _] _]. lia.
Qed.

Lemma wfb_storage : storage_ok g.
Proof.
  unfold wfb in Hwf. rewrite !andb_true_iff in Hwf.
  destruct Hwf as [[[_ H1] H2] _]. split; now apply Nat.eqb_eq.
Qed.

Lemma wfb_targets u t : In u (vertices g) -> In t (succs g u) -> In t (vertices g).
Proof.
  intros Hu Ht. unfold wfb in Hwf. rewrite !andb_true_iff in Hwf.
  destruct Hwf as [_ H]. rewrite forallb_forall in H. specialize (H u Hu).
  rewrite forallb_forall in H. specialize (H t Ht).
  unfold in_range in H. apply andb_true_iff in H. apply in_vertices. lia.
Qed.

Lemma wfb_vertex_at v : In v (vertices g) -> exists vx, vertex_at g v = Some vx.
Proof.
  intros Hv. apply in_vertices in Hv. apply slot_in_range.
  destruct wfb_storage as [-> _]. lia.
Qed.
End WellFormed.

Lemma count_occ_flat_map_filter (f : Z -> list Z) v t : forall U,
  NoDup U -> In v U ->
  count_occ Z.eq_dec (flat_map f U) t =
  (count_occ Z.eq_dec (flat_map f (without v U)) t
   + count_occ Z.eq_dec (f v) t)%nat.
Proof.
  induction U as [|x U IH]; intros Hnd Hin; [contradiction|].
  inversion Hnd as [|? ? Hx HU]; subst. unfold without in *. simpl.
  rewrite count_occ_app. destruct (Z.eqb_spec x v) as [->|Hne]; simpl.
  - assert (filter (fun x => negb (Z.eqb x v)) U = U) as ->; [|lia].
    apply forallb_filter_id. apply forallb_forall. intros y Hy.
    destruct (Z.eqb_spec y v); [subst; contradiction | reflexivity].
  - destruct Hin as [Heq|Hin]; [contradiction|].
    rewrite count_occ_app, (IH HU Hin). lia.
Qed.

Lemma indegree_of_set_vertex g i vx g' :
  set_vertex g i vx = Some g' ->
  forall t, indegree_of g' t = if t =? i then indegree vx else indegree_of g t.
Proof.
  intros H t. unfold indegree_of. rewrite (vertex_at_set_vertex _ _ _ _ H).
  destruct (t =? i); reflexivity.
Qed.

Lemma NoDup_push (order s : list Z) t :
  NoDup (order ++ s) -> ~ In t (order ++ s) -> NoDup (order ++ t :: s).
Proof.
  intros Hnd Hin. apply (NoDup_Add (Add_app t order s)). auto.
Qed.

Lemma In_push (order s : list Z) t x :
  In x (order ++ t :: s) <-> x = t \/ In x (order ++ s).
Proof.
  rewrite !in_app_iff. simpl. intuition auto.
Qed.

Lemma kahn_relax_inv g0 order U :
  wfb g0 = true ->
  forall es g s,
    kahn_inv g0 g order s (map to es) U ->
    (forall e, In e es -> In (to e) (vertices g0)) ->
    exists g' s',
      kahn_relax es g s = Some (g', s') /\ kahn_inv g0 g' order s' [] U.
Proof.
  intros Hwf. induction es as [|e es IH]; intros g s Hinv Hes; cbn [kahn_relax map].
  - eauto.
  - assert (In (to e) (vertices g0)) as Ht by (apply Hes; now left).
    destruct Hinv as [Hfr Hnd Hincl HUnd HU Hdisj Hind Hsmall Hzero Htopo].
    destruct (slot_in_range (buf (_vertex g)) (to e)) as [vx Evx].
    { rewrite (frame_length _ _ Hfr). destruct (wfb_storage g0 Hwf) as [-> _].
      apply in_vertices in Ht. lia. }
    fold (vertex_at g (to e)) in Evx. rewrite Evx. cbn [obind].
    assert (indegree vx = indegree_of g (to e)) as Eind
        by (unfold indegree_of; now rewrite Evx).
    pose proof (Hind _ Ht) as Hc. pose proof (Hsmall _ Ht) as Hlt.
    unfold inflow in Hc. simpl map in Hc. rewrite count_occ_cons_eq in Hc by reflexivity.
    rewrite to_int_small by lia.
    destruct (set_vertex g (to e) (mkVertex (indegree vx - 1) (outdegree vx) (neighbors vx)))
      as [g1|] eqn:Es.
    2:{ rewrite set_vertex_in_range in Es; [discriminate|].
        eapply vertex_at_range; exact Evx. }
    cbn [obind].
    pose proof (indegree_of_set_vertex _ _ _ _ Es) as Hi1. cbn [indegree] in Hi1.
    assert (~ In (to e) (order ++ s)) as Hnotin.
    { intros Hin. apply (Hzero _ Ht) in Hin. lia. }
    set (s1 := if 0 =? indegree vx - 1 then to e :: s else s).
    assert (forall x, In x (order ++ s1) <->
                      (x = to e /\ indegree vx - 1 = 0) \/ In x (order ++ s)) as Hs1.
    { intros x. unfold s1. destruct (Z.eqb_spec 0 (indegree vx - 1)) as [Hz|Hz].
      - rewrite In_push. split; [intros [?|?]; auto | intros [[? _]|?]; auto].
      - split; [auto | intros [[_ ?]|?]; [lia | auto]]. }
    assert (NoDup (order ++ s1)) as Hnd1.
    { unfold s1. destruct (0 =? indegree vx - 1); auto. now apply NoDup_push. }
    clearbody s1.
    apply IH; [|intros e' He'; apply Hes; now right].
    constructor.
    + eapply frame_trans; [exact Hfr|].
      eapply set_vertex_degrees_frame; [exact Evx| |exact Es]. reflexivity.
    + exact Hnd1.
    + intros x Hx. apply Hs1 in Hx as [[-> _]|Hx]; auto.
    + exact HUnd.
    + exact HU.
    + exact Hdisj.
    + intros t Ht'. rewrite Hi1. unfold inflow.
      destruct (Z.eqb_spec t (to e)) as [->|Hne].
      * lia.
      * rewrite (Hind _ Ht'). unfold inflow. simpl map.
        rewrite count_occ_cons_neq by congruence. reflexivity.
    + intros t Ht'. rewrite Hi1.
      destruct (Z.eqb_spec t (to e)) as [->|Hne]; [lia | auto].
    + intros t Ht'. rewrite Hi1, Hs1.
      destruct (Z.eqb_spec t (to e)) as [->|Hne].
      * split; [intros [[_ ?]|?]; [auto | contradiction] | auto].
      * rewrite <- (Hzero _ Ht'). split; [intros [[? _]|?]; [contradiction | auto] | auto].
    + exact Htopo.
Qed.

Lemma without_In v U x : In x (without v U) <-> In x U /\ x <> v.
Proof.
  unfold without. rewrite filter_In. destruct (Z.eqb_spec x v); simpl; intuition congruence.
Qed.

Lemma topo_snoc g l v :
  topo g l -> (forall u, edge g u v -> In u l) -> topo g (l ++ [v]).
Proof.
  intros Ht Hv l1 x l2 E u Hu.
  destruct l2 as [|y l2'] using rev_ind.
  - apply app_inj_tail in E as [E1 E2]. subst. exact (Hv u Hu).
  - clear IHl2'. rewrite app_comm_cons, app_assoc in E.
    apply app_inj_tail in E as [E1 _]. subst. exact (Ht _ _ _ eq_refl u Hu).
Qed.

(** Popping [v]: it moves from the stack to the order, its edges become
    pending. *)
Lemma kahn_pop_inv g0 g order v s U :
  kahn_inv g0 g order (v :: s) [] U ->
  kahn_inv g0 g (order ++ [v]) s (succs g0 v) (without v U).
Proof.
  intros [Hfr Hnd Hincl HUnd HU Hdisj Hind Hsmall Hzero Htopo].
  assert (In v (vertices g0)) as Hv by (apply Hincl, in_app_iff; right; now left).
  assert (~ In v order) as Hvo.
  { intros Hin. apply NoDup_remove_2 in Hnd. apply Hnd, in_app_iff. now left. }
  assert (In v U) as HvU by (apply HU in Hv as [?|?]; [contradiction | auto]).
  assert (indegree_of g v = 0) as Hv0.
  { apply Hzero; auto. apply in_app_iff; right; now left. }
  constructor.
  - exact Hfr.
  - now rewrite <- app_assoc.
  - intros x Hx. apply Hincl. now rewrite <- app_assoc in Hx.
  - unfold without. now apply NoDup_filter.
  - intros x. rewrite HU, in_app_iff, without_In. simpl.
    destruct (Z.eq_dec x v) as [->|Hne].
    + split; auto.
    + split.
      * intros [?|?]; auto.
      * intros [[?|[?|[]]]|[? _]]; auto. congruence.
  - intros x Hx. rewrite without_In. apply in_app_iff in Hx as [Hx|[<-|[]]].
    + intros [Hx' _]. exact (Hdisj _ Hx Hx').
    + intros [_ Hx']. now apply Hx'.
  - intros t Ht. rewrite (Hind _ Ht). unfold inflow. simpl.
    rewrite (count_occ_flat_map_filter (succs g0) v t U HUnd HvU). f_equal. lia.
  - exact Hsmall.
  - intros t Ht. rewrite <- (Hzero _ Ht). now rewrite <- app_assoc.
  - apply topo_snoc; auto. intros u [Hu Huv].
    apply HU in Hu as [Hu|Hu]; auto. exfalso.
    pose proof (Hind _ Hv) as Hc. unfold inflow in Hc. simpl in Hc.
    assert (In v (flat_map (succs g0) U)) as Hin by (apply in_flat_map; eauto).
    apply (count_occ_In Z.eq_dec) in Hin. lia.
Qed.

Lemma kahn_inv_length g0 g order s pend U :
  kahn_inv g0 g order s pend U -> (length order + length s <= _nvertex g0)%nat.
Proof.
  intros H. rewrite <- length_app, <- (vertices_length g0).
  apply NoDup_incl_length; [apply (ki_nodup H) | intros x; apply (ki_incl H)].
Qed.

Lemma kahn_loop_inv g0 :
  wfb g0 = true ->
  forall fuel g order s U,
    kahn_inv g0 g order s [] U ->
    (_nvertex g0 - length order <= fuel)%nat ->
    exists order' g' U',
      kahn_loop fuel g s (length order) order = Some (length order', order', g') /\
      kahn_inv g0 g' order' [] [] U'.
Proof.
  intros Hwf. induction fuel as [|f IH]; intros g order [|v s] U Hinv Hfuel;
    cbn [kahn_loop]; eauto.
  - apply kahn_inv_length in Hinv. simpl in Hinv. lia.
  - pose proof (kahn_inv_length _ _ _ _ _ _ Hinv) as Hlen. simpl in Hlen.
    assert (In v (vertices g0)) as Hv
        by (apply (ki_incl Hinv), in_app_iff; right; now left).
    pose proof (ki_frame Hinv) as Hfr.
    destruct (slot_in_range (buf (_vertex g)) v) as [vx Evx].
    { rewrite (frame_length _ _ Hfr). destruct (wfb_storage g0 Hwf) as [-> _].
      apply in_vertices in Hv. lia. }
    fold (vertex_at g v) in Evx. rewrite Evx. cbn [obind].
    assert (map to (neighbors vx) = succs g0 v) as Esucc.
    { rewrite <- (frame_succs _ _ v Hfr). unfold succs. now rewrite Evx. }
    apply kahn_pop_inv in Hinv. rewrite <- Esucc in Hinv.
    destruct (kahn_relax_inv g0 _ _ Hwf (neighbors vx) g s Hinv) as (g1 & s1 & Er & Hinv1).
    { intros e He. apply (wfb_targets g0 Hwf v); auto.
      rewrite <- Esucc. now apply in_map. }
    rewrite Er. cbn [obind].
    replace (S (length order)) with (length (order ++ [v]))
      by (rewrite length_app; simpl; lia).
    apply (IH _ _ _ _ Hinv1). rewrite length_app; simpl. lia.
Qed.

Lemma kahn_seed_eq g :
  wfb g = true ->
  forall ids s,
    (forall i, In i ids -> In i (vertices g)) ->
    kahn_seed g ids s
    = Some (rev (filter (fun i => 0 =? indegree_of g i) ids) ++ s).
Proof.
  intros Hwf. induction ids as [|i ids IH]; intros s Hids; cbn [kahn_seed filter].
  - reflexivity.
  - assert (In i (vertices g)) as Hi by (apply Hids; now left).
    destruct (wfb_vertex_at g Hwf i Hi) as [vx Evx]. rewrite Evx. cbn [obind].
    assert (indegree_of g i = indegree vx) as -> by (unfold indegree_of; now rewrite Evx).
    rewrite to_int_small.
    2:{ apply in_vertices in Hi. pose proof (wfb_nvertex g Hwf). unfold MAX_VERTEX in *. lia. }
    rewrite IH by (intros j Hj; apply Hids; now right).
    destruct (0 =? indegree vx); [|reflexivity].
    simpl rev. now rewrite <- app_assoc.
Qed.

Lemma kahn_inv_start g :
  wfb g = true -> indegrees_match g = true ->
  kahn_inv g g [] (rev (filter (fun i => 0 =? indegree_of g i) (vertices g))) []
           (vertices g).
Proof.
  intros Hwf Hm. unfold indegrees_match in Hm. rewrite forallb_forall in Hm.
  constructor.
  - apply frame_refl.
  - simpl. apply NoDup_rev, NoDup_filter, vertices_NoDup.
  - simpl. intros x Hx. apply in_rev, filter_In in Hx. tauto.
  - apply vertices_NoDup.
  - intros x. simpl. tauto.
  - intros x [].
  - intros t Ht. apply Hm, andb_true_iff in Ht as [Ht _].
    apply Z.eqb_eq in Ht. rewrite Ht. unfold inflow, edge_targets. simpl. f_equal. lia.
  - intros t Ht. apply Hm, andb_true_iff in Ht as [_ Ht]. lia.
  - intros t Ht. cbn [app]. rewrite <- in_rev, filter_In.
    split; [intros [_ H]; lia | intros H; split; auto; lia].
  - intros l1 v l2 E. destruct l1; discriminate.
Qed.

(** The elimination returns, with enough fuel for one pop per vertex. *)
Lemma kahn_total g fuel :
  wfb g = true -> indegrees_match g = true -> (_nvertex g <= fuel)%nat ->
  exists order g' U,
    kahn fuel g = Some (length order, order, g') /\ kahn_inv g g' order [] [] U.
Proof.
  intros Hwf Hm Hfuel. unfold kahn.
  rewrite (kahn_seed_eq g Hwf) by auto. cbn [obind]. rewrite app_nil_r.
  apply (kahn_loop_inv g Hwf fuel _ _ _ _ (kahn_inv_start g Hwf Hm)). simpl. lia.
Qed.

(** ** Topological orders and cycles *)

Lemma topo_closure g l :
  topo g l ->
  forall x z, clos_trans_n1 Z (edge g) x z ->
  forall l1 l2, l = l1 ++ z :: l2 -> In x l1.
Proof.
  intros Ht x z Hxz. induction Hxz as [z Hz | y z Hyz Hxy IH]; intros l1 l2 E.
  - exact (Ht l1 z l2 E x Hz).
  - pose proof (Ht l1 z l2 E y Hyz) as Hy.
    apply in_split in Hy as (a & b & ->).
    rewrite <- app_assoc in E. simpl in E.
    apply in_app_iff. left. exact (IH a _ E).
Qed.

Lemma walk_starts_at_vertex g x y : clos_trans Z (edge g) x y -> In x (vertices g).
Proof. induction 1 as [x y [Hx _] | x y z _ IH _ _]; auto. Qed.

Lemma topo_acyclic g l :
  topo g l -> NoDup l -> (forall v, In v (vertices g) -> In v l) ->
  ~ has_directed_cycle g.
Proof.
  intros Ht Hnd Hall [v Hv].
  pose proof (Hall v (walk_starts_at_vertex g v v Hv)) as Hin.
  apply in_split in Hin as (l1 & l2 & E).
  apply clos_trans_tn1 in Hv.
  pose proof (topo_closure g l Ht v v Hv l1 l2 E) as Hv1.
  subst l. apply NoDup_remove_2 in Hnd. apply Hnd, in_app_iff. now left.
Qed.

Lemma topo_appears_before g l u v :
  topo g l -> edge g u v -> In v l -> appears_before l u v.
Proof.
  intros Ht He Hv. apply in_split in Hv as (l1 & l2 & E).
  pose proof (Ht l1 v l2 E u He) as Hu.
  apply in_split in Hu as (a & b & ->).
  exists a, b, l2. rewrite E, <- app_assoc. reflexivity.
Qed.

(** Walking backwards along predecessors inside a finite set must come
    back to a vertex already seen. *)
Lemma chase_predecessors (R : Z -> Z -> Prop) (U : list Z) :
  (forall u, In u U -> exists w, In w U /\ R w u) ->
  forall k visited h,
    (length U < k + length visited)%nat ->
    NoDup (h :: visited) -> incl (h :: visited) U ->
    (forall x, In x visited -> clos_trans Z R h x) ->
    exists v, clos_trans Z R v v.
Proof.
  intros Hpred. induction k as [|k IH]; intros visited h Hk Hnd Hincl Hreach.
  - apply NoDup_incl_length in Hincl; auto. simpl in *. lia.
  - destruct (Hpred h) as (w & HwU & Hwh); [apply Hincl; now left|].
    destruct (Z.eq_dec w h) as [->|Hne].
    { exists h. now apply t_step. }
    destruct (in_dec Z.eq_dec w visited) as [Hin|Hnin].
    { exists w. eapply t_trans; [apply t_step; exact Hwh | now apply Hreach]. }
    apply (IH (h :: visited) w).
    + simpl. lia.
    + constructor; auto. intros [Heq|Hin]; [congruence | contradiction].
    + intros x [<-|Hx]; auto.
    + intros x [<-|Hx].
      * now apply t_step.
      * eapply t_trans; [apply t_step; exact Hwh | now apply Hreach].
Qed.

Lemma cycle_from_predecessors (R : Z -> Z -> Prop) (U : list Z) h :
  In h U -> (forall u, In u U -> exists w, In w U /\ R w u) ->
  exists v, clos_trans Z R v v.
Proof.
  intros Hh Hpred.
  apply (chase_predecessors R U Hpred (S (length U)) [] h).
  - simpl. lia.
  - constructor; [intros [] | constructor].
  - intros x [<-|[]]; auto.
  - intros x [].
Qed.

(** ** The result of the elimination *)

Section KahnResult.
Variables (g g' : Graph) (order U : list Z).
Hypothesis Hwf : wfb g = true.
Hypothesis Hinv : kahn_inv g g' order [] [] U.

Lemma kahn_order_NoDup : NoDup order.
Proof. pose proof (ki_nodup Hinv) as H. now rewrite app_nil_r in H. Qed.

Lemma kahn_order_vertices v : In v order -> In v (vertices g).
Proof. intros H. apply (ki_incl Hinv). rewrite app_nil_r. exact H. Qed.

Lemma kahn_order_length : (length order <= _nvertex g)%nat.
Proof. pose proof (kahn_inv_length _ _ _ _ _ _ Hinv). simpl in *. lia. Qed.

Lemma kahn_all_popped :
  length order = _nvertex g -> forall v, In v (vertices g) -> In v order.
Proof.
  intros Hlen. apply NoDup_length_incl.
  - apply kahn_order_NoDup.
  - rewrite vertices_length. lia.
  - intros v. apply kahn_order_vertices.
Qed.

Lemma kahn_all_popped_acyclic :
  length order = _nvertex g -> ~ has_directed_cycle g.
Proof.
  intros Hlen. apply (topo_acyclic g order).
  - apply (ki_topo Hinv).
  - apply kahn_order_NoDup.
  - now apply kahn_all_popped.
Qed.

Lemma kahn_all_popped_topological :
  length order = _nvertex g ->
  forall u v, edge g u v -> appears_before order u v.
Proof.
  intros Hlen u v He. apply (topo_appears_before g); auto.
  - apply (ki_topo Hinv).
  - apply kahn_all_popped; auto. destruct He as [Hu Hv].
    exact (wfb_targets g Hwf u v Hu Hv).
Qed.

Lemma kahn_left_over_cycle :
  (length order < _nvertex g)%nat -> has_directed_cycle g.
Proof.
  intros Hlen.
  assert (forall u, In u U -> In u (vertices g)) as HUv
      by (intros u Hu; apply (ki_U Hinv); now right).
  assert (exists h, In h U) as [h Hh].
  { destruct U as [|h U'] eqn:EU; [|exists h; now left]. exfalso.
    assert (incl (vertices g) order) as Hincl.
    { intros x Hx. apply (ki_U Hinv) in Hx as [?|[]]; auto. }
    apply NoDup_incl_length in Hincl; [|apply vertices_NoDup].
    rewrite vertices_length in Hincl. lia. }
  apply (cycle_from_predecessors (edge g) U h Hh).
  intros u Hu. pose proof (HUv u Hu) as Huv.
  assert (indegree_of g' u <> 0) as Hnz.
  { intros Hz. apply (ki_zero Hinv u Huv) in Hz. rewrite app_nil_r in Hz.
    exact (ki_disj Hinv u Hz Hu). }
  rewrite (ki_indeg Hinv u Huv) in Hnz. unfold inflow in Hnz. simpl in Hnz.
  assert (In u (flat_map (succs g) U)) as Hin.
  { apply (count_occ_In Z.eq_dec). lia. }
  apply in_flat_map in Hin as (w & Hw & Hwu).
  exists w. split; auto. split; auto.
Qed.
End KahnResult.

(** What [has_cycle] computes on a directed graph. *)
Lemma has_cycle_directed fuel g order g' :
  _directed g = true ->
  kahn fuel (with_visit g 0 0) = Some (length order, order, g') ->
  (length order <= _nvertex g)%nat ->
  value_of (has_cycle fuel g) = Some (negb (length order =? _nvertex g)%nat) /\
  ((0 < _nvertex g)%nat ->
   outcome (has_cycle fuel g) = Some (negb (length order =? _nvertex g)%nat, g')).
Proof.
  intros Hdir Hk Hlen.
  destruct (Nat.ltb_spec 0 (_nvertex g)) as [Hn|Hn].
  - rewrite (has_cycle_unvisit fuel g Hn). unfold value_of, outcome. cbn [snd].
    unfold detect_cycle. cbn [_directed with_visit]. rewrite Hdir. cbn [negb].
    unfold lift, detect_directed_cycle. cbn [snd]. rewrite Hk. cbn [obind fst].
    destruct (kahn_frame _ _ _ _ Hk) as (_ & _ & _ & _ & -> & _). cbn [_nvertex with_visit].
    split; auto.
  - split; [|lia]. unfold has_cycle. destruct (Nat.ltb_spec 0 (_nvertex g)); [lia|].
    unfold value_of; simpl. replace (length order) with 0%nat by lia.
    replace (_nvertex g) with 0%nat by lia. reflexivity.
Qed.

(** Clearing the visitation bits changes nothing of the graph proper. *)
Lemma has_directed_cycle_with_visit g d p :
  has_directed_cycle (with_visit g d p) <-> has_directed_cycle g.
Proof. reflexivity. Qed.

(** The elimination that [has_cycle] runs on a directed graph in the
    state [add_edge] leaves. *)
Lemma has_cycle_kahn g fuel :
  wfb g = true -> indegrees_match g = true -> _directed g = true ->
  (_nvertex g <= fuel)%nat ->
  exists order g' U,
    kahn fuel (with_visit g 0 0) = Some (length order, order, g') /\
    kahn_inv (with_visit g 0 0) g' order [] [] U /\
    (length order <= _nvertex g)%nat /\
    value_of (has_cycle fuel g) = Some (negb (length order =? _nvertex g)%nat).
Proof.
  intros Hwf Hm Hdir Hfuel.
  destruct (kahn_total (with_visit g 0 0) fuel Hwf Hm Hfuel) as (order & g' & U & Hk & Hinv).
  exists order, g', U. split; [exact Hk|]. split; [exact Hinv|].
  pose proof (kahn_order_length _ _ _ _ Hinv) as Hlen. cbn [_nvertex with_visit] in Hlen.
  split; [exact Hlen|].
  exact (proj1 (has_cycle_directed fuel g order g' Hdir Hk Hlen)).
Qed.

(** ** The graphs that [add_edge] builds are well formed

    The hypotheses of the two theorems above are what construction on
    zeroed storage followed by [read_graph] with endpoints in
    [1 .. nvertex] establishes. *)

Lemma wfb_intro g :
  Z.of_nat (_nvertex g) <= MAX_VERTEX -> storage_ok g ->
  (forall u t, In u (vertices g) -> In t (succs g u) -> In t (vertices g)) ->
  wfb g = true.
Proof.
  intros Hn [H1 H2] Ht. unfold wfb. rewrite !andb_true_iff. repeat split.
  - lia.
  - now apply Nat.eqb_eq.
  - now apply Nat.eqb_eq.
  - apply forallb_forall. intros u Hu. apply forallb_forall. intros t Htu.
    specialize (Ht u t Hu Htu). apply in_vertices in Ht.
    unfold in_range. apply andb_true_iff. lia.
Qed.

Lemma indegrees_match_intro g :
  (forall t, In t (vertices g) ->
     indegree_of g t = Z.of_nat (count_occ Z.eq_dec (edge_targets g) t)) ->
  Z.of_nat (length (edge_targets g)) < 2 ^ 31 ->
  indegrees_match g = true.
Proof.
  intros H Hlen. unfold indegrees_match. apply forallb_forall. intros t Ht.
  pose proof (count_occ_bound Z.eq_dec t (edge_targets g)).
  rewrite (H t Ht). apply andb_true_iff. split; lia.
Qed.

Lemma indegrees_match_elim g t :
  indegrees_match g = true -> In t (vertices g) ->
  indegree_of g t = Z.of_nat (count_occ Z.eq_dec (edge_targets g) t).
Proof.
  unfold indegrees_match. rewrite forallb_forall. intros H Ht.
  apply H, andb_true_iff in Ht as [Ht _]. lia.
Qed.

(** One more edge [x -> y]: its effect on the list of all targets. *)
Lemma flat_map_one_more (f f' : Z -> list Z) x y :
  (forall u, f' u = if u =? x then f u ++ [y] else f u) ->
  forall V, NoDup V ->
    (forall t, count_occ Z.eq_dec (flat_map f' V) t =
               (count_occ Z.eq_dec (flat_map f V) t
                + if in_dec Z.eq_dec x V then count_occ Z.eq_dec [y] t else 0)%nat) /\
    length (flat_map f' V)
    = (length (flat_map f V) + if in_dec Z.eq_dec x V then 1 else 0)%nat.
Proof.
  intros Hf. induction V as [|u V IH]; intros Hnd; [split; auto|].
  inversion Hnd as [|? ? Hu HV]; subst. destruct (IH HV) as [IHc IHl].
  cbn [flat_map]. split; [intros t|];
    rewrite ?count_occ_app, ?length_app, ?IHc, ?IHl, Hf;
    destruct (in_dec Z.eq_dec x (u :: V)) as [Hin|Hnin],
             (in_dec Z.eq_dec x V) as [Hin'|Hnin'],
             (Z.eqb_spec u x) as [->|Hne];
    rewrite ?count_occ_app, ?length_app; simpl length;
    try contradiction; try lia.
  - destruct Hin as [?|?]; [congruence | contradiction].
  - exfalso. apply Hnin. now right.
  - exfalso. apply Hnin. now left.
  - destruct Hin as [?|?]; [congruence | contradiction].
  - exfalso. apply Hnin. now right.
  - exfalso. apply Hnin. now left.
Qed.

Lemma add_edge_well_formed g x y w :
  wfb g = true -> indegrees_match g = true -> _directed g = true ->
  In x (vertices g) -> In y (vertices g) ->
  Z.of_nat (length (edge_targets g)) + 1 < 2 ^ 31 ->
  exists g',
    add_edge x y w g = Some g' /\
    wfb g' = true /\ indegrees_match g' = true /\ _directed g' = true /\
    _nvertex g' = _nvertex g /\
    length (edge_targets g') = S (length (edge_targets g)).
Proof.
  intros Hwf Hm Hdir Hx Hy Hlen.
  pose proof (wfb_storage g Hwf) as Hst. pose proof (wfb_nvertex g Hwf) as Hn.
  pose proof Hx as Hx'. pose proof Hy as Hy'. apply in_vertices in Hx', Hy'.
  destruct (add_edge_slots g x y w Hst) as
      (g' & E & Hnb & Hind & _ & Hst' & Hnv & Hdir' & _); [lia | lia |].
  assert (vertices g' = vertices g) as Hvs by (unfold vertices; now rewrite Hnv).
  assert (forall u, succs g' u = if u =? x then succs g u ++ [y] else succs g u) as Hsucc.
  { intros u. rewrite !succs_neighbors_of, Hnb.
    destruct (u =? x); [rewrite map_app|]; reflexivity. }
  destruct (flat_map_one_more (succs g) (succs g') x y Hsucc (vertices g)
              (vertices_NoDup g)) as [Hcount Hlength].
  destruct (in_dec Z.eq_dec x (vertices g)) as [_|Hnin]; [|contradiction].
  exists g'. split; [exact E|]. split; [|split; [|split; [|split]]].
  - apply wfb_intro; [rewrite Hnv; exact Hn | exact Hst' |].
    rewrite Hvs. intros u t Hu Ht. rewrite Hsucc in Ht.
    destruct (u =? x).
    + apply in_app_iff in Ht as [Ht|[<-|[]]]; auto.
      exact (wfb_targets g Hwf u t Hu Ht).
    + exact (wfb_targets g Hwf u t Hu Ht).
  - apply indegrees_match_intro.
    + unfold edge_targets. rewrite Hvs. intros t Ht. rewrite Hind, Hcount, Hdir. cbn [andb].
      pose proof (indegrees_match_elim g t Hm Ht) as Ht0. unfold edge_targets in Ht0.
      pose proof (count_occ_bound Z.eq_dec t (edge_targets g)) as Hb.
      unfold edge_targets in Hb, Hlen.
      destruct (Z.eqb_spec t y) as [->|Hne].
      * rewrite count_occ_cons_eq by reflexivity. rewrite to_int_small; simpl count_occ; lia.
      * rewrite count_occ_cons_neq by congruence. simpl count_occ. rewrite Ht0. f_equal. lia.
    + unfold edge_targets in *. rewrite Hvs, Hlength. lia.
  - congruence.
  - exact Hnv.
  - unfold edge_targets. rewrite Hvs, Hlength. lia.
Qed.

Lemma read_graph_well_formed ins : forall g,
  wfb g = true -> indegrees_match g = true -> _directed g = true ->
  Forall (fun p => In (fst p) (vertices g) /\ In (snd p) (vertices g)) ins ->
  Z.of_nat (length (edge_targets g)) + Z.of_nat (length ins) < 2 ^ 31 ->
  exists g',
    read_graph ins g = Some g' /\
    wfb g' = true /\ indegrees_match g' = true /\ _directed g' = true /\
    _nvertex g' = _nvertex g.
Proof.
  induction ins as [|[x y] ins IH]; intros g Hwf Hm Hdir Hall Hlen; cbn [read_graph].
  - eauto 6.
  - inversion Hall as [|? ? [Hx Hy] Hrest]; subst. cbn [fst snd] in *.
    cbn [length] in Hlen.
    destruct (add_edge_well_formed g x y 0 Hwf Hm Hdir Hx Hy)
      as (g1 & E & Hwf1 & Hm1 & Hdir1 & Hn1 & Hl1); [lia|].
    rewrite E. cbn [obind]. rewrite Hdir1. cbn [negb obind].
    destruct (IH g1 Hwf1 Hm1 Hdir1) as (g' & E' & ? & ? & ? & Hn').
    + unfold vertices in *. now rewrite Hn1.
    + rewrite Hl1. lia.
    + exists g'. repeat split; auto. congruence.
Qed.

Lemma flat_map_nil {A B} (f : A -> list B) l :
  (forall a, f a = []) -> flat_map f l = [].
Proof. intros H. induction l; simpl; auto. now rewrite H, IHl. Qed.

Lemma Graph_ctor_zero_well_formed n directed :
  Z.of_nat n <= MAX_VERTEX ->
  exists g,
    Graph_ctor zeroV zeroP n directed = Some g /\
    wfb g = true /\ indegrees_match g = true /\
    _directed g = directed /\ _nvertex g = n /\ edge_targets g = [].
Proof.
  intros Hn. rewrite Graph_ctor_eq. eexists. split; [reflexivity|].
  set (g := mkGraph _ _ _ _ _ _).
  assert (forall u, succs g u = []) as Hs.
  { intros u. unfold succs, vertex_at, slot, g. cbn [_vertex buf].
    destruct (u <? 0); auto. rewrite nth_error_map.
    destruct (nth_error _ _); reflexivity. }
  assert (forall u, indegree_of g u = 0) as Hi.
  { intros u. unfold indegree_of, vertex_at, slot, g. cbn [_vertex buf].
    destruct (u <? 0); auto. rewrite nth_error_map.
    destruct (nth_error _ _); reflexivity. }
  assert (edge_targets g = []) as Ht by (apply flat_map_nil, Hs).
  split; [|split; [|repeat split; auto]].
  - apply wfb_intro; auto.
    + split; unfold g; cbn [_vertex _parent buf _nvertex];
        rewrite length_map, length_seq; lia.
    + intros u t _ Hin. rewrite Hs in Hin. contradiction.
  - apply indegrees_match_intro; [|rewrite Ht; simpl; lia].
    intros t _. now rewrite Hi, Ht.
Qed.

(** A directed graph built on zeroed storage from pairs of vertices
    satisfies the hypotheses of the theorems on [has_cycle]. *)
Lemma build_directed_well_formed n ins :
  Z.of_nat n <= MAX_VERTEX ->
  Forall (fun p => 1 <= fst p <= Z.of_nat n /\ 1 <= snd p <= Z.of_nat n) ins ->
  Z.of_nat (length ins) < 2 ^ 31 ->
  exists g,
    build n true ins = Some g /\
    wfb g = true /\ indegrees_match g = true /\ _directed g = true /\
    _nvertex g = n.
Proof.
  intros Hn Hall Hlen. unfold build.
  destruct (Graph_ctor_zero_well_formed n true Hn)
    as (g0 & E & Hwf & Hm & Hdir & Hnv & Ht).
  rewrite E. cbn [obind].
  destruct (read_graph_well_formed ins g0 Hwf Hm Hdir) as (g & Eg & ? & ? & ? & Hn').
  - eapply Forall_impl; [|exact Hall]. intros [x y] [Hx Hy]. cbn [fst snd] in *.
    split; apply in_vertices; rewrite Hnv; assumption.
  - rewrite Ht. simpl. lia.
  - exists g. repeat split; auto. congruence.
Qed.

(** C5. On a directed graph whose indegree counters are those that
    [add_edge] built, [has_cycle] returns; it returns true exactly when
    the elimination pops fewer than [nvertex] vertices, and exactly when
    the graph has a directed cycle.  Such are all directed graphs read
    into zeroed storage from pairs of vertices.  [has_cycle] returns
    false on scenario A and true on scenario B. *)
Theorem C5_has_cycle_iff_directed_cycle :
  (forall g fuel,
      wfb g = true -> indegrees_match g = true -> _directed g = true ->
      (_nvertex g <= fuel)%nat ->
      exists b order g',
        value_of (has_cycle fuel g) = Some b /\
        kahn fuel (with_visit g 0 0) = Some (length order, order, g') /\
        (b = true <-> (length order < _nvertex g)%nat) /\
        (b = true <-> has_directed_cycle g)) /\
  (forall n ins fuel,
      Z.of_nat n <= MAX_VERTEX ->
      Forall (fun p => 1 <= fst p <= Z.of_nat n /\ 1 <= snd p <= Z.of_nat n) ins ->
      Z.of_nat (length ins) < 2 ^ 31 -> (n <= fuel)%nat ->
      exists g b,
        build n true ins = Some g /\
        value_of (has_cycle fuel g) = Some b /\
        (b = true <-> has_directed_cycle g)) /\
  value_of (run scenario_A (has_cycle 3)) = Some false /\
  value_of (run scenario_B (has_cycle 3)) = Some true.
Proof.
  assert (forall g fuel,
      wfb g = true -> indegrees_match g = true -> _directed g = true ->
      (_nvertex g <= fuel)%nat ->
      exists b order g',
        value_of (has_cycle fuel g) = Some b /\
        kahn fuel (with_visit g 0 0) = Some (length order, order, g') /\
        (b = true <-> (length order < _nvertex g)%nat) /\
        (b = true <-> has_directed_cycle g)) as Hgen.
  { intros g fuel Hwf Hm Hdir Hfuel.
    destruct (has_cycle_kahn g fuel Hwf Hm Hdir Hfuel)
      as (order & g' & U & Hk & Hinv & Hlen & Hv).
    exists (negb (length order =? _nvertex g)%nat), order, g'.
    split; [exact Hv|]. split; [exact Hk|].
    assert (negb (length order =? _nvertex g)%nat = true
            <-> (length order < _nvertex g)%nat) as Hb.
    { rewrite negb_true_iff, Nat.eqb_neq. lia. }
    split; [exact Hb|]. rewrite Hb. split.
    - intros Hlt. apply has_directed_cycle_with_visit with (d := 0) (p := 0).
      apply (kahn_left_over_cycle _ _ _ _ Hinv). exact Hlt.
    - intros Hc. destruct (Nat.eq_dec (length order) (_nvertex g)) as [He|He]; [|lia].
      exfalso. apply (kahn_all_popped_acyclic _ _ _ _ Hinv); auto. }
  split; [exact Hgen|]. split; [|by_run].
  intros n ins fuel Hn Hall Hlen Hfuel.
  destruct (build_directed_well_formed n ins Hn Hall Hlen)
    as (g & E & Hwf & Hm & Hdir & Hnv).
  rewrite <- Hnv in Hfuel.
  destruct (Hgen g fuel Hwf Hm Hdir Hfuel) as (b & order & g' & Hv & _ & _ & Hc).
  exists g, b. auto.
Qed.

Lemma C5_has_cycle_iff_directed_cycle_witness :
  (exists b order g',
      value_of (has_cycle 3 (the scenario_B)) = Some b /\
      kahn 3 (with_visit (the scenario_B) 0 0) = Some (length order, order, g') /\
      (b = true <-> (length order < _nvertex (the scenario_B))%nat) /\
      (b = true <-> has_directed_cycle (the scenario_B))) /\
  (exists g b,
      build 3 true [(1, 2); (2, 3); (3, 1)] = Some g /\
      value_of (has_cycle 3 g) = Some b /\
      (b = true <-> has_directed_cycle g)).
Proof.
  split.
  - apply (proj1 C5_has_cycle_iff_directed_cycle (the scenario_B) 3%nat).
    + reflexivity.
    + reflexivity.
    + reflexivity.
    + vm_compute; lia.
  - apply (proj1 (proj2 C5_has_cycle_iff_directed_cycle) 3%nat [(1, 2); (2, 3); (3, 1)] 3%nat).
    + vm_compute; discriminate.
    + repeat constructor; simpl; lia.
    + vm_compute; reflexivity.
    + lia.
Defined.

(** On a directed graph whose indegree counters are those [add_edge]
    built, as for the first [has_cycle] on a graph that was read,
    [has_cycle] answers false exactly when the graph has no directed
    cycle; the vertices in the order in which the elimination popped
    them are then all the vertices, each once, and every edge [(u, v)]
    has [u] before [v] in that order. *)
Theorem first_call_pop_order_topological g fuel :
  wfb g = true -> indegrees_match g = true -> _directed g = true ->
  (_nvertex g <= fuel)%nat ->
  exists order g',
    kahn fuel (with_visit g 0 0) = Some (length order, order, g') /\
    value_of (has_cycle fuel g) = Some (negb (length order =? _nvertex g)%nat) /\
    (value_of (has_cycle fuel g) = Some false <-> ~ has_directed_cycle g) /\
    (~ has_directed_cycle g ->
     NoDup order /\ (forall v, In v order <-> In v (vertices g)) /\
     forall u v, edge g u v -> appears_before order u v).
Proof.
  intros Hwf Hm Hdir Hfuel.
  destruct (has_cycle_kahn g fuel Hwf Hm Hdir Hfuel)
    as (order & g' & U & Hk & Hinv & Hlen & Hv).
  assert (~ has_directed_cycle g -> length order = _nvertex g) as Hall.
  { intros Hno. destruct (Nat.eq_dec (length order) (_nvertex g)) as [E|Hne]; [exact E|].
    exfalso. apply Hno. apply has_directed_cycle_with_visit with (d := 0) (p := 0).
    apply (kahn_left_over_cycle _ _ _ _ Hinv).
    change (_nvertex (with_visit g 0 0)) with (_nvertex g). lia. }
  exists order, g'. split; [exact Hk|]. split; [exact Hv|]. split.
  - rewrite Hv. split.
    + intros Hf Hc. inversion Hf as [Hb]. apply negb_false_iff, Nat.eqb_eq in Hb.
      apply (kahn_all_popped_acyclic _ _ _ _ Hinv); auto.
    + intros Hno. rewrite (Hall Hno), Nat.eqb_refl. reflexivity.
  - intros Hno. pose proof (Hall Hno) as Hb.
    split; [apply (kahn_order_NoDup _ _ _ _ Hinv)|]. split.
    + intros v. split.
      * apply (kahn_order_vertices _ _ _ _ Hinv).
      * apply (kahn_all_popped _ _ _ _ Hinv). exact Hb.
    + intros u v He.
      apply (kahn_all_popped_topological (with_visit g 0 0) g' order U Hwf Hinv Hb).
      exact He.
Qed.

Lemma first_call_pop_order_topological_witness :
  exists order g',
    kahn 3 (with_visit (the scenario_A) 0 0) = Some (length order, order, g') /\
    NoDup order /\ (forall v, In v order <-> In v (vertices (the scenario_A))) /\
    forall u v, edge (the scenario_A) u v -> appears_before order u v.
Proof.
  destruct (first_call_pop_order_topological (the scenario_A) 3%nat)
    as (order & g' & Hk & _ & Hiff & Htopo).
  - reflexivity.
  - reflexivity.
  - reflexivity.
  - vm_compute; lia.
  - exists order, g'. split; [exact Hk|]. apply Htopo. apply Hiff.
    vm_compute. reflexivity.
Defined.

(** C7 (what the code does instead). On scenario A the first
    [has_cycle] pops 1, 2, 3 and answers false, leaving every indegree
    counter at 0 in the graph itself.  The second [has_cycle], on the
    graph the first one left, answers false again, but it pops 3, 2, 1:
    the edge 1->2 is still there, and 1 does not come before 2. *)
Theorem C7_second_call_order_not_topological :
  exists g g1 g2,
    scenario_A = Some g /\
    kahn 3 (with_visit g 0 0) = Some (3%nat, [1; 2; 3], g1) /\
    outcome (has_cycle 3 g) = Some (false, g1) /\
    kahn 3 (with_visit g1 0 0) = Some (3%nat, [3; 2; 1], g2) /\
    outcome (has_cycle 3 g1) = Some (false, g2) /\
    map neighbors (buf (_vertex g1)) = map neighbors (buf (_vertex g)) /\
    wfb g1 = true /\ indegrees_match g = true /\ indegrees_match g1 = false /\
    edge g1 1 2 /\ ~ appears_before [3; 2; 1] 1 2.
Proof.
  pose (g := the scenario_A).
  pose (g1 := the (state_of (has_cycle 3 g))).
  exists g, g1, (the (state_of (has_cycle 3 g1))).
  split; [reflexivity|]. split; [vm_compute; reflexivity|].
  split; [vm_compute; reflexivity|]. split; [vm_compute; reflexivity|].
  split; [vm_compute; reflexivity|]. split; [vm_compute; reflexivity|].
  split; [vm_compute; reflexivity|]. split; [vm_compute; reflexivity|].
  split; [vm_compute; reflexivity|]. split.
  - split; vm_compute; auto.
  - intros (a & b & c & E).
    destruct a as [|x a]; [discriminate E|].
    destruct a as [|y a]; [discriminate E|].
    destruct a as [|z a].
    + destruct b; discriminate E.
    + destruct a; discriminate E.
Qed.

(** ** bfs prints its start vertex whatever the visitation state *)

Lemma printed_app l1 l2 : printed (l1 ++ l2) = printed l1 ++ printed l2.
Proof.
  induction l1 as [|[t|d p] l1 IH]; simpl; auto. now rewrite IH.
Qed.

Lemma bind_returned {A B} (m : M A) (f : A -> M B) g l1 a g1 :
  m g = (l1, Some (a, g1)) ->
  bind m f g = (l1 ++ log_of (f a g1), outcome (f a g1)).
Proof.
  intros H. unfold bind. rewrite H. destruct (f a g1); reflexivity.
Qed.

Lemma bind_log_prefix {A B} (m : M A) (f : A -> M B) g :
  exists l2, log_of (bind m f g) = log_of (m g) ++ l2.
Proof.
  unfold bind, log_of. destruct (m g) as [l1 [[a g1]|]]; simpl.
  - destruct (f a g1) as [l2 r]. exists l2. reflexivity.
  - exists []. now rewrite app_nil_r.
Qed.

Lemma bit_ok_vertex g v : wfb g = true -> In v (vertices g) -> bit_ok v = true.
Proof.
  intros Hwf Hv. apply in_vertices in Hv. pose proof (wfb_nvertex g Hwf).
  unfold bit_ok. apply andb_true_iff. split; lia.
Qed.

Lemma bfs_scan_returns es : forall q g,
  (forall e, In e es -> bit_ok (to e) = true) ->
  exists l q1 g1,
    bfs_scan es q g = (l, Some (q1, g1)) /\ printed l = [] /\
    _vertex g1 = _vertex g.
Proof.
  induction es as [|e es IH]; intros q g Hes; cbn [bfs_scan].
  - exists [], q, g. auto.
  - assert (bit_ok (to e) = true) as Hb by (apply Hes; now left).
    assert (forall e', In e' es -> bit_ok (to e') = true) as Hes'
        by (intros e' He'; apply Hes; now right).
    rewrite (bind_returned _ _ g [] (Z.testbit (_discovered g) (to e)) g)
      by (unfold get_discovered; now rewrite Hb).
    destruct (negb (Z.testbit (_discovered g) (to e))).
    + set (g1 := with_visit g (Z.setbit (_discovered g) (to e)) (_processed g)).
      rewrite (bind_returned _ _ g [Snapshot (_discovered g1) (_processed g1)] tt g1)
        by (unfold set_discovered, write_visit; now rewrite Hb).
      destruct (IH (q ++ [to e]) g1 Hes') as (l & q1 & g2 & E & Hp & Hv).
      rewrite E. exists ([] ++ [Snapshot (_discovered g1) (_processed g1)] ++ l), q1, g2.
      repeat split; auto.
    + destruct (IH q g Hes') as (l & q1 & g2 & E & Hp & Hv).
      rewrite E. exists ([] ++ l), q1, g2. repeat split; auto.
Qed.

Lemma do_bfs_prints_start g fuel start :
  wfb g = true -> In start (vertices g) ->
  exists rest, printed (log_of (do_bfs (S fuel) start g)) = Tvertex start :: rest.
Proof.
  intros Hwf Hs. pose proof (bit_ok_vertex g start Hwf Hs) as Hb.
  unfold do_bfs.
  set (g1 := with_visit g (Z.setbit (_discovered g) start) (_processed g)).
  rewrite (bind_returned _ _ g [Snapshot (_discovered g1) (_processed g1)] tt g1)
    by (unfold set_discovered, write_visit; now rewrite Hb).
  cbn [bfs_loop].
  destruct (wfb_vertex_at g Hwf start Hs) as [vx Evx].
  rewrite (bind_returned _ _ g1 [] vx g1)
    by (unfold get_vertex, lift; change (vertex_at g1 start) with (vertex_at g start);
        now rewrite Evx).
  destruct (bfs_scan_returns (neighbors vx) [start] g1) as (l & q1 & g2 & E & Hp & Hv).
  { intros e He. apply (bit_ok_vertex g _ Hwf).
    apply (wfb_targets g Hwf start); auto.
    unfold succs. rewrite Evx. now apply in_map. }
  rewrite (bind_returned _ _ g1 l q1 g2 E).
  set (g3 := with_visit g2 (_discovered g2) (Z.setbit (_processed g2) start)).
  rewrite (bind_returned _ _ g2 [Snapshot (_discovered g3) (_processed g3)] tt g3)
    by (unfold set_processed, write_visit; now rewrite Hb).
  rewrite (bind_returned _ _ g3 [Cout (Tvertex start)] tt g3) by reflexivity.
  unfold log_of, outcome. cbn [fst snd].
  rewrite !printed_app, Hp. simpl. eauto.
Qed.

Lemma bfs_prints_start g fuel start :
  wfb g = true -> In start (vertices g) ->
  exists rest, printed (log_of (bfs (S fuel) start g)) = Tvertex start :: rest.
Proof.
  intros Hwf Hs. pose proof Hs as Hr. apply in_vertices in Hr.
  pose proof (wfb_nvertex g Hwf) as Hn. unfold MAX_VERTEX in Hn.
  unfold bfs.
  assert ((0 <? start) && (to_size_t start <=? Z.of_nat (_nvertex g)) = true) as ->.
  { unfold to_size_t. rewrite Z.mod_small by lia. apply andb_true_iff. split; lia. }
  destruct (bind_log_prefix (do_bfs (S fuel) start)
              (fun _ => for_vertices (fun i =>
                 p <- get_processed i ;;
                 if negb p then do_bfs (S fuel) (to_int i) else ret tt)) g) as [l2 ->].
  destruct (do_bfs_prints_start g fuel start Hwf Hs) as [rest Hp].
  rewrite printed_app, Hp. simpl. eauto.
Qed.

(** C4 (what the code does instead). [bfs(start)] calls [do_bfs(start)]
    without looking at the visitation bits, and [do_bfs] prints its start
    vertex: on every well-formed graph, in every visitation state, and so
    also right after a first [bfs(start)], [bfs(start)] prints [start]
    first.  On scenario C the second [bfs(1)] leaves the bits as they are
    and prints vertex 1; [dfs(1)] after [dfs(1)] prints nothing and
    changes nothing. *)
Theorem C4_second_bfs_prints_start :
  (forall g fuel start,
      wfb g = true -> In start (vertices g) ->
      exists rest, printed (log_of (bfs (S fuel) start g)) = Tvertex start :: rest) /\
  (exists g g1 g2,
      scenario_C = Some g /\
      outcome (bfs 5 1 g) = Some (tt, g1) /\
      printed (log_of (bfs 5 1 g)) = [Tvertex 1; Tvertex 2; Tvertex 3; Tvertex 4] /\
      printed (log_of (bfs 5 1 g1)) = [Tvertex 1] /\
      outcome (bfs 5 1 g1) = Some (tt, g1) /\
      outcome (dfs 5 1 g) = Some (tt, g2) /\
      dfs 5 1 g2 = ([], Some (tt, g2))).
Proof.
  split; [exact bfs_prints_start|].
  pose (g := the scenario_C).
  exists g, (the (state_of (bfs 5 1 g))), (the (state_of (dfs 5 1 g))).
  by_run.
Qed.

Lemma C4_second_bfs_prints_start_witness :
  exists rest,
    printed (log_of (bfs 5 1 (the (state_of (bfs 5 1 (the scenario_C))))))
    = Tvertex 1 :: rest.
Proof.
  apply (proj1 C4_second_bfs_prints_start
               (the (state_of (bfs 5 1 (the scenario_C)))) 4%nat 1).
  - reflexivity.
  - vm_compute; auto.
Defined.

(** * Further properties *)

(** ** Runs that return *)

Lemma runs_ret {A} (a : A) g : runs (ret a) g [] a g.
Proof. reflexivity. Qed.

Lemma runs_bind {A B} (m : M A) (f : A -> M B) g l1 a g1 l2 b g2 :
  runs m g l1 a g1 -> runs (f a) g1 l2 b g2 -> runs (bind m f) g (l1 ++ l2) b g2.
Proof. unfold runs, bind. intros -> ->. reflexivity. Qed.

Lemma runs_get_discovered g i :
  bit_ok i = true -> runs (get_discovered i) g [] (Z.testbit (_discovered g) i) g.
Proof. intros H. unfold runs, get_discovered. now rewrite H. Qed.

Lemma runs_get_processed g i :
  bit_ok i = true -> runs (get_processed i) g [] (Z.testbit (_processed g) i) g.
Proof. intros H. unfold runs, get_processed. now rewrite H. Qed.

Lemma runs_set_discovered g i :
  bit_ok i = true ->
  runs (set_discovered i) g
       [Snapshot (Z.setbit (_discovered g) i) (_processed g)] tt
       (with_visit g (Z.setbit (_discovered g) i) (_processed g)).
Proof. intros H. unfold runs, set_discovered. now rewrite H. Qed.

Lemma runs_set_processed g i :
  bit_ok i = true ->
  runs (set_processed i) g
       [Snapshot (_discovered g) (Z.setbit (_processed g) i)] tt
       (with_visit g (_discovered g) (Z.setbit (_processed g) i)).
Proof. intros H. unfold runs, set_processed. now rewrite H. Qed.

Lemma runs_get_vertex g i vx :
  vertex_at g i = Some vx -> runs (get_vertex i) g [] vx g.
Proof. intros H. unfold runs, get_vertex, lift. now rewrite H. Qed.

Lemma runs_cout g t : runs (cout t) g [Cout t] tt g.
Proof. reflexivity. Qed.

Lemma with_visit_eta g : g = with_visit g (_discovered g) (_processed g).
Proof. destruct g; reflexivity. Qed.

(** ** Sets of bits *)

Lemma testbit_setbit d v x :
  0 <= v -> (Z.testbit (Z.setbit d v) x = true <-> Z.testbit d x = true \/ x = v).
Proof.
  intros Hv. rewrite Z.setbit_iff by exact Hv. intuition auto.
Qed.

Lemma grown_nil b : grown [] b b.
Proof. intros x. simpl. tauto. Qed.

Lemma grown_setbit b v : 0 <= v -> grown [v] b (Z.setbit b v).
Proof.
  intros Hv x. rewrite testbit_setbit by exact Hv. simpl. intuition auto.
Qed.

Lemma grown_trans {n1 n2 b b1 b2} :
  grown n1 b b1 -> grown n2 b1 b2 -> grown (n1 ++ n2) b b2.
Proof.
  intros H1 H2 x. rewrite (H2 x), (H1 x), in_app_iff. tauto.
Qed.

Lemma grown_mono {new b b' x} :
  grown new b b' -> Z.testbit b x = true -> Z.testbit b' x = true.
Proof. intros H Hx. apply H. now left. Qed.

Lemma grown_In {new b b' x} : grown new b b' -> In x new -> Z.testbit b' x = true.
Proof. intros H Hx. apply H. now right. Qed.

Lemma grown_eq b b' : grown [] b b' -> b' = b.
Proof.
  intros H. apply Z.bits_inj'. intros n _.
  destruct (Z.testbit b n) eqn:E.
  - apply H. now left.
  - destruct (Z.testbit b' n) eqn:E'; auto.
    apply H in E' as [E'|[]]. congruence.
Qed.

Lemma closed_mono g l d d' :
  (forall x, Z.testbit d x = true -> Z.testbit d' x = true) ->
  closed g l d -> closed g l d'.
Proof. intros Hm Hc x Hx y Hy. apply Hm. exact (Hc x Hx y Hy). Qed.

Lemma closed_app g l1 l2 d : closed g l1 d -> closed g l2 d -> closed g (l1 ++ l2) d.
Proof.
  intros H1 H2 x Hx. apply in_app_iff in Hx as [Hx|Hx]; [exact (H1 x Hx) | exact (H2 x Hx)].
Qed.

Lemma fresh_nil g d : fresh g [] d.
Proof. split; [constructor | intros x []]. Qed.

Lemma fresh_app {g n1 n2 d d1} :
  fresh g n1 d -> grown n1 d d1 -> fresh g n2 d1 -> fresh g (n1 ++ n2) d.
Proof.
  intros [Hnd1 H1] Hg [Hnd2 H2]. split.
  - apply NoDup_app; auto. intros x Hx1 Hx2.
    destruct (H2 x Hx2) as [_ Hf]. rewrite (grown_In Hg Hx1) in Hf. discriminate.
  - intros x Hx. apply in_app_iff in Hx as [Hx|Hx]; auto.
    destruct (H2 x Hx) as [Hv Hf]. split; auto.
    destruct (Z.testbit d x) eqn:E; auto.
    rewrite (grown_mono Hg E) in Hf. discriminate.
Qed.

(** ** The measure: vertices not yet discovered *)

Lemma filter_length_mono {A} (f f' : A -> bool) l :
  (forall x, In x l -> f' x = true -> f x = true) ->
  (length (filter f' l) <= length (filter f l))%nat.
Proof.
  induction l as [|a l IH]; intros H; simpl; auto.
  assert (length (filter f' l) <= length (filter f l))%nat as IH'
      by (apply IH; intros x Hx; apply H; now right).
  destruct (f' a) eqn:E'.
  - rewrite (H a (or_introl eq_refl) E'). simpl. lia.
  - destruct (f a); simpl; lia.
Qed.

Lemma filter_length_drop {A} (f f' : A -> bool) l v :
  (forall x, In x l -> f' x = true -> f x = true) ->
  In v l -> f v = true -> f' v = false ->
  (length (filter f' l) < length (filter f l))%nat.
Proof.
  induction l as [|a l IH]; intros H Hv Hf Hf'; [contradiction|]. simpl.
  assert (forall x, In x l -> f' x = true -> f x = true) as H'
      by (intros x Hx; apply H; now right).
  pose proof (filter_length_mono f f' l H') as Hle.
  destruct Hv as [->|Hv].
  - rewrite Hf, Hf'. simpl. lia.
  - specialize (IH H' Hv Hf Hf'). destruct (f' a) eqn:E'.
    + rewrite (H a (or_introl eq_refl) E'). simpl. lia.
    + destruct (f a); simpl; lia.
Qed.

Lemma undiscovered_le g d d' :
  (forall x, Z.testbit d x = true -> Z.testbit d' x = true) ->
  (length (undiscovered g d') <= length (undiscovered g d))%nat.
Proof.
  intros H. apply filter_length_mono. intros x _ Hx.
  apply negb_true_iff in Hx. apply negb_true_iff.
  destruct (Z.testbit d x) eqn:E; auto. rewrite (H x E) in Hx. discriminate.
Qed.

Lemma undiscovered_lt g d d' v :
  (forall x, Z.testbit d x = true -> Z.testbit d' x = true) ->
  In v (vertices g) -> Z.testbit d v = false -> Z.testbit d' v = true ->
  (length (undiscovered g d') < length (undiscovered g d))%nat.
Proof.
  intros H Hv Hd Hd'. apply filter_length_drop with (v := v); auto.
  - intros x _ Hx. apply negb_true_iff in Hx. apply negb_true_iff.
    destruct (Z.testbit d x) eqn:E; auto. rewrite (H x E) in Hx. discriminate.
  - now rewrite Hd.
  - now rewrite Hd'.
Qed.

Lemma undiscovered_bound g d : (length (undiscovered g d) <= _nvertex g)%nat.
Proof.
  unfold undiscovered. rewrite <- (vertices_length g).
  induction (vertices g) as [|a l IH]; simpl; auto.
  destruct (negb (Z.testbit d a)); simpl; lia.
Qed.

(** ** Depth-first search *)

Lemma grown_equiv {n n' b b'} :
  (forall x, In x n <-> In x n') -> grown n b b' -> grown n' b b'.
Proof. intros He H x. rewrite (H x), (He x). tauto. Qed.

Lemma dfs_result_nil g roots d p :
  (forall r, In r roots -> Z.testbit d r = true) ->
  dfs_result g roots d p d p [] [].
Proof.
  intros H. unfold dfs_result.
  split; [reflexivity|]. split; [apply fresh_nil|].
  split; [apply grown_nil|]. split; [apply grown_nil|].
  split; [exact H|]. split; intros x [].
Qed.

Lemma dfs_result_seq {g r1 r2 d p d1 p1 d2 p2 n1 n2 l1 l2} :
  dfs_result g r1 d p d1 p1 n1 l1 ->
  dfs_result g r2 d1 p1 d2 p2 n2 l2 ->
  dfs_result g (r1 ++ r2) d p d2 p2 (n1 ++ n2) (l1 ++ l2).
Proof.
  intros (P1 & F1 & D1 & Q1 & R1 & W1 & C1) (P2 & F2 & D2 & Q2 & R2 & W2 & C2).
  unfold dfs_result. split; [|split; [|split; [|split; [|split; [|split]]]]].
  - now rewrite printed_app, map_app, P1, P2.
  - exact (fresh_app F1 D1 F2).
  - exact (grown_trans D1 D2).
  - exact (grown_trans Q1 Q2).
  - intros r Hr. apply in_app_iff in Hr as [Hr|Hr]; auto.
    apply (grown_mono D2). auto.
  - intros x Hx. apply in_app_iff in Hx as [Hx|Hx].
    + destruct (W1 x Hx) as (r & Hr & Hreach). exists r. split; auto.
      apply in_app_iff. now left.
    + destruct (W2 x Hx) as (r & Hr & Hreach). exists r. split; auto.
      apply in_app_iff. now right.
  - apply closed_app; auto.
    eapply closed_mono; [|exact C1]. intros x. apply (grown_mono D2).
Qed.

Section DepthFirst.
Variable g0 : Graph.
Hypothesis Hwf : wfb g0 = true.

(** The loop of [do_dfs] over the edges, given what the recursive calls do. *)
Lemma dfs_children_runs f :
  (forall v d p,
      In v (vertices g0) -> (length (undiscovered g0 d) < f)%nat ->
      exists l d' p' new,
        runs (do_dfs f v) (with_visit g0 d p) l tt (with_visit g0 d' p') /\
        dfs_result g0 [v] d p d' p' new l) ->
  forall es d p,
    (forall e, In e es -> In (to e) (vertices g0)) ->
    (length (undiscovered g0 d) < f)%nat ->
    exists l d' p' new,
      runs (for_each es (fun e => do_dfs f (to e)))
           (with_visit g0 d p) l tt (with_visit g0 d' p') /\
      dfs_result g0 (map to es) d p d' p' new l.
Proof.
  intros Hrec. induction es as [|e es IH]; intros d p Hes Hfuel.
  - exists [], d, p, []. split; [apply runs_ret|].
    apply dfs_result_nil. intros r [].
  - destruct (Hrec (to e) d p) as (l1 & d1 & p1 & n1 & Hr1 & Hres1);
      [apply Hes; now left | exact Hfuel |].
    destruct (IH d1 p1) as (l2 & d2 & p2 & n2 & Hr2 & Hres2).
    { intros e' He'. apply Hes. now right. }
    { destruct Hres1 as (_ & _ & D1 & _).
      pose proof (undiscovered_le g0 d d1 (fun x => grown_mono D1)). lia. }
    exists (l1 ++ l2), d2, p2, (n1 ++ n2). split.
    + cbn [for_each]. eapply runs_bind; eauto.
    + exact (dfs_result_seq Hres1 Hres2).
Qed.

Lemma do_dfs_runs fuel : forall v d p,
  In v (vertices g0) -> (length (undiscovered g0 d) < fuel)%nat ->
  exists l d' p' new,
    runs (do_dfs fuel v) (with_visit g0 d p) l tt (with_visit g0 d' p') /\
    dfs_result g0 [v] d p d' p' new l /\
    (Z.testbit d v = false -> hd_error new = Some v).
Proof.
  induction fuel as [|f IH']; intros v d p Hv Hfuel; [lia|].
  assert (forall v d p,
             In v (vertices g0) -> (length (undiscovered g0 d) < f)%nat ->
             exists l d' p' new,
               runs (do_dfs f v) (with_visit g0 d p) l tt (with_visit g0 d' p') /\
               dfs_result g0 [v] d p d' p' new l) as IH.
  { intros v1 d1 p1 H1 H2.
    destruct (IH' v1 d1 p1 H1 H2) as (l & d' & p' & new & Hr & Hres & _). eauto 8. }
  clear IH'.
  pose proof (bit_ok_vertex g0 v Hwf Hv) as Hb.
  pose proof (bit_ok_nonneg v Hb) as Hv0.
  cbn [do_dfs]. destruct (Z.testbit d v) eqn:Ed.
  - exists [], d, p, []. split.
    + change [] with (@nil event ++ []).
      eapply runs_bind; [apply runs_get_discovered; exact Hb|].
      cbn [_discovered with_visit]. rewrite Ed. apply runs_ret.
    + split; [|congruence]. apply dfs_result_nil. intros r [<-|[]]. exact Ed.
  - destruct (wfb_vertex_at g0 Hwf v Hv) as [vx Evx].
    assert (map to (neighbors vx) = succs g0 v) as Esucc
        by (unfold succs; now rewrite Evx).
    destruct (dfs_children_runs f IH (neighbors vx) (Z.setbit d v) p)
      as (lc & dc & pc & nc & Hrc & Hresc).
    { intros e He. apply (wfb_targets g0 Hwf v); auto.
      rewrite <- Esucc. now apply in_map. }
    { assert (length (undiscovered g0 (Z.setbit d v)) < length (undiscovered g0 d))%nat.
      { apply undiscovered_lt with (v := v); auto.
        - intros x Hx. apply testbit_setbit; auto.
        - apply Z.setbit_eq. exact Hv0. }
      lia. }
    exists ([] ++ [Snapshot (Z.setbit d v) p] ++ [Cout (Tvertex v)] ++ [] ++ lc
               ++ [Snapshot dc (Z.setbit pc v)]),
           dc, (Z.setbit pc v), (v :: nc).
    split.
    + eapply runs_bind; [apply runs_get_discovered; exact Hb|].
      cbn [_discovered with_visit]. rewrite Ed. cbn [negb].
      eapply runs_bind; [apply runs_set_discovered; exact Hb|].
      eapply runs_bind; [apply runs_cout|].
      eapply runs_bind; [apply runs_get_vertex; exact Evx|].
      eapply runs_bind; [exact Hrc|].
      apply (runs_set_processed (with_visit g0 dc pc) v Hb).
    + split; [|reflexivity].
      destruct Hresc as (Pc & Fc & Dc & Qc & Rc & Wc & Cc).
      assert (grown [v] d (Z.setbit d v)) as Dv by (now apply grown_setbit).
      unfold dfs_result. split; [|split; [|split; [|split; [|split; [|split]]]]].
      * cbn [app printed]. rewrite printed_app, Pc. cbn [printed map].
        now rewrite app_nil_r.
      * apply (fresh_app (n1 := [v]) (n2 := nc) (d1 := Z.setbit d v)); auto.
        split; [repeat constructor; intros [] | intros x [<-|[]]; auto].
      * exact (grown_trans Dv Dc).
      * apply (grown_equiv (n := nc ++ [v])).
        -- intros x. rewrite in_app_iff. simpl. tauto.
        -- apply (grown_trans Qc). now apply grown_setbit.
      * intros r [<-|[]]. apply (grown_mono Dc). apply Z.setbit_eq. exact Hv0.
      * intros x [<-|Hx].
        -- exists v. split; [now left | apply rt_refl].
        -- destruct (Wc x Hx) as (r & Hr & Hreach). exists v. split; [now left|].
           eapply rt_trans; [|exact Hreach]. apply rt_step. split; auto.
           now rewrite <- Esucc.
      * intros x [<-|Hx].
        -- intros y Hy. apply Rc. now rewrite Esucc.
        -- exact (Cc x Hx).
Qed.
End DepthFirst.

Lemma visit_ok_grown {new d p d' p'} :
  visit_ok d p -> grown new d d' -> grown new p p' -> visit_ok d' p'.
Proof.
  intros H D Q x Hx. apply Q in Hx as [Hx|Hx].
  - apply (grown_mono D). auto.
  - exact (grown_In D Hx).
Qed.

Lemma to_int_vertex g v : wfb g = true -> In v (vertices g) -> to_int v = v.
Proof.
  intros Hwf Hv. apply in_vertices in Hv. pose proof (wfb_nvertex g Hwf) as Hn.
  unfold MAX_VERTEX in Hn. apply to_int_small. lia.
Qed.

Lemma dfs_result_roots {g r d p d' p' new l} r' :
  dfs_result g r d p d' p' new l ->
  incl r' r -> incl r r' ->
  dfs_result g r' d p d' p' new l.
Proof.
  intros (P & F & D & Q & R & W & C) H1 H2. unfold dfs_result.
  split; [exact P|]. split; [exact F|]. split; [exact D|]. split; [exact Q|].
  split; [|split; [|exact C]].
  - intros x Hx. apply R, H1, Hx.
  - intros x Hx. destruct (W x Hx) as (y & Hy & Hreach). exists y. auto.
Qed.

Lemma dfs_valid_start g0 v :
  - 2 ^ 31 <= v < 2 ^ 31 ->
  (to_size_t v <=? Z.of_nat (_nvertex g0)) && (0 <? v) = true <-> In v (vertices g0).
Proof.
  intros Hv. rewrite in_vertices, andb_true_iff, Z.leb_le, Z.ltb_lt. unfold to_size_t.
  destruct (Z.lt_ge_cases 0 v) as [Hpos|Hneg].
  - rewrite Z.mod_small by lia. lia.
  - lia.
Qed.

Section DepthFirstSweep.
Variable g0 : Graph.
Hypothesis Hwf : wfb g0 = true.
Variable fuel : nat.
Hypothesis Hfuel : (_nvertex g0 < fuel)%nat.

Lemma do_dfs_enough v d p :
  In v (vertices g0) ->
  exists l d' p' new,
    runs (do_dfs fuel v) (with_visit g0 d p) l tt (with_visit g0 d' p') /\
    dfs_result g0 [v] d p d' p' new l /\
    (Z.testbit d v = false -> hd_error new = Some v).
Proof.
  intros Hv. apply (do_dfs_runs g0 Hwf fuel v d p Hv).
  pose proof (undiscovered_bound g0 d). lia.
Qed.

(** The sweep of [dfs] (and of [bfs]) over the vertices [ids], with
    [do_dfs] for the walk. *)
Lemma dfs_sweep_runs : forall ids d p,
  incl ids (vertices g0) -> visit_ok d p ->
  exists l d' p' new,
    runs (for_each ids (fun i =>
            p <- get_processed i ;;
            if negb p then do_dfs fuel (to_int i) else ret tt))
         (with_visit g0 d p) l tt (with_visit g0 d' p') /\
    dfs_result g0 ids d p d' p' new l.
Proof.
  induction ids as [|i ids IH]; intros d p Hids Hok.
  - exists [], d, p, []. split; [apply runs_ret|].
    apply dfs_result_nil. intros r [].
  - assert (In i (vertices g0)) as Hi by (apply Hids; now left).
    assert (incl ids (vertices g0)) as Hids' by (intros x Hx; apply Hids; now right).
    pose proof (bit_ok_vertex g0 i Hwf Hi) as Hb.
    assert (exists l1 d1 p1 n1,
               runs (p0 <- get_processed i ;;
                     if negb p0 then do_dfs fuel (to_int i) else ret tt)
                    (with_visit g0 d p) l1 tt (with_visit g0 d1 p1) /\
               dfs_result g0 [i] d p d1 p1 n1 l1) as (l1 & d1 & p1 & n1 & Hr1 & Hres1).
    { destruct (Z.testbit p i) eqn:Ep.
      - exists ([] ++ []), d, p, []. split.
        + eapply runs_bind; [apply runs_get_processed; exact Hb|].
          cbn [_processed with_visit]. rewrite Ep. apply runs_ret.
        + apply dfs_result_nil. intros r [<-|[]]. now apply Hok.
      - destruct (do_dfs_enough i d p Hi) as (l1 & d1 & p1 & n1 & Hr1 & Hres1 & _).
        exists ([] ++ l1), d1, p1, n1. split; auto.
        eapply runs_bind; [apply runs_get_processed; exact Hb|].
        cbn [_processed with_visit]. rewrite Ep. cbn [negb].
        rewrite (to_int_vertex g0 i Hwf Hi). exact Hr1. }
    destruct (IH d1 p1 Hids') as (l2 & d2 & p2 & n2 & Hr2 & Hres2).
    { destruct Hres1 as (_ & _ & D1 & Q1 & _). exact (visit_ok_grown Hok D1 Q1). }
    exists (l1 ++ l2), d2, p2, (n1 ++ n2). split.
    + cbn [for_each]. eapply runs_bind; eauto.
    + exact (dfs_result_seq Hres1 Hres2).
Qed.

Lemma dfs_runs v d p :
  - 2 ^ 31 <= v < 2 ^ 31 -> visit_ok d p ->
  exists l d' p' new,
    runs (dfs fuel v) (with_visit g0 d p) l tt (with_visit g0 d' p') /\
    dfs_result g0 (vertices g0) d p d' p' new l /\
    (In v (vertices g0) -> Z.testbit d v = false -> hd_error new = Some v).
Proof.
  intros Hv Hok. unfold dfs, for_vertices. cbn [_nvertex with_visit].
  change (vertices (with_visit g0 d p)) with (vertices g0).
  assert (exists r1 l1 d1 p1 n1,
             runs (if (to_size_t v <=? Z.of_nat (_nvertex g0)) && (0 <? v)
                   then do_dfs fuel v else ret tt)
                  (with_visit g0 d p) l1 tt (with_visit g0 d1 p1) /\
             incl r1 (vertices g0) /\
             dfs_result g0 r1 d p d1 p1 n1 l1 /\
             (In v (vertices g0) -> Z.testbit d v = false -> hd_error n1 = Some v))
    as (r1 & l1 & d1 & p1 & n1 & Hr1 & Hincl1 & Hres1 & Hhd1).
  { destruct ((to_size_t v <=? Z.of_nat (_nvertex g0)) && (0 <? v)) eqn:Ec.
    - apply (dfs_valid_start g0 v Hv) in Ec.
      destruct (do_dfs_enough v d p Ec) as (l1 & d1 & p1 & n1 & Hr1 & Hres1 & Hhd).
      exists [v], l1, d1, p1, n1. split; [exact Hr1|]. split; [|split; auto].
      intros x [<-|[]]. exact Ec.
    - exists [], [], d, p, []. split; [apply runs_ret|]. split; [|split].
      + intros x [].
      + apply dfs_result_nil. intros r [].
      + intros Hin. apply (dfs_valid_start g0 v Hv) in Hin. congruence. }
  destruct (dfs_sweep_runs (vertices g0) d1 p1) as (l2 & d2 & p2 & n2 & Hr2 & Hres2).
  { apply incl_refl. }
  { destruct Hres1 as (_ & _ & D1 & Q1 & _). exact (visit_ok_grown Hok D1 Q1). }
  exists (l1 ++ l2), d2, p2, (n1 ++ n2). split; [|split].
  - eapply runs_bind; eauto.
  - apply (dfs_result_roots (vertices g0) (dfs_result_seq Hres1 Hres2)).
    + intros x Hx. apply in_app_iff. now right.
    + intros x Hx. apply in_app_iff in Hx as [Hx|Hx]; auto.
  - intros Hin Hd. specialize (Hhd1 Hin Hd).
    destruct n1; [discriminate | exact Hhd1].
Qed.
End DepthFirstSweep.

Section Components.
Variable g0 : Graph.
Hypothesis Hwf : wfb g0 = true.
Variable fuel : nat.
Hypothesis Hfuel : (_nvertex g0 < fuel)%nat.

(** Over vertices that are all discovered the loop of [find_components]
    prints nothing and changes nothing. *)
Lemma find_components_loop_idle : forall ids k d p,
  incl ids (vertices g0) -> (forall i, In i ids -> Z.testbit d i = true) ->
  runs (find_components_loop fuel ids k) (with_visit g0 d p) [] tt (with_visit g0 d p).
Proof.
  induction ids as [|i ids IH]; intros k d p Hids Hd; cbn [find_components_loop].
  - apply runs_ret.
  - change (@nil event) with (@nil event ++ []).
    eapply runs_bind.
    + apply runs_get_discovered. apply (bit_ok_vertex g0 i Hwf). apply Hids. now left.
    + cbn [_discovered with_visit]. rewrite (Hd i (or_introl eq_refl)). cbn [negb].
      apply IH; [intros x Hx; apply Hids; now right | intros x Hx; apply Hd; now right].
Qed.

Lemma find_components_loop_runs : forall ids k d p,
  incl ids (vertices g0) -> visit_ok d p ->
  exists l d' p' new,
    runs (find_components_loop fuel ids k) (with_visit g0 d p) l tt (with_visit g0 d' p') /\
    printed l = match new with
                | [] => []
                | _ :: _ => Tcomponent k :: map Tvertex new ++ [Tnewline]
                end /\
    fresh g0 new d /\ grown new d d' /\ grown new p p' /\
    hd_error new = hd_error (filter (fun x => negb (Z.testbit d x)) ids) /\
    (forall i, In i ids -> Z.testbit d' i = true) /\
    (new <> [] -> forall x, In x (vertices g0) -> Z.testbit d' x = true).
Proof.
  induction ids as [|i ids IH]; intros k d p Hids Hok.
  - exists [], d, p, []. split; [apply runs_ret|].
    split; [reflexivity|]. split; [apply fresh_nil|].
    split; [apply grown_nil|]. split; [apply grown_nil|].
    split; [reflexivity|]. split; [intros i []|]. intros H. now contradiction H.
  - assert (In i (vertices g0)) as Hi by (apply Hids; now left).
    assert (incl ids (vertices g0)) as Hids' by (intros x Hx; apply Hids; now right).
    pose proof (bit_ok_vertex g0 i Hwf Hi) as Hb.
    cbn [find_components_loop filter]. destruct (Z.testbit d i) eqn:Ed; cbn [negb].
    + destruct (IH k d p Hids' Hok) as (l & d' & p' & new & Hr & P & F & D & Q & Hh & R & A).
      exists ([] ++ l), d', p', new. split.
      * eapply runs_bind; [apply runs_get_discovered; exact Hb|].
        cbn [_discovered with_visit]. rewrite Ed. exact Hr.
      * split; [exact P|]. split; [exact F|]. split; [exact D|]. split; [exact Q|].
        split; [exact Hh|]. split; [|exact A].
        intros x [<-|Hx]; [apply (grown_mono D); exact Ed | auto].
    + assert (- 2 ^ 31 <= i < 2 ^ 31) as Hint.
      { apply in_vertices in Hi. pose proof (wfb_nvertex g0 Hwf) as Hn.
        unfold MAX_VERTEX in Hn. lia. }
      destruct (dfs_runs g0 Hwf fuel Hfuel i d p Hint Hok)
        as (l & d' & p' & new & Hr & (P & F & D & Q & R & W & C) & Hh).
      specialize (Hh Hi Ed).
      exists ([] ++ [Cout (Tcomponent k)] ++ l ++ [Cout Tnewline] ++ []), d', p', new.
      split.
      * eapply runs_bind; [apply runs_get_discovered; exact Hb|].
        cbn [_discovered with_visit]. rewrite Ed. cbn [negb].
        eapply runs_bind; [apply runs_cout|].
        rewrite (to_int_vertex g0 i Hwf Hi).
        eapply runs_bind; [exact Hr|].
        eapply runs_bind; [apply runs_cout|].
        apply find_components_loop_idle; auto.
      * split.
        { destruct new as [|x new']; [discriminate|].
          cbn [app printed]. rewrite !printed_app, P. cbn [printed app].
          reflexivity. }
        split; [exact F|]. split; [exact D|]. split; [exact Q|].
        split; [exact Hh|]. split; [auto|]. intros _. exact R.
Qed.
End Components.

(** ** What the public traversals print *)

Lemma undiscovered_NoDup g d : NoDup (undiscovered g d).
Proof. apply NoDup_filter, vertices_NoDup. Qed.

Lemma undiscovered_In g d x :
  In x (undiscovered g d) <-> In x (vertices g) /\ Z.testbit d x = false.
Proof.
  unfold undiscovered. rewrite filter_In, negb_true_iff. tauto.
Qed.

Lemma undiscovered_clear g : undiscovered g 0 = vertices g.
Proof.
  unfold undiscovered. apply forallb_filter_id, forallb_forall.
  intros x _. now rewrite Z.testbit_0_l.
Qed.

(** The new vertices of a walk that ends with all vertices discovered
    are the vertices that were not discovered. *)
Lemma fresh_all_undiscovered {g new d d'} :
  fresh g new d -> grown new d d' ->
  (forall x, In x (vertices g) -> Z.testbit d' x = true) ->
  Permutation new (undiscovered g d).
Proof.
  intros [Hnd Hf] D Hall. apply NoDup_Permutation; auto using undiscovered_NoDup.
  intros x. rewrite undiscovered_In. split; [apply Hf|].
  intros [Hx Hd]. pose proof (Hall x Hx) as H. apply D in H.
  destruct H as [H|H]; [congruence | exact H].
Qed.

(** [dfs(v)] on a well-formed graph in a state where processed implies
    discovered: it returns, prints exactly the vertices that were not
    discovered, each once ([v] first when it is one of them), leaves
    every vertex discovered, marks processed what it printed, and
    changes nothing but the two bitsets. *)
Theorem dfs_prints_undiscovered g fuel v :
  wfb g = true -> inv g -> - 2 ^ 31 <= v < 2 ^ 31 -> (_nvertex g < fuel)%nat ->
  exists l g' new,
    dfs fuel v g = (l, Some (tt, g')) /\
    g' = with_visit g (_discovered g') (_processed g') /\
    printed l = map Tvertex new /\
    Permutation new (undiscovered g (_discovered g)) /\
    (In v (vertices g) -> Z.testbit (_discovered g) v = false -> hd_error new = Some v) /\
    (forall x, In x (vertices g) -> Z.testbit (_discovered g') x = true) /\
    grown new (_discovered g) (_discovered g') /\
    grown new (_processed g) (_processed g') /\
    inv g'.
Proof.
  intros Hwf Hinv Hv Hfuel.
  destruct (dfs_runs g Hwf fuel Hfuel v (_discovered g) (_processed g) Hv Hinv)
    as (l & d' & p' & new & Hr & (P & F & D & Q & R & W & C) & Hh).
  rewrite <- (with_visit_eta g) in Hr.
  exists l, (with_visit g d' p'), new. cbn [_discovered _processed with_visit].
  split; [exact Hr|]. split; [reflexivity|]. split; [exact P|].
  split; [exact (fresh_all_undiscovered F D R)|].
  split; [exact Hh|]. split; [exact R|]. split; [exact D|]. split; [exact Q|].
  exact (visit_ok_grown Hinv D Q).
Qed.

Lemma dfs_prints_undiscovered_witness :
  exists l g' new,
    dfs 5 2 (the scenario_C) = (l, Some (tt, g')) /\
    g' = with_visit (the scenario_C) (_discovered g') (_processed g') /\
    printed l = map Tvertex new /\
    Permutation new (undiscovered (the scenario_C) (_discovered (the scenario_C))) /\
    (In 2 (vertices (the scenario_C)) ->
     Z.testbit (_discovered (the scenario_C)) 2 = false -> hd_error new = Some 2) /\
    (forall x, In x (vertices (the scenario_C)) -> Z.testbit (_discovered g') x = true) /\
    grown new (_discovered (the scenario_C)) (_discovered g') /\
    grown new (_processed (the scenario_C)) (_processed g') /\
    inv g'.
Proof.
  apply (dfs_prints_undiscovered (the scenario_C) 5 2).
  - reflexivity.
  - apply inv_unprocessed. reflexivity.
  - lia.
  - vm_compute; lia.
Defined.

Lemma fresh_none {g new d} :
  fresh g new d -> (forall x, In x (vertices g) -> Z.testbit d x = true) -> new = [].
Proof.
  intros [_ Hf] Hall. destruct new as [|x new]; auto.
  destruct (Hf x (or_introl eq_refl)) as [Hx Hd]. rewrite (Hall x Hx) in Hd. discriminate.
Qed.

(** After [dfs(v)], a further [dfs(w)] without [unvisit] prints nothing
    and returns the state it was given. *)
Theorem dfs_again_prints_nothing g fuel v w :
  wfb g = true -> inv g ->
  - 2 ^ 31 <= v < 2 ^ 31 -> - 2 ^ 31 <= w < 2 ^ 31 -> (_nvertex g < fuel)%nat ->
  exists l g' l',
    dfs fuel v g = (l, Some (tt, g')) /\
    dfs fuel w g' = (l', Some (tt, g')) /\ printed l' = [].
Proof.
  intros Hwf Hinv Hv Hw Hfuel.
  destruct (dfs_runs g Hwf fuel Hfuel v (_discovered g) (_processed g) Hv Hinv)
    as (l & d1 & p1 & n1 & Hr1 & (P1 & F1 & D1 & Q1 & R1 & _) & _).
  rewrite <- (with_visit_eta g) in Hr1.
  destruct (dfs_runs g Hwf fuel Hfuel w d1 p1 Hw (visit_ok_grown Hinv D1 Q1))
    as (l' & d2 & p2 & n2 & Hr2 & (P2 & F2 & D2 & Q2 & _) & _).
  pose proof (fresh_none F2 R1) as ->.
  apply grown_eq in D2, Q2. subst d2 p2.
  exists l, (with_visit g d1 p1), l'. auto.
Qed.

Lemma dfs_again_prints_nothing_witness :
  exists l g' l',
    dfs 5 1 (the scenario_C) = (l, Some (tt, g')) /\
    dfs 5 3 g' = (l', Some (tt, g')) /\ printed l' = [].
Proof.
  apply (dfs_again_prints_nothing (the scenario_C) 5 1 3).
  - reflexivity.
  - apply inv_unprocessed. reflexivity.
  - lia.
  - lia.
  - vm_compute; lia.
Defined.

(** [do_dfs(v)] started with no vertex discovered returns, and prints
    [v] first and then, each once, exactly the vertices that can be
    reached from [v]; these and no others are then discovered. *)
Theorem do_dfs_prints_reachable g fuel v :
  wfb g = true -> _discovered g = 0 -> In v (vertices g) -> (_nvertex g < fuel)%nat ->
  exists l g' new,
    do_dfs fuel v g = (l, Some (tt, g')) /\
    g' = with_visit g (_discovered g') (_processed g') /\
    printed l = map Tvertex new /\ NoDup new /\ hd_error new = Some v /\
    (forall x, In x new <-> reach g v x) /\
    (forall x, Z.testbit (_discovered g') x = true <-> reach g v x) /\
    grown new (_processed g) (_processed g').
Proof.
  intros Hwf Hd Hv Hfuel.
  destruct (do_dfs_enough g Hwf fuel Hfuel v (_discovered g) (_processed g) Hv)
    as (l & d' & p' & new & Hr & (P & F & D & Q & R & W & C) & Hh).
  rewrite <- (with_visit_eta g) in Hr. rewrite Hd in *.
  assert (forall x, Z.testbit d' x = true <-> In x new) as Hnew.
  { intros x. rewrite (D x), Z.testbit_0_l. intuition congruence. }
  assert (forall x, In x new <-> reach g v x) as Hreach.
  { intros x. split.
    - intros Hx. destruct (W x Hx) as (r & [<-|[]] & Hr'). exact Hr'.
    - intros Hx. apply clos_rt_rtn1 in Hx.
      induction Hx as [|y z [Hy Hyz] _ IH].
      + apply Hnew, R. now left.
      + apply Hnew. exact (C y IH z Hyz). }
  exists l, (with_visit g d' p'), new. cbn [_discovered _processed with_visit].
  split; [exact Hr|]. split; [reflexivity|]. split; [exact P|].
  split; [apply F|]. split; [apply Hh, Z.testbit_0_l|].
  split; [exact Hreach|]. split; [|exact Q].
  intros x. now rewrite Hnew.
Qed.

Lemma do_dfs_prints_reachable_witness :
  exists l g' new,
    do_dfs 5 2 (the scenario_C) = (l, Some (tt, g')) /\
    g' = with_visit (the scenario_C) (_discovered g') (_processed g') /\
    printed l = map Tvertex new /\ NoDup new /\ hd_error new = Some 2 /\
    (forall x, In x new <-> reach (the scenario_C) 2 x) /\
    (forall x, Z.testbit (_discovered g') x = true <-> reach (the scenario_C) 2 x) /\
    grown new (_processed (the scenario_C)) (_processed g').
Proof.
  apply (do_dfs_prints_reachable (the scenario_C) 5 2).
  - reflexivity.
  - reflexivity.
  - vm_compute; auto.
  - vm_compute; lia.
Defined.

(** [find_components] on a well-formed graph in a state where processed
    implies discovered: if every vertex is discovered it prints nothing;
    otherwise it prints one line, "component 1: " followed by all the
    vertices that were not discovered, the lowest-numbered of them
    first, and never a second component. *)
Theorem find_components_prints_one_line g fuel :
  wfb g = true -> inv g -> (_nvertex g < fuel)%nat ->
  exists l g' new,
    find_components fuel g = (l, Some (tt, g')) /\
    g' = with_visit g (_discovered g') (_processed g') /\
    Permutation new (undiscovered g (_discovered g)) /\
    hd_error new = hd_error (undiscovered g (_discovered g)) /\
    printed l = match new with
                | [] => []
                | _ :: _ => Tcomponent 1 :: map Tvertex new ++ [Tnewline]
                end /\
    (forall x, In x (vertices g) -> Z.testbit (_discovered g') x = true).
Proof.
  intros Hwf Hinv Hfuel.
  destruct (find_components_loop_runs g Hwf fuel Hfuel (vertices g) 1
              (_discovered g) (_processed g) (incl_refl _) Hinv)
    as (l & d' & p' & new & Hr & P & F & D & Q & Hh & R & A).
  rewrite <- (with_visit_eta g) in Hr.
  exists l, (with_visit g d' p'), new. cbn [_discovered _processed with_visit].
  split; [exact Hr|]. split; [reflexivity|].
  split; [exact (fresh_all_undiscovered F D R)|].
  split; [exact Hh|]. split; [exact P|]. exact R.
Qed.

Lemma find_components_prints_one_line_witness :
  exists l g' new,
    find_components 5 (the scenario_C) = (l, Some (tt, g')) /\
    g' = with_visit (the scenario_C) (_discovered g') (_processed g') /\
    Permutation new (undiscovered (the scenario_C) (_discovered (the scenario_C))) /\
    hd_error new = hd_error (undiscovered (the scenario_C) (_discovered (the scenario_C))) /\
    printed l = match new with
                | [] => []
                | _ :: _ => Tcomponent 1 :: map Tvertex new ++ [Tnewline]
                end /\
    (forall x, In x (vertices (the scenario_C)) -> Z.testbit (_discovered g') x = true).
Proof.
  apply (find_components_prints_one_line (the scenario_C) 5).
  - reflexivity.
  - apply inv_unprocessed. reflexivity.
  - vm_compute; lia.
Defined.

(** ** Breadth-first search *)

Lemma undiscovered_shrinks {g added d d1} :
  fresh g added d -> grown added d d1 ->
  (length (undiscovered g d1) + length added <= length (undiscovered g d))%nat.
Proof.
  intros [Hnd Hf] D. rewrite Nat.add_comm, <- length_app.
  apply NoDup_incl_length.
  - apply NoDup_app; auto using undiscovered_NoDup.
    intros x Hx Hu. apply undiscovered_In in Hu as [_ Hu].
    rewrite (grown_In D Hx) in Hu. discriminate.
  - intros x Hx. apply undiscovered_In. apply in_app_iff in Hx as [Hx|Hx].
    + exact (Hf x Hx).
    + apply undiscovered_In in Hx as [Hv Hd]. split; auto.
      destruct (Z.testbit d x) eqn:E; auto. rewrite (grown_mono D E) in Hd. discriminate.
Qed.

Lemma fresh_one g v d : In v (vertices g) -> Z.testbit d v = false -> fresh g [v] d.
Proof.
  intros Hv Hd. split; [repeat constructor; intros [] | intros x [<-|[]]; auto].
Qed.

Section BreadthFirst.
Variable g0 : Graph.
Hypothesis Hwf : wfb g0 = true.

(** The scan of the edges of the front vertex: the targets not yet
    discovered are discovered and join the queue, in order. *)
Lemma bfs_scan_runs : forall es q d p,
  (forall e, In e es -> In (to e) (vertices g0)) ->
  exists l d' added,
    runs (bfs_scan es q) (with_visit g0 d p) l (q ++ added) (with_visit g0 d' p) /\
    printed l = [] /\ fresh g0 added d /\ grown added d d' /\
    incl added (map to es) /\
    (forall e, In e es -> Z.testbit d' (to e) = true).
Proof.
  induction es as [|e es IH]; intros q d p Hes.
  - exists [], d, []. rewrite app_nil_r. split; [apply runs_ret|].
    split; [reflexivity|]. split; [apply fresh_nil|]. split; [apply grown_nil|].
    split; [apply incl_refl | intros e []].
  - assert (In (to e) (vertices g0)) as Ht by (apply Hes; now left).
    assert (forall e', In e' es -> In (to e') (vertices g0)) as Hes'
        by (intros e' He'; apply Hes; now right).
    pose proof (bit_ok_vertex g0 (to e) Hwf Ht) as Hb.
    pose proof (bit_ok_nonneg (to e) Hb) as H0.
    cbn [bfs_scan]. destruct (Z.testbit d (to e)) eqn:Ed.
    + destruct (IH q d p Hes') as (l & d' & added & Hr & P & F & D & I & R).
      exists ([] ++ l), d', added. split.
      * eapply runs_bind; [apply runs_get_discovered; exact Hb|].
        cbn [_discovered with_visit]. rewrite Ed. exact Hr.
      * split; [exact P|]. split; [exact F|]. split; [exact D|]. split.
        -- intros x Hx. right. now apply I.
        -- intros e' [<-|He']; [exact (grown_mono D Ed) | auto].
    + destruct (IH (q ++ [to e]) (Z.setbit d (to e)) p Hes')
        as (l & d' & added & Hr & P & F & D & I & R).
      assert (grown [to e] d (Z.setbit d (to e))) as Dv by (now apply grown_setbit).
      exists ([] ++ [Snapshot (Z.setbit d (to e)) p] ++ l), d', (to e :: added). split.
      * eapply runs_bind; [apply runs_get_discovered; exact Hb|].
        cbn [_discovered with_visit]. rewrite Ed. cbn [negb].
        eapply runs_bind; [apply runs_set_discovered; exact Hb|].
        cbn [_discovered _processed with_visit].
        rewrite <- app_assoc in Hr. exact Hr.
      * split; [exact P|]. split.
        { exact (fresh_app (fresh_one g0 (to e) d Ht Ed) Dv F). }
        split; [exact (grown_trans Dv D)|]. split.
        -- intros x [<-|Hx]; [now left | right; now apply I].
        -- intros e' [<-|He']; [|auto].
           apply (grown_mono D). now apply Z.setbit_eq.
Qed.

(** The loop of [do_bfs]: it prints the queue and then, in the order of
    their discovery, the vertices it discovers. *)
Lemma bfs_loop_runs fuel : forall q d p,
  incl q (vertices g0) ->
  (length q + length (undiscovered g0 d) <= fuel)%nat ->
  exists l d' p' new,
    runs (bfs_loop fuel q) (with_visit g0 d p) l tt (with_visit g0 d' p') /\
    printed l = map Tvertex (q ++ new) /\
    fresh g0 new d /\ grown new d d' /\ grown (q ++ new) p p' /\
    closed g0 (q ++ new) d' /\
    (forall x, In x new -> exists r, In r q /\ reach g0 r x).
Proof.
  induction fuel as [|f IH]; intros [|x q] d p Hq Hfuel;
    try (exists [], d, p, []; split; [apply runs_ret|];
         split; [reflexivity|]; split; [apply fresh_nil|];
         split; [apply grown_nil|]; split; [apply grown_nil|];
         split; [intros y []| intros y []]).
  - simpl in Hfuel. lia.
  - assert (In x (vertices g0)) as Hx by (apply Hq; now left).
    assert (incl q (vertices g0)) as Hq' by (intros y Hy; apply Hq; now right).
    pose proof (bit_ok_vertex g0 x Hwf Hx) as Hb.
    pose proof (bit_ok_nonneg x Hb) as H0.
    destruct (wfb_vertex_at g0 Hwf x Hx) as [vx Evx].
    assert (map to (neighbors vx) = succs g0 x) as Esucc
        by (unfold succs; now rewrite Evx).
    destruct (bfs_scan_runs (neighbors vx) (x :: q) d p)
      as (ls & d1 & added & Hrs & Ps & Fs & Ds & Is & Rs).
    { intros e He. apply (wfb_targets g0 Hwf x); auto.
      rewrite <- Esucc. now apply in_map. }
    destruct (IH (q ++ added) d1 (Z.setbit p x))
      as (l & d' & p' & new & Hr & P & F & D & Q & C & W).
    { intros y Hy. apply in_app_iff in Hy as [Hy|Hy]; auto. now apply Fs. }
    { pose proof (undiscovered_shrinks Fs Ds). rewrite length_app.
      simpl in Hfuel. lia. }
    exists ([] ++ ls ++ [Snapshot d1 (Z.setbit p x)] ++ [Cout (Tvertex x)] ++ l),
           d', p', (added ++ new).
    split.
    + cbn [bfs_loop].
      eapply runs_bind; [apply runs_get_vertex; exact Evx|].
      eapply runs_bind; [exact Hrs|].
      eapply runs_bind; [apply (runs_set_processed (with_visit g0 d1 p) x Hb)|].
      eapply runs_bind; [apply runs_cout|].
      cbn [tl app]. exact Hr.
    + split.
      { cbn [app]. rewrite printed_app, Ps. cbn [app printed].
        rewrite P. cbn [map app]. now rewrite app_assoc. }
      split; [exact (fresh_app Fs Ds F)|].
      split; [exact (grown_trans Ds D)|].
      split.
      { apply (grown_equiv (n := [x] ++ (q ++ added) ++ new)).
        - intros y. cbn [app]. rewrite app_assoc. tauto.
        - apply (grown_trans (b1 := Z.setbit p x)); [now apply grown_setbit | exact Q]. }
      split.
      { intros y Hy. cbn [app] in Hy. destruct Hy as [<-|Hy].
        - intros z Hz. apply (grown_mono D). rewrite <- Esucc in Hz.
          apply in_map_iff in Hz as (e & <- & He). auto.
        - apply C. now rewrite <- app_assoc. }
      intros y Hy. apply in_app_iff in Hy as [Hy|Hy].
      * exists x. split; [now left|]. apply rt_step. split; auto.
        rewrite <- Esucc. now apply Is.
      * destruct (W y Hy) as (r & Hr' & Hreach).
        apply in_app_iff in Hr' as [Hr'|Hr'].
        -- exists r. split; [now right | exact Hreach].
        -- exists x. split; [now left|].
           eapply rt_trans; [|exact Hreach]. apply rt_step. split; auto.
           rewrite <- Esucc. now apply Is.
Qed.

Lemma do_bfs_runs fuel start d p :
  In start (vertices g0) -> (_nvertex g0 < fuel)%nat ->
  exists l d' p' new,
    runs (do_bfs fuel start) (with_visit g0 d p) l tt (with_visit g0 d' p') /\
    printed l = Tvertex start :: map Tvertex new /\
    fresh g0 new (Z.setbit d start) /\
    grown (start :: new) d d' /\ grown (start :: new) p p' /\
    closed g0 (start :: new) d' /\
    (forall x, In x new -> reach g0 start x).
Proof.
  intros Hs Hfuel.
  pose proof (bit_ok_vertex g0 start Hwf Hs) as Hb.
  pose proof (bit_ok_nonneg start Hb) as H0.
  destruct (bfs_loop_runs fuel [start] (Z.setbit d start) p)
    as (l & d' & p' & new & Hr & P & F & D & Q & C & W).
  { intros x [<-|[]]. exact Hs. }
  { pose proof (undiscovered_bound g0 (Z.setbit d start)). simpl. lia. }
  exists ([Snapshot (Z.setbit d start) p] ++ l), d', p', new. split.
  - unfold do_bfs. eapply runs_bind; [apply runs_set_discovered; exact Hb|].
    exact Hr.
  - split; [exact P|]. split; [exact F|]. split.
    + apply (grown_trans (n1 := [start]) (b1 := Z.setbit d start));
        [now apply grown_setbit | exact D].
    + split; [exact Q|]. split; [exact C|].
      intros x Hx. destruct (W x Hx) as (r & [<-|[]] & Hreach). exact Hreach.
Qed.
End BreadthFirst.

Lemma settled_grown {new d p d' p'} :
  settled d p -> grown new d d' -> grown new p p' -> settled d' p'.
Proof.
  intros H D Q x. rewrite (D x), (Q x), (H x). tauto.
Qed.

Lemma settled_visit_ok d p : settled d p -> visit_ok d p.
Proof. intros H x Hx. now apply H. Qed.

Lemma grown_drop {v n b b'} :
  Z.testbit b v = true -> grown (v :: n) b b' -> grown n b b'.
Proof.
  intros Hv H x. rewrite (H x). simpl. split; [|tauto].
  intros [?|[<-|?]]; auto.
Qed.

Lemma fresh_weaken {g new d d1} :
  (forall x, Z.testbit d x = true -> Z.testbit d1 x = true) ->
  fresh g new d1 -> fresh g new d.
Proof.
  intros Hm [Hnd Hf]. split; auto. intros x Hx. destruct (Hf x Hx) as [Hv Hd].
  split; auto. destruct (Z.testbit d x) eqn:E; auto. rewrite (Hm x E) in Hd. discriminate.
Qed.

Lemma bfs_valid_start g0 v :
  - 2 ^ 31 <= v < 2 ^ 31 ->
  (0 <? v) && (to_size_t v <=? Z.of_nat (_nvertex g0)) = true <-> In v (vertices g0).
Proof.
  intros Hv. rewrite andb_comm. now apply dfs_valid_start.
Qed.

Section BreadthFirstSweep.
Variable g0 : Graph.
Hypothesis Hwf : wfb g0 = true.
Variable fuel : nat.
Hypothesis Hfuel : (_nvertex g0 < fuel)%nat.

(** [do_bfs] from a vertex that is not discovered behaves like a walk
    from that root. *)
Lemma do_bfs_root start d p :
  In start (vertices g0) -> Z.testbit d start = false ->
  exists l d' p' new,
    runs (do_bfs fuel start) (with_visit g0 d p) l tt (with_visit g0 d' p') /\
    dfs_result g0 [start] d p d' p' new l /\ hd_error new = Some start.
Proof.
  intros Hs Hd.
  pose proof (bit_ok_nonneg start (bit_ok_vertex g0 start Hwf Hs)) as H0.
  destruct (do_bfs_runs g0 Hwf fuel start d p Hs Hfuel)
    as (l & d' & p' & new & Hr & P & F & D & Q & C & W).
  exists l, d', p', (start :: new). split; [exact Hr|]. split; [|reflexivity].
  unfold dfs_result. split; [exact P|]. split.
  { exact (fresh_app (n1 := [start]) (fresh_one g0 start d Hs Hd)
                     (grown_setbit d start H0) F). }
  split; [exact D|]. split; [exact Q|]. split.
  { intros r [<-|[]]. apply (grown_In D). now left. }
  split; [|exact C].
  intros x [<-|Hx]; exists start; (split; [now left|]); [apply rt_refl | exact (W x Hx)].
Qed.

Lemma bfs_sweep_runs : forall ids d p,
  incl ids (vertices g0) -> settled d p ->
  exists l d' p' new,
    runs (for_each ids (fun i =>
            p <- get_processed i ;;
            if negb p then do_bfs fuel (to_int i) else ret tt))
         (with_visit g0 d p) l tt (with_visit g0 d' p') /\
    dfs_result g0 ids d p d' p' new l.
Proof.
  induction ids as [|i ids IH]; intros d p Hids Hok.
  - exists [], d, p, []. split; [apply runs_ret|].
    apply dfs_result_nil. intros r [].
  - assert (In i (vertices g0)) as Hi by (apply Hids; now left).
    assert (incl ids (vertices g0)) as Hids' by (intros x Hx; apply Hids; now right).
    pose proof (bit_ok_vertex g0 i Hwf Hi) as Hb.
    assert (exists l1 d1 p1 n1,
               runs (p0 <- get_processed i ;;
                     if negb p0 then do_bfs fuel (to_int i) else ret tt)
                    (with_visit g0 d p) l1 tt (with_visit g0 d1 p1) /\
               dfs_result g0 [i] d p d1 p1 n1 l1) as (l1 & d1 & p1 & n1 & Hr1 & Hres1).
    { destruct (Z.testbit p i) eqn:Ep.
      - exists ([] ++ []), d, p, []. split.
        + eapply runs_bind; [apply runs_get_processed; exact Hb|].
          cbn [_processed with_visit]. rewrite Ep. apply runs_ret.
        + apply dfs_result_nil. intros r [<-|[]]. now apply Hok.
      - assert (Z.testbit d i = false) as Ed.
        { destruct (Z.testbit d i) eqn:E; auto. apply Hok in E. congruence. }
        destruct (do_bfs_root i d p Hi Ed) as (l1 & d1 & p1 & n1 & Hr1 & Hres1 & _).
        exists ([] ++ l1), d1, p1, n1. split; auto.
        eapply runs_bind; [apply runs_get_processed; exact Hb|].
        cbn [_processed with_visit]. rewrite Ep. cbn [negb].
        rewrite (to_int_vertex g0 i Hwf Hi). exact Hr1. }
    destruct (IH d1 p1 Hids') as (l2 & d2 & p2 & n2 & Hr2 & Hres2).
    { destruct Hres1 as (_ & _ & D1 & Q1 & _). exact (settled_grown Hok D1 Q1). }
    exists (l1 ++ l2), d2, p2, (n1 ++ n2). split.
    + cbn [for_each]. eapply runs_bind; eauto.
    + exact (dfs_result_seq Hres1 Hres2).
Qed.

Lemma bfs_runs start d p :
  - 2 ^ 31 <= start < 2 ^ 31 -> settled d p ->
  exists l d' p' new,
    runs (bfs fuel start) (with_visit g0 d p) l tt (with_visit g0 d' p') /\
    printed l = map Tvertex
                  ((if (0 <? start) && (to_size_t start <=? Z.of_nat (_nvertex g0))
                       && Z.testbit d start
                    then [start] else []) ++ new) /\
    fresh g0 new d /\ grown new d d' /\ grown new p p' /\
    (forall x, In x (vertices g0) -> Z.testbit d' x = true) /\
    (In start (vertices g0) -> Z.testbit d start = false -> hd_error new = Some start).
Proof.
  intros Hv Hok. unfold bfs, for_vertices. cbn [_nvertex with_visit].
  change (vertices (with_visit g0 d p)) with (vertices g0).
  set (valid := (0 <? start) && (to_size_t start <=? Z.of_nat (_nvertex g0))).
  assert (exists l1 d1 p1 n1,
             runs (if valid then do_bfs fuel start else ret tt)
                  (with_visit g0 d p) l1 tt (with_visit g0 d1 p1) /\
             printed l1 = map Tvertex
                            ((if valid && Z.testbit d start then [start] else []) ++ n1) /\
             fresh g0 n1 d /\ grown n1 d d1 /\ grown n1 p p1 /\
             (In start (vertices g0) -> Z.testbit d start = false ->
              hd_error n1 = Some start))
    as (l1 & d1 & p1 & n1 & Hr1 & P1 & F1 & D1 & Q1 & Hh1).
  { destruct valid eqn:Ec; unfold valid in Ec.
    - apply (bfs_valid_start g0 start Hv) in Ec. cbn [andb].
      destruct (Z.testbit d start) eqn:Ed.
      + pose proof (bit_ok_nonneg start (bit_ok_vertex g0 start Hwf Ec)) as H0.
        destruct (do_bfs_runs g0 Hwf fuel start d p Ec Hfuel)
          as (l1 & d1 & p1 & n1 & Hr1 & P & F & D & Q & _).
        exists l1, d1, p1, n1. split; [exact Hr1|]. split; [exact P|].
        split; [|split; [exact (grown_drop Ed D)|split]].
        * apply (fresh_weaken (d1 := Z.setbit d start)); auto.
          intros x Hx. apply testbit_setbit; auto.
        * apply (grown_drop (v := start)); auto. now apply Hok.
        * intros _ E. congruence.
      + destruct (do_bfs_root start d p Ec Ed)
          as (l1 & d1 & p1 & n1 & Hr1 & (P & F & D & Q & _) & Hh).
        exists l1, d1, p1, n1. auto 8.
    - exists [], d, p, []. split; [apply runs_ret|]. split; [reflexivity|].
      split; [apply fresh_nil|]. split; [apply grown_nil|]. split; [apply grown_nil|].
      intros Hin. apply (bfs_valid_start g0 start Hv) in Hin. congruence. }
  destruct (bfs_sweep_runs (vertices g0) d1 p1 (incl_refl _) (settled_grown Hok D1 Q1))
    as (l2 & d2 & p2 & n2 & Hr2 & (P2 & F2 & D2 & Q2 & R2 & _)).
  exists (l1 ++ l2), d2, p2, (n1 ++ n2). split; [eapply runs_bind; eauto|].
  split.
  { rewrite printed_app, P1, P2, <- map_app, <- app_assoc. reflexivity. }
  split; [exact (fresh_app F1 D1 F2)|].
  split; [exact (grown_trans D1 D2)|].
  split; [exact (grown_trans Q1 Q2)|].
  split; [exact R2|].
  intros Hin Hd. specialize (Hh1 Hin Hd). destruct n1; [discriminate | exact Hh1].
Qed.
End BreadthFirstSweep.

(** [bfs(start)] on a well-formed graph in a state where the discovered
    and the processed vertices are the same: it returns and prints the
    vertices that were not discovered, each once, [start] first when it
    is one of them; a valid [start] that was already discovered is
    printed once more in front.  Every vertex ends discovered and
    processed, and nothing but the two bitsets changes. *)
Theorem bfs_prints_undiscovered g fuel start :
  wfb g = true -> settled (_discovered g) (_processed g) ->
  - 2 ^ 31 <= start < 2 ^ 31 -> (_nvertex g < fuel)%nat ->
  exists l g' new,
    bfs fuel start g = (l, Some (tt, g')) /\
    g' = with_visit g (_discovered g') (_processed g') /\
    printed l = map Tvertex
                  ((if (0 <? start) && (to_size_t start <=? Z.of_nat (_nvertex g))
                       && Z.testbit (_discovered g) start
                    then [start] else []) ++ new) /\
    Permutation new (undiscovered g (_discovered g)) /\
    (In start (vertices g) -> Z.testbit (_discovered g) start = false ->
     hd_error new = Some start) /\
    (forall x, In x (vertices g) ->
               Z.testbit (_discovered g') x = true /\ Z.testbit (_processed g') x = true) /\
    grown new (_discovered g) (_discovered g') /\
    grown new (_processed g) (_processed g').
Proof.
  intros Hwf Hok Hv Hfuel.
  destruct (bfs_runs g Hwf fuel Hfuel start (_discovered g) (_processed g) Hv Hok)
    as (l & d' & p' & new & Hr & P & F & D & Q & R & Hh).
  rewrite <- (with_visit_eta g) in Hr.
  exists l, (with_visit g d' p'), new. cbn [_discovered _processed with_visit].
  split; [exact Hr|]. split; [reflexivity|]. split; [exact P|].
  split; [exact (fresh_all_undiscovered F D R)|].
  split; [exact Hh|]. split; [|split; [exact D | exact Q]].
  intros x Hx. split; [exact (R x Hx)|].
  apply (settled_grown Hok D Q). exact (R x Hx).
Qed.

Lemma settled_clear : settled 0 0.
Proof. intros x. tauto. Qed.

Lemma bfs_prints_undiscovered_witness :
  exists l g' new,
    bfs 5 2 (the scenario_C) = (l, Some (tt, g')) /\
    g' = with_visit (the scenario_C) (_discovered g') (_processed g') /\
    printed l = map Tvertex
                  ((if (0 <? 2) && (to_size_t 2 <=? Z.of_nat (_nvertex (the scenario_C)))
                       && Z.testbit (_discovered (the scenario_C)) 2
                    then [2] else []) ++ new) /\
    Permutation new (undiscovered (the scenario_C) (_discovered (the scenario_C))) /\
    (In 2 (vertices (the scenario_C)) ->
     Z.testbit (_discovered (the scenario_C)) 2 = false -> hd_error new = Some 2) /\
    (forall x, In x (vertices (the scenario_C)) ->
               Z.testbit (_discovered g') x = true /\ Z.testbit (_processed g') x = true) /\
    grown new (_discovered (the scenario_C)) (_discovered g') /\
    grown new (_processed (the scenario_C)) (_processed g').
Proof.
  apply (bfs_prints_undiscovered (the scenario_C) 5 2).
  - reflexivity.
  - exact settled_clear.
  - lia.
  - vm_compute; lia.
Defined.

(** A walk from the single root [v] that started with nothing
    discovered has found exactly what can be reached from [v]. *)
Lemma walk_reachable {g v p d' p' new l} :
  dfs_result g [v] 0 p d' p' new l ->
  (forall x, In x new <-> reach g v x) /\
  (forall x, Z.testbit d' x = true <-> reach g v x).
Proof.
  intros (P & F & D & Q & R & W & C).
  assert (forall x, Z.testbit d' x = true <-> In x new) as Hnew.
  { intros x. rewrite (D x), Z.testbit_0_l. intuition congruence. }
  assert (forall x, In x new <-> reach g v x) as Hreach.
  { intros x. split.
    - intros Hx. destruct (W x Hx) as (r & [<-|[]] & Hr'). exact Hr'.
    - intros Hx. apply clos_rt_rtn1 in Hx.
      induction Hx as [|y z [Hy Hyz] _ IH].
      + apply Hnew, R. now left.
      + apply Hnew. exact (C y IH z Hyz). }
  split; [exact Hreach|]. intros x. now rewrite Hnew.
Qed.

(** [do_bfs(start)] started with no vertex discovered returns, and
    prints [start] first and then, each once, exactly the vertices that
    can be reached from [start]; these and no others are then
    discovered. *)
Theorem do_bfs_prints_reachable g fuel start :
  wfb g = true -> _discovered g = 0 -> In start (vertices g) ->
  (_nvertex g < fuel)%nat ->
  exists l g' new,
    do_bfs fuel start g = (l, Some (tt, g')) /\
    g' = with_visit g (_discovered g') (_processed g') /\
    printed l = map Tvertex new /\ NoDup new /\ hd_error new = Some start /\
    (forall x, In x new <-> reach g start x) /\
    (forall x, Z.testbit (_discovered g') x = true <-> reach g start x) /\
    grown new (_processed g) (_processed g').
Proof.
  intros Hwf Hd Hs Hfuel.
  destruct (do_bfs_root g Hwf fuel Hfuel start (_discovered g) (_processed g) Hs)
    as (l & d' & p' & new & Hr & Hres & Hh).
  { rewrite Hd. apply Z.testbit_0_l. }
  rewrite <- (with_visit_eta g) in Hr. rewrite Hd in Hres.
  destruct (walk_reachable Hres) as [Hnew Hdisc].
  destruct Hres as (P & F & D & Q & _).
  exists l, (with_visit g d' p'), new. cbn [_discovered _processed with_visit].
  split; [exact Hr|]. split; [reflexivity|]. split; [exact P|].
  split; [apply F|]. auto.
Qed.

Lemma do_bfs_prints_reachable_witness :
  exists l g' new,
    do_bfs 5 2 (the scenario_C) = (l, Some (tt, g')) /\
    g' = with_visit (the scenario_C) (_discovered g') (_processed g') /\
    printed l = map Tvertex new /\ NoDup new /\ hd_error new = Some 2 /\
    (forall x, In x new <-> reach (the scenario_C) 2 x) /\
    (forall x, Z.testbit (_discovered g') x = true <-> reach (the scenario_C) 2 x) /\
    grown new (_processed (the scenario_C)) (_processed g').
Proof.
  apply (do_bfs_prints_reachable (the scenario_C) 5 2).
  - reflexivity.
  - reflexivity.
  - vm_compute; auto.
  - vm_compute; lia.
Defined.

(** [bfs(v)], [unvisit()], [dfs(w)] in a row, started with cleared
    bitsets: both traversals print every vertex exactly once, so the one
    prints a rearrangement of what the other prints. *)
Theorem bfs_unvisit_dfs_same_vertices g fuel v w :
  wfb g = true -> _discovered g = 0 -> _processed g = 0 ->
  - 2 ^ 31 <= v < 2 ^ 31 -> - 2 ^ 31 <= w < 2 ^ 31 -> (_nvertex g < fuel)%nat ->
  exists l g' o1 o2,
    (bfs fuel v ;; unvisit ;; dfs fuel w) g = (l, Some (tt, g')) /\
    printed l = map Tvertex (o1 ++ o2) /\
    Permutation o1 (vertices g) /\ Permutation o2 (vertices g) /\
    Permutation o1 o2 /\
    (In v (vertices g) -> hd_error o1 = Some v) /\
    (In w (vertices g) -> hd_error o2 = Some w).
Proof.
  intros Hwf Hd Hp Hv Hw Hfuel.
  destruct (bfs_runs g Hwf fuel Hfuel v 0 0 Hv settled_clear)
    as (l1 & d1 & p1 & o1 & Hr1 & P1 & F1 & D1 & Q1 & R1 & Hh1).
  destruct (dfs_runs g Hwf fuel Hfuel w 0 0 Hw visit_ok_clear)
    as (l2 & d2 & p2 & o2 & Hr2 & (P2 & F2 & D2 & Q2 & R2 & _) & Hh2).
  assert (g = with_visit g 0 0) as Eg.
  { rewrite (with_visit_eta g) at 1. now rewrite Hd, Hp. }
  rewrite Z.testbit_0_l, andb_false_r in P1. cbn [app] in P1.
  pose proof (fresh_all_undiscovered F1 D1 R1) as Perm1.
  pose proof (fresh_all_undiscovered F2 D2 R2) as Perm2.
  rewrite undiscovered_clear in Perm1, Perm2.
  exists (l1 ++ [Snapshot 0 p1; Snapshot 0 0] ++ l2), (with_visit g d2 p2), o1, o2.
  split.
  - rewrite Eg at 1. eapply runs_bind; [exact Hr1|].
    eapply runs_bind; [|exact Hr2]. reflexivity.
  - split.
    { rewrite !printed_app, P1, P2, map_app. reflexivity. }
    split; [exact Perm1|]. split; [exact Perm2|].
    split; [now rewrite Perm1, Perm2|].
    split; [intros Hin; apply Hh1; auto using Z.testbit_0_l
           |intros Hin; apply Hh2; auto using Z.testbit_0_l].
Qed.

Lemma bfs_unvisit_dfs_same_vertices_witness :
  exists l g' o1 o2,
    (bfs 5 2 ;; unvisit ;; dfs 5 2) (the scenario_C) = (l, Some (tt, g')) /\
    printed l = map Tvertex (o1 ++ o2) /\
    Permutation o1 (vertices (the scenario_C)) /\
    Permutation o2 (vertices (the scenario_C)) /\
    Permutation o1 o2 /\
    (In 2 (vertices (the scenario_C)) -> hd_error o1 = Some 2) /\
    (In 2 (vertices (the scenario_C)) -> hd_error o2 = Some 2).
Proof.
  apply (bfs_unvisit_dfs_same_vertices (the scenario_C) 5 2 2).
  - reflexivity.
  - reflexivity.
  - reflexivity.
  - lia.
  - lia.
  - vm_compute; lia.
Defined.

(** ** Reading a graph *)

Lemma read_graph_slots ins : forall g,
  storage_ok g ->
  Forall (fun xy => 0 <= fst xy <= Z.of_nat (_nvertex g) /\
                    0 <= snd xy <= Z.of_nat (_nvertex g)) ins ->
  exists g',
    read_graph ins g = Some g' /\
    (forall u, neighbors_of g' u
               = neighbors_of g u ++ flat_map (pair_edges (_directed g) u) ins) /\
    (_directed g = false ->
     forall u, indegree_of g' u = indegree_of g u /\
               outdegree_of g' u = outdegree_of g u) /\
    storage_ok g' /\ _nvertex g' = _nvertex g /\ _directed g' = _directed g /\
    _parent g' = _parent g /\ _discovered g' = _discovered g /\
    _processed g' = _processed g.
Proof.
  induction ins as [|[x y] ins IH]; intros g Hs Hall; cbn [read_graph].
  - exists g. split; [reflexivity|]. split.
    + intros u. cbn [flat_map]. now rewrite app_nil_r.
    + split; [intros _ u; auto|]. split; [exact Hs|]. repeat split.
  - inversion Hall as [|? ? [Hx Hy] Hrest]; subst. cbn [fst snd] in Hx, Hy.
    destruct (add_edge_slots g x y 0 Hs Hx Hy)
      as (g1 & E1 & N1 & I1 & O1 & S1 & V1 & D1 & P1 & B1 & C1).
    rewrite E1. cbn [obind]. rewrite D1.
    destruct (_directed g) eqn:Edir; cbn [negb].
    + cbn [obind]. destruct (IH g1 S1) as (g' & E' & N' & _ & S' & V' & D' & P' & B' & C').
      { rewrite V1. exact Hrest. }
      exists g'. split; [exact E'|]. split.
      * intros u. rewrite N', N1, D1. cbn [flat_map]. unfold pair_edges at 2.
        cbn [fst snd]. destruct (u =? x); rewrite <- ?app_assoc, ?app_nil_r; reflexivity.
      * split; [discriminate|]. split; [exact S'|]. repeat split; congruence.
    + rewrite <- V1 in Hx, Hy.
      destruct (add_edge_slots g1 y x 0 S1 Hy Hx)
        as (g2 & E2 & N2 & I2 & O2 & S2 & V2 & D2 & P2 & B2 & C2).
      rewrite E2. cbn [obind].
      destruct (IH g2 S2) as (g' & E' & N' & K' & S' & V' & D' & P' & B' & C').
      { rewrite V2, V1. exact Hrest. }
      assert (_directed g2 = false) as Edir2 by congruence.
      assert (_directed g1 = false) as Edir1 by congruence.
      exists g'. split; [exact E'|]. split.
      * intros u. rewrite N', N2, N1, Edir2. cbn [flat_map]. unfold pair_edges at 2.
        cbn [fst snd]. destruct (u =? x), (u =? y);
          rewrite <- ?app_assoc, ?app_nil_r; reflexivity.
      * split.
        { intros _ u. destruct (K' Edir2 u) as [-> ->].
          rewrite I2, O2, I1, O1, ?Edir1, ?Edir. cbn [andb]. auto. }
        split; [exact S'|]. repeat split; congruence.
Qed.

(** [read_graph] on storage holding the slots [0 .. nvertex], with
    endpoints in these slots: the list of every [u] grows by the edges of
    the pairs read, in reading order, each pair giving the edge to its
    second member from its first and, on an undirected graph, also the
    edge back; on an undirected graph no degree counter changes. *)
Theorem read_graph_appends_in_order ins g :
  storage_ok g ->
  Forall (fun xy => 0 <= fst xy <= Z.of_nat (_nvertex g) /\
                    0 <= snd xy <= Z.of_nat (_nvertex g)) ins ->
  exists g',
    read_graph ins g = Some g' /\
    (forall u, neighbors_of g' u
               = neighbors_of g u ++ flat_map (pair_edges (_directed g) u) ins) /\
    (_directed g = false ->
     forall u, indegree_of g' u = indegree_of g u /\
               outdegree_of g' u = outdegree_of g u) /\
    _nvertex g' = _nvertex g /\ _directed g' = _directed g /\
    _parent g' = _parent g /\ _discovered g' = _discovered g /\
    _processed g' = _processed g.
Proof.
  intros Hs Hall.
  destruct (read_graph_slots ins g Hs Hall) as (g' & E & N & K & _ & H).
  exists g'. auto.
Qed.

Lemma read_graph_appends_in_order_witness :
  exists g',
    read_graph [(3, 4); (4, 1)] (the scenario_C) = Some g' /\
    (forall u, neighbors_of g' u
               = neighbors_of (the scenario_C) u
                 ++ flat_map (pair_edges (_directed (the scenario_C)) u) [(3, 4); (4, 1)]) /\
    (_directed (the scenario_C) = false ->
     forall u, indegree_of g' u = indegree_of (the scenario_C) u /\
               outdegree_of g' u = outdegree_of (the scenario_C) u) /\
    _nvertex g' = _nvertex (the scenario_C) /\
    _directed g' = _directed (the scenario_C) /\
    _parent g' = _parent (the scenario_C) /\
    _discovered g' = _discovered (the scenario_C) /\
    _processed g' = _processed (the scenario_C).
Proof.
  apply (read_graph_appends_in_order [(3, 4); (4, 1)] (the scenario_C)).
  - split; reflexivity.
  - repeat constructor; simpl; lia.
Defined.

Lemma Graph_ctor_zero_slots n directed :
  exists g,
    Graph_ctor zeroV zeroP n directed = Some g /\ storage_ok g /\
    _nvertex g = n /\ _directed g = directed /\
    (forall u, neighbors_of g u = []) /\
    (forall u, indegree_of g u = 0 /\ outdegree_of g u = 0).
Proof.
  rewrite Graph_ctor_eq. eexists. split; [reflexivity|].
  split; [split; cbn [_vertex _parent buf _nvertex];
          rewrite length_map, length_seq; lia|].
  split; [reflexivity|]. split; [reflexivity|].
  split; intros u; [|split];
    unfold neighbors_of, indegree_of, outdegree_of, vertex_at, slot; cbn [_vertex buf];
    (destruct (u <? 0); auto; rewrite nth_error_map;
     destruct (nth_error _ _); reflexivity).
Qed.

Lemma in_pair_edges directed u xy e :
  In e (pair_edges directed u xy) <->
  (u = fst xy /\ e = mkEdge 0 (snd xy)) \/
  (directed = false /\ u = snd xy /\ e = mkEdge 0 (fst xy)).
Proof.
  unfold pair_edges. rewrite in_app_iff.
  destruct (Z.eqb_spec u (fst xy)), directed, (Z.eqb_spec u (snd xy)); simpl;
    intuition (try congruence; auto).
Qed.

Lemma in_succs_read g0 g ins u v :
  (forall w, neighbors_of g0 w = []) ->
  (forall w, neighbors_of g w
             = neighbors_of g0 w ++ flat_map (pair_edges (_directed g0) w) ins) ->
  In v (succs g u) <->
  In (u, v) ins \/ (_directed g0 = false /\ In (v, u) ins).
Proof.
  intros Hnil Hn. rewrite succs_neighbors_of, Hn, Hnil. cbn [app].
  rewrite in_map_iff. split.
  - intros (e & <- & He). apply in_flat_map in He as ([x y] & Hxy & He).
    apply in_pair_edges in He as [[-> ->]|(Hd & -> & ->)]; cbn [fst snd to]; auto.
  - intros [H|[Hd H]].
    + exists (mkEdge 0 v). split; [reflexivity|]. apply in_flat_map.
      exists (u, v). split; [exact H|]. apply in_pair_edges. left. auto.
    + exists (mkEdge 0 v). split; [reflexivity|]. apply in_flat_map.
      exists (v, u). split; [exact H|]. apply in_pair_edges. right. auto.
Qed.

(** An undirected graph read into zeroed storage from pairs of slots
    has a symmetric adjacency: [v] is among the targets of [u] exactly
    when the pair was read in one of the two orders, hence exactly when
    [u] is among the targets of [v]; all degree counters stay 0. *)
Theorem build_undirected_symmetric n ins :
  Forall (fun xy => 0 <= fst xy <= Z.of_nat n /\ 0 <= snd xy <= Z.of_nat n) ins ->
  exists g,
    build n false ins = Some g /\
    (forall u v, In v (succs g u) <-> In (u, v) ins \/ In (v, u) ins) /\
    (forall u v, In v (succs g u) <-> In u (succs g v)) /\
    (forall u, indegree_of g u = 0 /\ outdegree_of g u = 0).
Proof.
  intros Hall. unfold build.
  destruct (Graph_ctor_zero_slots n false) as (g0 & -> & Hs & Hn & Hd & Hnil & Hdeg).
  cbn [obind].
  destruct (read_graph_slots ins g0 Hs) as (g & E & N & K & _).
  { now rewrite Hn. }
  assert (forall u v, In v (succs g u) <-> In (u, v) ins \/ In (v, u) ins) as H.
  { intros u v. rewrite (in_succs_read g0 g ins u v Hnil N). rewrite Hd. tauto. }
  exists g. split; [exact E|]. split; [exact H|]. split.
  - intros u v. rewrite (H u v), (H v u). tauto.
  - intros u. destruct (K Hd u) as [-> ->]. apply Hdeg.
Qed.

Lemma build_undirected_symmetric_witness :
  exists g,
    build 4 false [(1, 2); (2, 3)] = Some g /\
    (forall u v, In v (succs g u) <-> In (u, v) [(1, 2); (2, 3)] \/ In (v, u) [(1, 2); (2, 3)]) /\
    (forall u v, In v (succs g u) <-> In u (succs g v)) /\
    (forall u, indegree_of g u = 0 /\ outdegree_of g u = 0).
Proof.
  apply (build_undirected_symmetric 4 [(1, 2); (2, 3)]).
  repeat constructor; simpl; lia.
Defined.

Lemma length_flat_map_In {A B} (f : A -> list B) l a :
  In a l -> (length (f a) <= length (flat_map f l))%nat.
Proof.
  induction l as [|b l IH]; intros H; [contradiction|].
  destruct H as [->|H]; simpl; rewrite length_app; [lia|].
  specialize (IH H). lia.
Qed.

(** The outdegree counters follow the lists, as long as they fit an [int]. *)
Lemma read_graph_outdegrees ins : forall g,
  wfb g = true -> indegrees_match g = true -> _directed g = true ->
  (forall u, In u (vertices g) ->
             outdegree_of g u = Z.of_nat (length (succs g u))) ->
  Forall (fun p => In (fst p) (vertices g) /\ In (snd p) (vertices g)) ins ->
  Z.of_nat (length (edge_targets g)) + Z.of_nat (length ins) < 2 ^ 31 ->
  exists g',
    read_graph ins g = Some g' /\
    wfb g' = true /\ indegrees_match g' = true /\ _nvertex g' = _nvertex g /\
    (forall u, In u (vertices g') ->
               outdegree_of g' u = Z.of_nat (length (succs g' u))) /\
    length (edge_targets g') = (length (edge_targets g) + length ins)%nat.
Proof.
  induction ins as [|[x y] ins IH]; intros g Hwf Hm Hdir Hout Hall Hlen;
    cbn [read_graph].
  - exists g. rewrite Nat.add_0_r. auto 8.
  - inversion Hall as [|? ? [Hx Hy] Hrest]; subst. cbn [fst snd] in *.
    cbn [length] in Hlen.
    destruct (add_edge_well_formed g x y 0 Hwf Hm Hdir Hx Hy)
      as (g1 & E & Hwf1 & Hm1 & Hdir1 & Hn1 & Hl1); [lia|].
    pose proof Hx as Hx'. pose proof Hy as Hy'. apply in_vertices in Hx', Hy'.
    destruct (add_edge_slots g x y 0 (wfb_storage g Hwf))
      as (g1' & E' & N1 & _ & O1 & _); [lia | lia |].
    rewrite E in E'. inversion E'; subst g1'.
    rewrite E. cbn [obind]. rewrite Hdir1. cbn [negb obind].
    assert (vertices g1 = vertices g) as Hvs by (unfold vertices; now rewrite Hn1).
    destruct (IH g1 Hwf1 Hm1 Hdir1) as (g' & Eg & ? & ? & Hn' & Hout' & Hl').
    + rewrite Hvs. intros u Hu. rewrite O1, Hdir. cbn [andb].
      rewrite !succs_neighbors_of, N1.
      destruct (Z.eqb_spec u x) as [->|Hne]; [|now rewrite <- succs_neighbors_of; auto].
      rewrite length_map, length_app. cbn [length].
      pose proof (Hout x Hx) as Hox. rewrite succs_neighbors_of, length_map in Hox.
      pose proof (length_flat_map_In (succs g) (vertices g) x Hx) as Hb.
      fold (edge_targets g) in Hb. rewrite succs_neighbors_of, length_map in Hb.
      rewrite to_int_small; lia.
    + now rewrite Hvs.
    + rewrite Hl1. lia.
    + exists g'. split; [exact Eg|]. split; [auto|]. split; [auto|].
      split; [congruence|]. split; [exact Hout'|]. rewrite Hl', Hl1. cbn [length]. lia.
Qed.

(** A directed graph read into zeroed storage from fewer than 2^31
    pairs of vertices keeps exact books: for every vertex the outdegree
    is the length of its edge list, the indegree the number of edges that
    lead to it, the lists hold the pairs in reading order, and there are
    as many edges as pairs. *)
Theorem build_directed_degrees n ins :
  Z.of_nat n <= MAX_VERTEX ->
  Forall (fun p => 1 <= fst p <= Z.of_nat n /\ 1 <= snd p <= Z.of_nat n) ins ->
  Z.of_nat (length ins) < 2 ^ 31 ->
  exists g,
    build n true ins = Some g /\
    (forall u, In u (vertices g) ->
       outdegree_of g u = Z.of_nat (length (neighbors_of g u)) /\
       indegree_of g u = Z.of_nat (count_occ Z.eq_dec (edge_targets g) u) /\
       neighbors_of g u = flat_map (pair_edges true u) ins) /\
    length (edge_targets g) = length ins.
Proof.
  intros Hn Hall Hlen. unfold build.
  destruct (Graph_ctor_zero_well_formed n true Hn)
    as (g0 & E & Hwf & Hm & Hdir & Hnv & Ht).
  destruct (Graph_ctor_zero_slots n true) as (g0' & E0 & Hs & _ & _ & Hnil & Hdeg).
  rewrite E in E0. inversion E0; subst g0'. rewrite E. cbn [obind].
  destruct (read_graph_outdegrees ins g0 Hwf Hm Hdir)
    as (g & Eg & Hwfg & Hmg & Hng & Hout & Hl).
  - intros u _. rewrite succs_neighbors_of, Hnil. apply Hdeg.
  - eapply Forall_impl; [|exact Hall]. intros [x y] [Hx Hy]. cbn [fst snd] in *.
    split; apply in_vertices; rewrite Hnv; assumption.
  - rewrite Ht. simpl. lia.
  - destruct (read_graph_slots ins g0 Hs) as (g' & Eg' & N & _).
    { eapply Forall_impl; [|exact Hall]. intros [x y] [Hx Hy]. cbn [fst snd] in *.
      rewrite Hnv. lia. }
    rewrite Eg in Eg'. inversion Eg'; subst g'.
    exists g. split; [exact Eg|]. split.
    + intros u Hu. split; [|split].
      * rewrite (Hout u Hu), succs_neighbors_of, length_map. reflexivity.
      * exact (indegrees_match_elim g u Hmg Hu).
      * rewrite N, Hnil, Hdir. reflexivity.
    + rewrite Hl, Ht. reflexivity.
Qed.

Lemma build_directed_degrees_witness :
  exists g,
    build 3 true [(1, 2); (2, 3); (3, 2)] = Some g /\
    (forall u, In u (vertices g) ->
       outdegree_of g u = Z.of_nat (length (neighbors_of g u)) /\
       indegree_of g u = Z.of_nat (count_occ Z.eq_dec (edge_targets g) u) /\
       neighbors_of g u = flat_map (pair_edges true u) [(1, 2); (2, 3); (3, 2)]) /\
    length (edge_targets g) = length [(1, 2); (2, 3); (3, 2)].
Proof.
  apply (build_directed_degrees 3 [(1, 2); (2, 3); (3, 2)]).
  - vm_compute; discriminate.
  - repeat constructor; simpl; lia.
  - vm_compute; reflexivity.
Defined.

(** ** What the operations leave alone *)

Section Preserves.
Variable R : Graph -> Graph -> Prop.
Hypothesis R_refl : forall g, R g g.
Hypothesis R_trans : forall g1 g2 g3, R g1 g2 -> R g2 g3 -> R g1 g3.

Lemma preserves_ret {A} (a : A) : preserves R (ret a).
Proof. intros g b g' H. inversion H; subst. apply R_refl. Qed.

Lemma preserves_stuck {A} : preserves R (@stuck A).
Proof. intros g b g' H. discriminate. Qed.

Lemma preserves_bind {A B} (m : M A) (f : A -> M B) :
  preserves R m -> (forall a, preserves R (f a)) -> preserves R (bind m f).
Proof.
  intros Hm Hf g b g' H. unfold bind, outcome in *.
  specialize (Hm g). unfold outcome in Hm.
  destruct (m g) as [l1 [[a g1]|]]; cbn [snd] in *; [|discriminate].
  specialize (Hf a g1 b g'). unfold outcome in Hf.
  destruct (f a g1) as [l2 r]; cbn [snd] in *.
  eapply R_trans; eauto.
Qed.

Lemma preserves_if {A} (b : bool) (m1 m2 : M A) :
  preserves R m1 -> preserves R m2 -> preserves R (if b then m1 else m2).
Proof. destruct b; auto. Qed.

Lemma preserves_for_each {A} (l : list A) body :
  (forall a, preserves R (body a)) -> preserves R (for_each l body).
Proof.
  intros H. induction l as [|a l IH]; cbn [for_each].
  - apply preserves_ret.
  - apply preserves_bind; auto.
Qed.

Lemma preserves_any_edge es body :
  (forall e, preserves R (body e)) -> preserves R (any_edge es body).
Proof.
  intros H. induction es as [|e es IH]; cbn [any_edge].
  - apply preserves_ret.
  - apply preserves_bind; auto. intros r. apply preserves_if; auto using preserves_ret.
Qed.

Lemma preserves_same {A} (m : M A) :
  (forall g a g', outcome (m g) = Some (a, g') -> g' = g) -> preserves R m.
Proof. intros H g a g' E. rewrite (H g a g' E). apply R_refl. Qed.

Lemma preserves_get_discovered i : preserves R (get_discovered i).
Proof.
  apply preserves_same. intros g a g'. unfold get_discovered.
  destruct (bit_ok i); cbn; intros H; inversion H; auto.
Qed.

Lemma preserves_get_processed i : preserves R (get_processed i).
Proof.
  apply preserves_same. intros g a g'. unfold get_processed.
  destruct (bit_ok i); cbn; intros H; inversion H; auto.
Qed.

Lemma preserves_get_vertex i : preserves R (get_vertex i).
Proof.
  apply preserves_same. intros g a g'. unfold get_vertex, lift.
  destruct (vertex_at g i); cbn; intros H; inversion H; auto.
Qed.

Lemma preserves_get_parent i : preserves R (get_parent i).
Proof.
  apply preserves_same. intros g a g'. unfold get_parent, lift.
  destruct (parent_at g i); cbn; intros H; inversion H; auto.
Qed.

Lemma preserves_cout t : preserves R (cout t).
Proof. apply preserves_same. intros g a g' H. inversion H; auto. Qed.

Hypothesis R_visit : forall g d p, R g (with_visit g d p).

Lemma preserves_set_discovered i : preserves R (set_discovered i).
Proof.
  intros g a g'. unfold set_discovered, write_visit.
  destruct (bit_ok i); cbn; intros H; inversion H; subst. apply R_visit.
Qed.

Lemma preserves_set_processed i : preserves R (set_processed i).
Proof.
  intros g a g'. unfold set_processed, write_visit.
  destruct (bit_ok i); cbn; intros H; inversion H; subst. apply R_visit.
Qed.

Lemma preserves_unvisit : preserves R unvisit.
Proof.
  apply preserves_bind; [|intros _];
    intros g a g' H; inversion H; subst; apply R_visit.
Qed.

Lemma preserves_do_dfs fuel : forall v, preserves R (do_dfs fuel v).
Proof.
  induction fuel as [|f IH]; intros v; cbn [do_dfs]; [apply preserves_stuck|].
  apply preserves_bind; [apply preserves_get_discovered|]. intros d.
  apply preserves_if; [|apply preserves_ret].
  apply preserves_bind; [apply preserves_set_discovered|]. intros _.
  apply preserves_bind; [apply preserves_cout|]. intros _.
  apply preserves_bind; [apply preserves_get_vertex|]. intros vx.
  apply preserves_bind; [apply preserves_for_each; intros e; apply IH|]. intros _.
  apply preserves_set_processed.
Qed.

Lemma preserves_bfs_scan es : forall q, preserves R (bfs_scan es q).
Proof.
  induction es as [|e es IH]; intros q; cbn [bfs_scan]; [apply preserves_ret|].
  apply preserves_bind; [apply preserves_get_discovered|]. intros d.
  apply preserves_if; [|apply IH].
  apply preserves_bind; [apply preserves_set_discovered|]. intros _. apply IH.
Qed.

Lemma preserves_bfs_loop fuel : forall q, preserves R (bfs_loop fuel q).
Proof.
  induction fuel as [|f IH]; intros [|x q]; cbn [bfs_loop];
    try apply preserves_ret; try apply preserves_stuck.
  apply preserves_bind; [apply preserves_get_vertex|]. intros vx.
  apply preserves_bind; [apply preserves_bfs_scan|]. intros q1.
  apply preserves_bind; [apply preserves_set_processed|]. intros _.
  apply preserves_bind; [apply preserves_cout|]. intros _. apply IH.
Qed.

Lemma preserves_do_bfs fuel start : preserves R (do_bfs fuel start).
Proof.
  apply preserves_bind; [apply preserves_set_discovered|]. intros _.
  apply preserves_bfs_loop.
Qed.

Lemma preserves_sweep (walk : Z -> M unit) :
  (forall i, preserves R (walk i)) ->
  preserves R (for_vertices (fun i =>
                 p <- get_processed i ;; if negb p then walk (to_int i) else ret tt)).
Proof.
  intros H g a g'. unfold for_vertices. apply preserves_for_each. intros i.
  apply preserves_bind; [apply preserves_get_processed|]. intros p.
  apply preserves_if; [apply H | apply preserves_ret].
Qed.

Lemma preserves_dfs fuel v : preserves R (dfs fuel v).
Proof.
  intros g a g'. unfold dfs. apply preserves_bind.
  - apply preserves_if; [apply preserves_do_dfs | apply preserves_ret].
  - intros _. apply preserves_sweep. apply preserves_do_dfs.
Qed.

Lemma preserves_bfs fuel v : preserves R (bfs fuel v).
Proof.
  intros g a g'. unfold bfs. apply preserves_bind.
  - apply preserves_if; [apply preserves_do_bfs | apply preserves_ret].
  - intros _. apply preserves_sweep. apply preserves_do_bfs.
Qed.

Lemma preserves_find_components_loop fuel ids : forall k,
  preserves R (find_components_loop fuel ids k).
Proof.
  induction ids as [|i ids IH]; intros k; cbn [find_components_loop];
    [apply preserves_ret|].
  apply preserves_bind; [apply preserves_get_discovered|]. intros d.
  apply preserves_if; [|apply IH].
  apply preserves_bind; [apply preserves_cout|]. intros _.
  apply preserves_bind; [apply preserves_dfs|]. intros _.
  apply preserves_bind; [apply preserves_cout|]. intros _. apply IH.
Qed.

Lemma preserves_find_components fuel : preserves R (find_components fuel).
Proof. intros g a g'. unfold find_components. apply preserves_find_components_loop. Qed.
End Preserves.

Lemma bits_apart_refl g : bits_apart g g.
Proof. apply with_visit_eta. Qed.

Lemma bits_apart_trans g1 g2 g3 : bits_apart g1 g2 -> bits_apart g2 g3 -> bits_apart g1 g3.
Proof. unfold bits_apart. intros H1 H2. rewrite H2 at 1. rewrite H1. reflexivity. Qed.

Lemma bits_apart_visit g d p : bits_apart g (with_visit g d p).
Proof. reflexivity. Qed.

(** [bfs], [dfs], [find_components] and [unvisit], in whatever state and
    with whatever start vertex, change nothing of the graph but the two
    visitation bitsets: vertices, edges, degree counters, parents,
    [nvertex] and the directedness are as before when they return. *)
Theorem traversals_change_bits_only fuel v g g' :
  (state_of (bfs fuel v g) = Some g' \/ state_of (dfs fuel v g) = Some g' \/
   state_of (find_components fuel g) = Some g' \/ state_of (unvisit g) = Some g') ->
  g' = with_visit g (_discovered g') (_processed g') /\
  _vertex g' = _vertex g /\ _parent g' = _parent g /\
  _nvertex g' = _nvertex g /\ _directed g' = _directed g.
Proof.
  intros H.
  assert (bits_apart g g') as Hb.
  { assert (forall (m : M unit), preserves bits_apart m ->
              state_of (m g) = Some g' -> bits_apart g g') as Hp.
    { intros m Hm E. unfold state_of in E.
      destruct (snd (m g)) as [[a g1]|] eqn:Es; [|discriminate].
      cbn in E. inversion E; subst. exact (Hm g a g' Es). }
    destruct H as [H|[H|[H|H]]]; revert H; apply Hp.
    - apply (preserves_bfs bits_apart bits_apart_refl bits_apart_trans bits_apart_visit).
    - apply (preserves_dfs bits_apart bits_apart_refl bits_apart_trans bits_apart_visit).
    - apply (preserves_find_components bits_apart bits_apart_refl bits_apart_trans
                                       bits_apart_visit).
    - apply (preserves_unvisit bits_apart); auto using bits_apart_refl, bits_apart_visit.
      exact bits_apart_trans. }
  split; [exact Hb|]. unfold bits_apart in Hb. rewrite Hb. repeat split.
Qed.

Lemma traversals_change_bits_only_witness :
  the (state_of (bfs 5 1 (the scenario_C)))
  = with_visit (the scenario_C)
               (_discovered (the (state_of (bfs 5 1 (the scenario_C)))))
               (_processed (the (state_of (bfs 5 1 (the scenario_C))))) /\
  _vertex (the (state_of (bfs 5 1 (the scenario_C)))) = _vertex (the scenario_C) /\
  _parent (the (state_of (bfs 5 1 (the scenario_C)))) = _parent (the scenario_C) /\
  _nvertex (the (state_of (bfs 5 1 (the scenario_C)))) = _nvertex (the scenario_C) /\
  _directed (the (state_of (bfs 5 1 (the scenario_C)))) = _directed (the scenario_C).
Proof.
  apply (traversals_change_bits_only 5 1 (the scenario_C)).
  left. vm_compute. reflexivity.
Defined.

Section PreservesCycleCheck.
Variable R : Graph -> Graph -> Prop.
Hypothesis R_refl : forall g, R g g.
Hypothesis R_trans : forall g1 g2 g3, R g1 g2 -> R g2 g3 -> R g1 g3.
Hypothesis R_visit : forall g d p, R g (with_visit g d p).
Hypothesis R_parent : forall g i p g1, set_parent g i p = Some g1 -> R g g1.
Hypothesis R_directed :
  forall fuel g b g', detect_directed_cycle fuel g = Some (b, g') -> R g g'.

Lemma preserves_put_parent i p : preserves R (put_parent i p).
Proof.
  intros g a g'. unfold put_parent, lift, outcome. cbn [snd].
  destruct (set_parent g i p) as [g1|] eqn:E; cbn; intros H; inversion H; subst.
  exact (R_parent g i p g' E).
Qed.

Lemma preserves_detect_undirected_cycle fuel : forall v,
  preserves R (detect_undirected_cycle fuel v).
Proof.
  induction fuel as [|f IH]; intros v; cbn [detect_undirected_cycle];
    [apply preserves_stuck|].
  apply preserves_bind; auto using preserves_get_discovered. intros d.
  apply preserves_if; auto using preserves_ret.
  apply preserves_bind; auto using preserves_set_discovered. intros _.
  apply preserves_bind; auto using preserves_get_vertex. intros vx.
  apply preserves_any_edge; auto. intros e. unfold cycle_edge.
  apply preserves_bind; auto using preserves_get_discovered. intros de.
  apply preserves_if.
  - apply preserves_bind; auto using preserves_put_parent.
  - apply preserves_bind; auto using preserves_get_parent, preserves_ret.
Qed.

Lemma preserves_undirected_scan fuel ids : forall c,
  preserves R (undirected_scan fuel ids c).
Proof.
  induction ids as [|i ids IH]; intros c; cbn [undirected_scan];
    auto using preserves_ret.
  apply preserves_bind; auto using preserves_get_discovered. intros d.
  apply preserves_if; auto.
  apply preserves_bind; auto using preserves_detect_undirected_cycle.
Qed.

Lemma preserves_has_cycle fuel : preserves R (has_cycle fuel).
Proof.
  intros g a g'. unfold has_cycle. destruct (0 <? _nvertex g)%nat.
  - apply preserves_bind; auto using preserves_unvisit. intros _.
    intros g1 a1 g1'. unfold detect_cycle. destruct (negb (_directed g1)).
    + apply preserves_undirected_scan.
    + unfold lift, outcome. cbn [snd]. apply R_directed.
  - apply preserves_ret; auto.
Qed.
End PreservesCycleCheck.

Lemma edges_kept_refl g : edges_kept g g.
Proof. repeat split. Qed.

Lemma edges_kept_trans g1 g2 g3 : edges_kept g1 g2 -> edges_kept g2 g3 -> edges_kept g1 g3.
Proof. intros (A & B & C) (A' & B' & C'). repeat split; congruence. Qed.

Lemma edges_kept_neighbors_of g g' u : edges_kept g g' -> neighbors_of g' u = neighbors_of g u.
Proof.
  intros (H & _). unfold neighbors_of, vertex_at, slot.
  destruct (u <? 0); auto.
  assert (nth_error (map neighbors (buf (_vertex g'))) (Z.to_nat u)
          = nth_error (map neighbors (buf (_vertex g))) (Z.to_nat u)) as E by now rewrite H.
  rewrite !nth_error_map in E.
  destruct (nth_error (buf (_vertex g')) _), (nth_error (buf (_vertex g)) _);
    simpl in E; congruence.
Qed.

(** [has_cycle], whatever the graph and its state, never changes an
    edge list, [nvertex] or the directedness (it does rewrite indegree
    counters on a directed graph and parents on an undirected one). *)
Theorem has_cycle_keeps_edges fuel g b g' :
  outcome (has_cycle fuel g) = Some (b, g') ->
  (forall u, neighbors_of g' u = neighbors_of g u) /\
  _nvertex g' = _nvertex g /\ _directed g' = _directed g.
Proof.
  intros H.
  assert (edges_kept g g') as Hk.
  { revert H. apply (preserves_has_cycle edges_kept edges_kept_refl edges_kept_trans).
    - intros g0 d p. repeat split.
    - intros g0 i p g1 E. unfold set_parent in E.
      destruct (store _ i p); cbn in E; inversion E; subst. repeat split.
    - intros f g0 b0 g1 E. apply detect_directed_cycle_frame in E.
      destruct E as (A & _ & _ & _ & B & C). repeat split; auto. }
  split; [intros u; now apply edges_kept_neighbors_of|]. apply Hk.
Qed.

Lemma has_cycle_keeps_edges_witness :
  (forall u, neighbors_of (the (state_of (has_cycle 3 (the tail_into_cycle)))) u
             = neighbors_of (the tail_into_cycle) u) /\
  _nvertex (the (state_of (has_cycle 3 (the tail_into_cycle))))
  = _nvertex (the tail_into_cycle) /\
  _directed (the (state_of (has_cycle 3 (the tail_into_cycle))))
  = _directed (the tail_into_cycle).
Proof.
  apply (has_cycle_keeps_edges 3 (the tail_into_cycle) true).
  vm_compute. reflexivity.
Defined.

(** When [has_cycle] answers false on a directed graph whose indegree
    counters are those [add_edge] built, it has brought every indegree
    counter down to 0 in the graph itself; the edge lists are as before. *)
Theorem has_cycle_false_zeroes_indegrees g fuel :
  wfb g = true -> indegrees_match g = true -> _directed g = true ->
  (_nvertex g <= fuel)%nat ->
  value_of (has_cycle fuel g) = Some false ->
  exists g',
    state_of (has_cycle fuel g) = Some g' /\
    (forall t, In t (vertices g) -> indegree_of g' t = 0) /\
    (forall u, neighbors_of g' u = neighbors_of g u).
Proof.
  intros Hwf Hm Hdir Hfuel Hval.
  destruct (has_cycle_kahn g fuel Hwf Hm Hdir Hfuel)
    as (order & g1 & U & Hk & Hinv & Hlen & Hv).
  rewrite Hv in Hval. inversion Hval as [Hb].
  apply negb_false_iff, Nat.eqb_eq in Hb.
  destruct (Nat.ltb_spec 0 (_nvertex g)) as [Hn|Hn].
  - destruct (has_cycle_directed fuel g order g1 Hdir Hk Hlen) as [_ Ho].
    specialize (Ho Hn). exists g1. split; [unfold state_of, outcome in *; now rewrite Ho|].
    split.
    + intros t Ht. apply (ki_zero Hinv t Ht). rewrite app_nil_r.
      exact (kahn_all_popped _ _ _ _ Hinv Hb t Ht).
    + intros u. apply (frame_neighbors_of (with_visit g 0 0) g1 u (ki_frame Hinv)).
  - exists g. split.
    + unfold has_cycle. destruct (Nat.ltb_spec 0 (_nvertex g)); [lia|]. reflexivity.
    + split; [|reflexivity]. intros t Ht. apply in_vertices in Ht. lia.
Qed.

Lemma has_cycle_false_zeroes_indegrees_witness :
  exists g',
    state_of (has_cycle 3 (the scenario_A)) = Some g' /\
    (forall t, In t (vertices (the scenario_A)) -> indegree_of g' t = 0) /\
    (forall u, neighbors_of g' u = neighbors_of (the scenario_A) u).
Proof.
  apply (has_cycle_false_zeroes_indegrees (the scenario_A) 3).
  - reflexivity.
  - reflexivity.
  - reflexivity.
  - vm_compute; lia.
  - reflexivity.
Defined.

(** ** The cycle check on undirected graphs returns *)

Lemma parents_apart_refl g : parents_apart g g.
Proof. repeat split. Qed.

Lemma parents_apart_wfb g0 g : parents_apart g0 g -> wfb g = wfb g0.
Proof.
  intros (H1 & H2 & _ & H4 & _).
  unfold wfb, vertices, succs, vertex_at, in_range. now rewrite H1, H2, H4.
Qed.

Lemma parents_apart_set_discovered g0 g i :
  parents_apart g0 g ->
  parents_apart g0 (with_visit g (Z.setbit (_discovered g) i) (_processed g)).
Proof. intros (H1 & H2 & H3 & H4 & H5). repeat split; auto. Qed.

Lemma runs_get_parent g i p :
  parent_at g i = Some p -> runs (get_parent i) g [] p g.
Proof. intros H. unfold runs, get_parent, lift. now rewrite H. Qed.

Lemma runs_put_parent g i p :
  0 <= i < Z.of_nat (length (buf (_parent g))) ->
  runs (put_parent i p) g [] tt
       (with_parent g (list_set (buf (_parent g)) (Z.to_nat i) p)).
Proof.
  intros H. unfold runs, put_parent, lift, set_parent. now rewrite store_in_range.
Qed.

Section UndirectedCheck.
Variable g0 : Graph.
Hypothesis Hwf : wfb g0 = true.

Lemma parent_slot g v :
  parents_apart g0 g -> In v (vertices g0) ->
  0 <= v < Z.of_nat (length (buf (_parent g))).
Proof.
  intros (_ & _ & _ & H4 & _) Hv. rewrite H4.
  destruct (wfb_storage g0 Hwf) as [_ ->]. apply in_vertices in Hv. lia.
Qed.

(** The loop of [detect_undirected_cycle] over the edges of [v], given
    what the recursive calls do. *)
Lemma cycle_edges_run f v :
  In v (vertices g0) ->
  (forall w g,
      parents_apart g0 g -> In w (vertices g0) ->
      (length (undiscovered g0 (_discovered g)) < f)%nat ->
      exists l b g',
        runs (detect_undirected_cycle f w) g l b g' /\
        parents_apart g0 g' /\ printed l = [] /\
        (forall x, Z.testbit (_discovered g) x = true ->
                   Z.testbit (_discovered g') x = true)) ->
  forall es g,
    parents_apart g0 g ->
    (forall e, In e es -> In (to e) (vertices g0)) ->
    (length (undiscovered g0 (_discovered g)) < f)%nat ->
    exists l b g',
      runs (any_edge es (cycle_edge (detect_undirected_cycle f) v)) g l b g' /\
      parents_apart g0 g' /\ printed l = [] /\
      (forall x, Z.testbit (_discovered g) x = true ->
                 Z.testbit (_discovered g') x = true).
Proof.
  intros Hv Hrec. induction es as [|e es IH]; intros g Hg Hes Hfuel.
  - exists [], false, g. split; [apply runs_ret|]. auto.
  - assert (In (to e) (vertices g0)) as Ht by (apply Hes; now left).
    assert (forall e', In e' es -> In (to e') (vertices g0)) as Hes'
        by (intros e' He'; apply Hes; now right).
    pose proof (bit_ok_vertex g0 (to e) Hwf Ht) as Hb.
    assert (exists l1 b1 g1,
               runs (cycle_edge (detect_undirected_cycle f) v e) g l1 b1 g1 /\
               parents_apart g0 g1 /\ printed l1 = [] /\
               (forall x, Z.testbit (_discovered g) x = true ->
                          Z.testbit (_discovered g1) x = true))
      as (l1 & b1 & g1 & Hr1 & Hg1 & P1 & M1).
    { unfold cycle_edge. destruct (Z.testbit (_discovered g) (to e)) eqn:Ed.
      - destruct (slot_in_range (buf (_parent g)) v (parent_slot g v Hg Hv)) as [p Ep].
        exists ([] ++ [] ++ []), (negb (p =? to e)), g. split; [|auto].
        eapply runs_bind; [apply runs_get_discovered; exact Hb|].
        rewrite Ed. cbn [negb].
        eapply runs_bind; [apply runs_get_parent; exact Ep|]. apply runs_ret.
      - set (g1 := with_parent g (list_set (buf (_parent g)) (Z.to_nat (to e)) v)).
        assert (parents_apart g0 g1) as Hg1.
        { destruct Hg as (H1 & H2 & H3 & H4 & H5). unfold g1.
          repeat split; auto. cbn. now rewrite list_set_length. }
        destruct (Hrec (to e) g1 Hg1 Ht Hfuel) as (l & b & g' & Hr & Hg' & P & M).
        exists ([] ++ [] ++ l), b, g'. split; [|auto].
        eapply runs_bind; [apply runs_get_discovered; exact Hb|].
        rewrite Ed. cbn [negb].
        eapply runs_bind; [apply runs_put_parent; exact (parent_slot g (to e) Hg Ht)|].
        exact Hr. }
    destruct b1.
    + exists (l1 ++ []), true, g1. split; [|rewrite app_nil_r; auto].
      cbn [any_edge]. eapply runs_bind; [exact Hr1|]. apply runs_ret.
    + destruct (IH g1 Hg1 Hes') as (l2 & b2 & g2 & Hr2 & Hg2 & P2 & M2).
      { pose proof (undiscovered_le g0 _ _ M1). lia. }
      exists (l1 ++ l2), b2, g2. split.
      * cbn [any_edge]. eapply runs_bind; [exact Hr1|]. exact Hr2.
      * split; [exact Hg2|]. split; [now rewrite printed_app, P1, P2|]. auto.
Qed.

Lemma detect_undirected_cycle_runs fuel : forall v g,
  parents_apart g0 g -> In v (vertices g0) ->
  (length (undiscovered g0 (_discovered g)) < fuel)%nat ->
  exists l b g',
    runs (detect_undirected_cycle fuel v) g l b g' /\
    parents_apart g0 g' /\ printed l = [] /\
    (forall x, Z.testbit (_discovered g) x = true ->
               Z.testbit (_discovered g') x = true) /\
    Z.testbit (_discovered g') v = true /\
    (succs g0 v = [] -> b = false).
Proof.
  induction fuel as [|f IH']; intros v g Hg Hv Hfuel; [lia|].
  assert (forall w g,
      parents_apart g0 g -> In w (vertices g0) ->
      (length (undiscovered g0 (_discovered g)) < f)%nat ->
      exists l b g',
        runs (detect_undirected_cycle f w) g l b g' /\
        parents_apart g0 g' /\ printed l = [] /\
        (forall x, Z.testbit (_discovered g) x = true ->
                   Z.testbit (_discovered g') x = true)) as IH.
  { intros w g1 H1 H2 H3.
    destruct (IH' w g1 H1 H2 H3) as (l & b & g' & Hr & Hg' & P & M & _). eauto 8. }
  clear IH'.
  pose proof (bit_ok_vertex g0 v Hwf Hv) as Hb.
  pose proof (bit_ok_nonneg v Hb) as Hv0.
  cbn [detect_undirected_cycle]. destruct (Z.testbit (_discovered g) v) eqn:Ed.
  - exists ([] ++ []), false, g. split.
    + eapply runs_bind; [apply runs_get_discovered; exact Hb|].
      rewrite Ed. apply runs_ret.
    + auto 8.
  - destruct (wfb_vertex_at g0 Hwf v Hv) as [vx Evx].
    assert (map to (neighbors vx) = succs g0 v) as Esucc
        by (unfold succs; now rewrite Evx).
    set (g1 := with_visit g (Z.setbit (_discovered g) v) (_processed g)).
    assert (parents_apart g0 g1) as Hg1 by (now apply parents_apart_set_discovered).
    assert (forall x, Z.testbit (_discovered g) x = true ->
                      Z.testbit (_discovered g1) x = true) as M1.
    { intros x Hx. cbn. apply testbit_setbit; auto. }
    assert (vertex_at g1 v = Some vx) as Evx1.
    { unfold vertex_at. cbn [g1 with_visit _vertex].
      destruct Hg as (-> & _). exact Evx. }
    destruct (cycle_edges_run f v Hv IH (neighbors vx) g1 Hg1)
      as (l & b & g' & Hr & Hg' & P & M).
    { intros e He. apply (wfb_targets g0 Hwf v); auto.
      rewrite <- Esucc. now apply in_map. }
    { assert (length (undiscovered g0 (_discovered g1))
              < length (undiscovered g0 (_discovered g)))%nat.
      { apply undiscovered_lt with (v := v); auto. cbn. now apply Z.setbit_eq. }
      lia. }
    exists ([] ++ [Snapshot (Z.setbit (_discovered g) v) (_processed g)] ++ [] ++ l),
           b, g'.
    split.
    + eapply runs_bind; [apply runs_get_discovered; exact Hb|].
      rewrite Ed. cbn [negb].
      eapply runs_bind; [apply runs_set_discovered; exact Hb|].
      eapply runs_bind; [apply runs_get_vertex; exact Evx1|]. exact Hr.
    + split; [exact Hg'|]. split; [exact P|]. split; [auto|]. split.
      * apply M. cbn. now apply Z.setbit_eq.
      * intros Hnil. rewrite Hnil in Esucc. apply map_eq_nil in Esucc.
        rewrite Esucc in Hr. cbn [any_edge] in Hr. unfold runs, ret in Hr.
        inversion Hr. reflexivity.
Qed.

Lemma undirected_scan_runs fuel :
  (_nvertex g0 < fuel)%nat ->
  forall ids c g,
    parents_apart g0 g -> incl ids (vertices g0) ->
    exists l b g',
      runs (undirected_scan fuel ids c) g l b g' /\
      parents_apart g0 g' /\ printed l = [] /\
      (forall x, Z.testbit (_discovered g) x = true ->
                 Z.testbit (_discovered g') x = true) /\
      (forall i, In i ids -> Z.testbit (_discovered g') i = true) /\
      ((forall u, In u ids -> succs g0 u = []) -> b = c).
Proof.
  intros Hfuel. induction ids as [|i ids IH]; intros c g Hg Hids.
  - exists [], c, g. split; [apply runs_ret|]. split; [exact Hg|].
    split; [reflexivity|]. split; [auto|]. split; [intros i []|auto].
  - assert (In i (vertices g0)) as Hi by (apply Hids; now left).
    assert (incl ids (vertices g0)) as Hids' by (intros x Hx; apply Hids; now right).
    pose proof (bit_ok_vertex g0 i Hwf Hi) as Hb.
    cbn [undirected_scan]. destruct (Z.testbit (_discovered g) i) eqn:Ed.
    + destruct (IH c g Hg Hids') as (l & b & g' & Hr & Hg' & P & M & A & V).
      exists ([] ++ l), b, g'. split.
      * eapply runs_bind; [apply runs_get_discovered; exact Hb|].
        rewrite Ed. exact Hr.
      * split; [exact Hg'|]. split; [exact P|]. split; [exact M|]. split.
        -- intros x [<-|Hx]; auto.
        -- intros Hn. apply V. intros u Hu. apply Hn. now right.
    + destruct (detect_undirected_cycle_runs fuel i g Hg Hi)
        as (l1 & b1 & g1 & Hr1 & Hg1 & P1 & M1 & D1 & V1).
      { pose proof (undiscovered_bound g0 (_discovered g)). lia. }
      destruct (IH (c || b1) g1 Hg1 Hids') as (l & b & g' & Hr & Hg' & P & M & A & V).
      exists ([] ++ l1 ++ l), b, g'. split.
      * eapply runs_bind; [apply runs_get_discovered; exact Hb|].
        rewrite Ed. cbn [negb]. rewrite (to_int_vertex g0 i Hwf Hi).
        eapply runs_bind; [exact Hr1|]. exact Hr.
      * split; [exact Hg'|]. split; [cbn [app]; now rewrite printed_app, P1, P|].
        split; [auto|]. split.
        -- intros x [<-|Hx]; auto.
        -- intros Hn. rewrite V by (intros u Hu; apply Hn; now right).
           rewrite V1 by (apply Hn; now left). apply orb_false_r.
Qed.
End UndirectedCheck.

(** [has_cycle] on a well-formed undirected graph with at least one
    vertex returns, whatever the visitation state it finds.  It prints
    nothing, leaves vertices, edges and degree counters as they were,
    every vertex discovered and none processed; it answers false when no
    vertex has an edge.  A [dfs] that follows without [unvisit] finds
    everything discovered: it prints nothing and changes nothing. *)
Theorem has_cycle_undirected_returns g fuel :
  wfb g = true -> _directed g = false -> (0 < _nvertex g < fuel)%nat ->
  exists l b g',
    has_cycle fuel g = (l, Some (b, g')) /\ printed l = [] /\
    _vertex g' = _vertex g /\ _nvertex g' = _nvertex g /\ _processed g' = 0 /\
    (forall x, In x (vertices g) -> Z.testbit (_discovered g') x = true) /\
    ((forall u, In u (vertices g) -> succs g u = []) -> b = false) /\
    (forall v, - 2 ^ 31 <= v < 2 ^ 31 ->
       exists l', dfs fuel v g' = (l', Some (tt, g')) /\ printed l' = []).
Proof.
  intros Hwf Hdir [Hn Hfuel].
  set (g1 := with_visit g 0 0).
  destruct (undirected_scan_runs g1 Hwf fuel Hfuel (vertices g1) false g1
              (parents_apart_refl g1) (incl_refl _))
    as (l & b & g' & Hr & Hg' & P & M & A & V).
  pose proof Hg' as (H1 & H2 & H3 & H4 & H5).
  exists (Snapshot 0 (_processed g) :: Snapshot 0 0 :: l), b, g'.
  split; [|split; [exact P|split; [exact H1|split; [exact H2|split; [exact H5|]]]]].
  - rewrite (has_cycle_unvisit fuel g Hn). fold g1.
    unfold detect_cycle. cbn [_directed g1 with_visit]. rewrite Hdir. cbn [negb].
    unfold runs in Hr. change (vertices (with_visit g 0 0)) with (vertices g1).
    rewrite Hr. reflexivity.
  - split; [exact A|]. split; [exact V|].
    intros v Hv.
    assert (wfb g' = true) as Hwf' by (rewrite (parents_apart_wfb g1 g' Hg'); exact Hwf).
    assert (_nvertex g' < fuel)%nat as Hfuel' by (rewrite H2; exact Hfuel).
    assert (visit_ok (_discovered g') (_processed g')) as Hok.
    { rewrite H5. intros x Hx. cbn in Hx. now rewrite Z.testbit_0_l in Hx. }
    destruct (dfs_runs g' Hwf' fuel Hfuel' v (_discovered g') (_processed g') Hv Hok)
      as (l' & d2 & p2 & n2 & Hr2 & (P2 & F2 & D2 & Q2 & _) & _).
    rewrite <- (with_visit_eta g') in Hr2.
    assert (n2 = []) as ->.
    { apply (fresh_none F2). intros x Hx. apply A.
      unfold vertices in *. now rewrite <- H2. }
    apply grown_eq in D2, Q2. subst d2 p2.
    rewrite <- (with_visit_eta g') in Hr2.
    exists l'. split; [exact Hr2 | exact P2].
Qed.

Lemma has_cycle_undirected_returns_witness :
  exists l b g',
    has_cycle 5 (the scenario_C) = (l, Some (b, g')) /\ printed l = [] /\
    _vertex g' = _vertex (the scenario_C) /\ _nvertex g' = _nvertex (the scenario_C) /\
    _processed g' = 0 /\
    (forall x, In x (vertices (the scenario_C)) -> Z.testbit (_discovered g') x = true) /\
    ((forall u, In u (vertices (the scenario_C)) -> succs (the scenario_C) u = []) ->
     b = false) /\
    (forall v, - 2 ^ 31 <= v < 2 ^ 31 ->
       exists l', dfs 5 v g' = (l', Some (tt, g')) /\ printed l' = []).
Proof.
  apply (has_cycle_undirected_returns (the scenario_C) 5).
  - reflexivity.
  - reflexivity.
  - vm_compute; lia.
Defined.

(** ** The program as a whole *)

Lemma pbind_eq {A B} (m : Prog A) (f : A -> Prog B) g l a g' l' r :
  m g = (l, Some (a, g')) -> f a g' = (l', r) -> pbind m f g = (l ++ l', r).
Proof. unfold pbind. intros -> ->. reflexivity. Qed.

Lemma call_runs {A} (m : M A) g l a g' :
  runs m g l a g' -> call m g = (map Item (printed l), Some (a, g')).
Proof. unfold runs, call. intros ->. reflexivity. Qed.

Lemma add_edge_bits x y w g g' :
  add_edge x y w g = Some g' ->
  _discovered g' = _discovered g /\ _processed g' = _processed g.
Proof.
  unfold add_edge.
  destruct (vertex_at g x) as [vx|]; cbn [obind]; [|discriminate].
  destruct (set_vertex g x _) as [g1|] eqn:E1; cbn [obind]; [|discriminate].
  destruct (set_vertex_frame _ _ _ _ E1) as (_ & _ & D1 & P1 & _).
  destruct (_directed g1).
  - destruct (vertex_at g1 x) as [vx1|]; cbn [obind]; [|discriminate].
    destruct (set_vertex g1 x _) as [g2|] eqn:E2; cbn [obind]; [|discriminate].
    destruct (set_vertex_frame _ _ _ _ E2) as (_ & _ & D2 & P2 & _).
    destruct (vertex_at g2 y) as [vy|]; cbn [obind]; [|discriminate].
    intros E3. destruct (set_vertex_frame _ _ _ _ E3) as (_ & _ & D3 & P3 & _).
    split; congruence.
  - intros H. inversion H. subst. auto.
Qed.

Lemma read_graph_bits ins : forall g g',
  read_graph ins g = Some g' ->
  _discovered g' = _discovered g /\ _processed g' = _processed g.
Proof.
  induction ins as [|[x y] ins IH]; intros g g'; cbn [read_graph].
  - intros H. inversion H. auto.
  - destruct (add_edge x y 0 g) as [g1|] eqn:E1; cbn [obind]; [|discriminate].
    destruct (add_edge_bits _ _ _ _ _ E1) as [D1 P1].
    destruct (negb (_directed g1)).
    + destruct (add_edge y x 0 g1) as [g2|] eqn:E2; cbn [obind]; [|discriminate].
      destruct (add_edge_bits _ _ _ _ _ E2) as [D2 P2].
      intros H. destruct (IH _ _ H). split; congruence.
    + cbn [obind]. intros H. destruct (IH _ _ H). split; congruence.
Qed.

(** A graph comes out of construction and reading with no vertex
    visited. *)
Lemma build_clear n directed ins g :
  build n directed ins = Some g -> _discovered g = 0 /\ _processed g = 0.
Proof.
  unfold build. rewrite Graph_ctor_eq. cbn [obind]. intros H.
  destruct (read_graph_bits _ _ _ H) as [-> ->]. split; reflexivity.
Qed.

Lemma has_cycle_directed_quiet fuel g :
  _directed g = true -> printed (log_of (has_cycle fuel g)) = [].
Proof.
  intros Hdir. destruct (Nat.ltb_spec 0 (_nvertex g)) as [Hn|Hn].
  - rewrite (has_cycle_unvisit fuel g Hn). unfold log_of. cbn [fst printed].
    unfold detect_cycle. cbn [_directed with_visit]. rewrite Hdir. cbn [negb].
    unfold lift. destruct (detect_directed_cycle _ _); reflexivity.
  - unfold has_cycle. destruct (Nat.ltb_spec 0 (_nvertex g)); [lia|]. reflexivity.
Qed.

(** [main] on [n] vertices, [1 <= n <= MAX_VERTEX], and edges between
    them returns 0.  After ["bfs: "] it prints every vertex once, and
    again after ["\ndfs: "], both times starting with [n/2] where that
    is a vertex; [find_components] then prints one line, [component 1],
    with every vertex once from vertex 1 on, whatever the edges; and
    ["Cycle detected.\n"] ends the output exactly when the graph that
    was read has a directed cycle. *)
Theorem main_output fuel n ins :
  1 <= n <= MAX_VERTEX ->
  Forall (fun p => 1 <= fst p <= n /\ 1 <= snd p <= n) ins ->
  Z.of_nat (length ins) < 2 ^ 31 ->
  (Z.to_nat n < fuel)%nat ->
  exists g o1 o2 o3 (c : bool),
    build (Z.to_nat n) true ins = Some g /\
    main fuel n ins =
    ([Text "bfs: "%string] ++ map Item (map Tvertex o1) ++
     [Text (String.append nl "dfs: "%string)] ++ map Item (map Tvertex o2) ++
     [Text nl] ++
     map Item (Tcomponent 1 :: map Tvertex o3 ++ [Tnewline]) ++
     (if c then [Text (String.append "Cycle detected."%string nl)] else []),
     Some 0) /\
    Permutation o1 (vertices g) /\ Permutation o2 (vertices g) /\
    Permutation o3 (vertices g) /\
    (2 <= n -> hd_error o1 = Some (Z.quot n 2) /\ hd_error o2 = Some (Z.quot n 2)) /\
    hd_error o3 = Some 1 /\
    (c = true <-> has_directed_cycle g).
Proof.
  intros Hn Hall Hlen Hfuel.
  assert (to_size_t n = n) as En.
  { unfold to_size_t. apply Z.mod_small. unfold MAX_VERTEX in Hn. lia. }
  destruct (build_directed_well_formed (Z.to_nat n) ins) as (g & E & Hwf & Hm & Hdir & Hnv).
  { rewrite Z2Nat.id; lia. }
  { eapply Forall_impl; [|exact Hall]. intros p Hp. cbn beta in *. rewrite Z2Nat.id; lia. }
  { exact Hlen. }
  destruct (build_clear _ _ _ _ E) as [Hd Hp].
  assert (g = with_visit g 0 0) as Eg.
  { rewrite (with_visit_eta g) at 1. now rewrite Hd, Hp. }
  rewrite <- Hnv in Hfuel.
  assert (Z.quot n 2 = n / 2) as Eq by (apply Z.quot_div_nonneg; lia).
  assert (- 2 ^ 31 <= Z.quot n 2 < 2 ^ 31) as Hq.
  { rewrite Eq. unfold MAX_VERTEX in Hn.
    pose proof (Z.div_pos n 2). pose proof (Z.div_le_upper_bound n 2 n). lia. }
  assert (2 <= n -> In (Z.quot n 2) (vertices g)) as Hstart.
  { intros H2. apply in_vertices. rewrite Hnv, Z2Nat.id, Eq by lia.
    split; [apply Z.div_le_lower_bound|apply Z.div_le_upper_bound]; lia. }
  destruct (bfs_runs g Hwf fuel Hfuel (Z.quot n 2) 0 0 Hq settled_clear)
    as (l1 & d1 & p1 & o1 & Hr1 & P1 & F1 & D1 & Q1 & R1 & Hh1).
  rewrite Z.testbit_0_l, andb_false_r in P1. cbn [app] in P1.
  destruct (dfs_runs g Hwf fuel Hfuel (Z.quot n 2) 0 0 Hq visit_ok_clear)
    as (l2 & d2 & p2 & o2 & Hr2 & (P2 & F2 & D2 & Q2 & R2 & _) & Hh2).
  destruct (find_components_loop_runs g Hwf fuel Hfuel (vertices g) 1 0 0
              (incl_refl _) visit_ok_clear)
    as (l3 & d3 & p3 & o3 & Hr3 & P3 & F3 & D3 & Q3 & Hh3 & R3 & A3).
  pose proof (fresh_all_undiscovered F1 D1 R1) as Perm1.
  pose proof (fresh_all_undiscovered F2 D2 R2) as Perm2.
  pose proof (fresh_all_undiscovered F3 D3 R3) as Perm3.
  rewrite undiscovered_clear in Perm1, Perm2, Perm3.
  assert (vertices g = 1 :: map Z.of_nat (seq 2 (Z.to_nat n - 1))) as Ev.
  { unfold vertices. rewrite Hnv.
    destruct (Z.to_nat n) as [|k] eqn:Ek; [lia|].
    cbn [seq map]. now rewrite Nat.sub_succ, Nat.sub_0_r. }
  assert (hd_error o3 = Some 1) as H3.
  { rewrite Hh3. rewrite Ev. cbn [filter]. now rewrite Z.testbit_0_l. }
  assert (printed l3 = Tcomponent 1 :: map Tvertex o3 ++ [Tnewline]) as P3'.
  { destruct o3; [discriminate H3 | exact P3]. }
  set (g3 := with_visit g d3 p3).
  assert ((_nvertex g3 <= fuel)%nat) as Hfuel3 by (cbn; lia).
  destruct (has_cycle_kahn g3 fuel Hwf Hm Hdir Hfuel3)
    as (order & g' & U & Hk & Hinv & Hlen' & Hv).
  pose proof (has_cycle_directed_quiet fuel g3 Hdir) as P4.
  destruct (has_cycle fuel g3) as [l4 [[c g4]|]] eqn:E4; [|discriminate Hv].
  unfold value_of in Hv. cbn [snd option_map fst] in Hv. unfold log_of in P4.
  cbn [fst] in P4. injection Hv as Hc.
  exists g, o1, o2, o3, c.
  split; [exact E|]. split.
  - unfold main. rewrite En, E.
    assert (main_body fuel n g =
            ([Text "bfs: "%string] ++ map Item (printed l1) ++
             map Item (printed [Snapshot 0 p1; Snapshot 0 0]) ++
             [Text (String.append nl "dfs: "%string)] ++ map Item (printed l2) ++
             [Text nl] ++
             map Item (printed [Snapshot 0 p2; Snapshot 0 0]) ++
             map Item (printed l3) ++ map Item (printed l4) ++
             (if c then [Text (String.append "Cycle detected."%string nl)] else []) ++ [],
             Some (0, g4))) as ->.
    { unfold main_body.
      eapply pbind_eq; [reflexivity|].
      eapply pbind_eq; [apply call_runs; rewrite Eg at 1; exact Hr1|].
      eapply pbind_eq; [apply call_runs; reflexivity|].
      eapply pbind_eq; [reflexivity|].
      eapply pbind_eq; [apply call_runs; exact Hr2|].
      eapply pbind_eq; [reflexivity|].
      eapply pbind_eq; [apply call_runs; reflexivity|].
      eapply pbind_eq; [apply call_runs; exact Hr3|].
      eapply pbind_eq; [apply call_runs; exact E4|].
      eapply pbind_eq; [|reflexivity].
      destruct c; reflexivity. }
    rewrite P1, P2, P3', P4. cbn [printed map app option_map fst].
    rewrite app_nil_r. reflexivity.
  - split; [exact Perm1|]. split; [exact Perm2|]. split; [exact Perm3|].
    split; [|split; [exact H3|]].
    + intros H2. split; [apply Hh1 | apply Hh2]; auto using Z.testbit_0_l.
    + rewrite Hc. change (_nvertex g3) with (_nvertex g) in Hlen'.
      rewrite negb_true_iff, Nat.eqb_neq. split.
      * intros Hne. apply has_directed_cycle_with_visit with (d := 0) (p := 0).
        apply (kahn_left_over_cycle _ _ _ _ Hinv).
        change (_nvertex (with_visit g3 0 0)) with (_nvertex g). lia.
      * intros Hcy He. apply (kahn_all_popped_acyclic _ _ _ _ Hinv); auto.
Qed.

Lemma main_output_witness :
  exists g o1 o2 o3 (c : bool),
    build (Z.to_nat 3) true [(1, 2); (2, 3); (3, 2)] = Some g /\
    main 4 3 [(1, 2); (2, 3); (3, 2)] =
    ([Text "bfs: "%string] ++ map Item (map Tvertex o1) ++
     [Text (String.append nl "dfs: "%string)] ++ map Item (map Tvertex o2) ++
     [Text nl] ++
     map Item (Tcomponent 1 :: map Tvertex o3 ++ [Tnewline]) ++
     (if c then [Text (String.append "Cycle detected."%string nl)] else []),
     Some 0) /\
    Permutation o1 (vertices g) /\ Permutation o2 (vertices g) /\
    Permutation o3 (vertices g) /\
    (2 <= 3 -> hd_error o1 = Some (Z.quot 3 2) /\ hd_error o2 = Some (Z.quot 3 2)) /\
    hd_error o3 = Some 1 /\
    (c = true <-> has_directed_cycle g).
Proof.
  apply (main_output 4 3 [(1, 2); (2, 3); (3, 2)]).
  - unfold MAX_VERTEX; lia.
  - repeat constructor; cbn; lia.
  - cbn; lia.
  - cbn; lia.
Defined.

(** ** Forests have no cycle *)

Lemma appears_before_In l a b : appears_before l a b -> In a l /\ In b l.
Proof.
  intros (x & y & z & ->). split; rewrite in_app_iff; right.
  - now left.
  - right. rewrite in_app_iff. right. now left.
Qed.

Lemma appears_before_cons x l a b :
  appears_before (x :: l) a b -> (x = a /\ In b l) \/ appears_before l a b.
Proof.
  intros ([|x' p] & q & r & E); cbn [app] in E; inversion E; subst.
  - left. split; auto. rewrite in_app_iff. right. now left.
  - right. now exists p, q, r.
Qed.

Lemma appears_before_antisym l a b :
  NoDup l -> appears_before l a b -> appears_before l b a -> False.
Proof.
  induction l as [|x l IH]; intros Hnd H1 H2.
  - destruct H1 as ([|] & ? & ? & E); discriminate E.
  - inversion Hnd as [|? ? Hx Hl]; subst.
    apply appears_before_cons in H1. apply appears_before_cons in H2.
    destruct H1 as [[-> Hb]|H1], H2 as [[-> Ha]|H2]; auto.
    + apply appears_before_In in H2. tauto.
    + apply appears_before_In in H1. tauto.
Qed.

Lemma appears_before_app l l' a b :
  appears_before l a b -> appears_before (l ++ l') a b.
Proof.
  intros (x & y & z & ->). exists x, y, (z ++ l').
  now rewrite <- !app_assoc, <- !app_comm_cons, <- app_assoc.
Qed.

Lemma appears_before_split l l' a b :
  In a l -> In b l' -> appears_before (l ++ l') a b.
Proof.
  intros Ha Hb. apply in_split in Ha as (x & y & ->). apply in_split in Hb as (z & t & ->).
  exists x, (y ++ z), t.
  repeat (rewrite <- app_assoc || rewrite <- app_comm_cons). reflexivity.
Qed.

(** Of the vertices of [c], one comes last in [ord]. *)
Lemma last_among ord : forall c,
  c <> [] -> incl c ord ->
  exists x, In x c /\ forall y, In y c -> y = x \/ appears_before ord y x.
Proof.
  induction ord as [|a ord IH] using rev_ind; intros c Hc Hin.
  - destruct c as [|x c]; [contradiction|]. destruct (Hin x); now left.
  - destruct (in_dec Z.eq_dec a c) as [Ha|Ha].
    + exists a. split; [exact Ha|]. intros y Hy.
      destruct (Z.eq_dec y a) as [|Hne]; [now left|right].
      apply appears_before_split; [|now left].
      apply Hin in Hy. apply in_app_iff in Hy as [Hy|[Hy|[]]]; congruence.
    + destruct (IH c Hc) as (x & Hx & Hlast).
      { intros y Hy. pose proof (Hin y Hy) as H. apply in_app_iff in H as [H|[H|[]]]; auto.
        congruence. }
      exists x. split; [exact Hx|]. intros y Hy.
      destruct (Hlast y Hy); auto using appears_before_app.
Qed.

Lemma chain_app_r g l1 : forall l2, chain g (l1 ++ l2) -> chain g l2.
Proof.
  induction l1 as [|a l1 IH]; intros l2 H; [exact H|].
  apply IH. destruct l1 as [|b l1]; cbn [app chain] in *.
  - destruct l2; [exact I|]. apply H.
  - apply H.
Qed.

Lemma chain_mid g l1 a b l2 : chain g (l1 ++ a :: b :: l2) -> edge g a b.
Proof. intros H. apply chain_app_r in H. apply H. Qed.

Lemma chain_snoc g l a b : chain g (l ++ [a]) -> edge g a b -> chain g ((l ++ [a]) ++ [b]).
Proof.
  induction l as [|x l IH]; intros H He; cbn [app chain] in *.
  - auto.
  - destruct l as [|y l]; cbn [app] in *.
    + destruct H. auto.
    + destruct H as [H1 H2]. split; [exact H1|]. apply IH; auto.
Qed.

Lemma count_occ_filter (f : Z -> bool) l x :
  count_occ Z.eq_dec (filter f l) x
  = if f x then count_occ Z.eq_dec l x else 0%nat.
Proof.
  induction l as [|a l IH]; cbn [filter count_occ].
  - now destruct (f x).
  - destruct (f a) eqn:Ea; cbn [count_occ]; destruct (Z.eq_dec a x) as [->|Hne]; rewrite IH.
    + now rewrite Ea.
    + reflexivity.
    + now rewrite Ea.
    + reflexivity.
Qed.

Lemma chain_sources g : forall l b x,
  chain g (l ++ [b]) -> In x l -> In x (vertices g).
Proof.
  induction l as [|a l IH]; intros b x H Hx; [contradiction|].
  assert (edge g a (hd b l) /\ chain g (l ++ [b])) as [He Hc].
  { destruct l; cbn [app chain hd] in *; exact H. }
  destruct Hx as [<-|Hx]; [apply He | eapply IH; eauto].
Qed.

Lemma ring_vertices g c : ring g c -> incl c (vertices g).
Proof.
  intros [Hch Hcl] x Hx.
  destruct (exists_last (l := c)) as (l & b & ->); [intros ->; contradiction|].
  rewrite last_last in Hcl. apply in_app_iff in Hx as [Hx|[<-|[]]].
  - eapply chain_sources; eauto.
  - apply Hcl.
Qed.

Ltac in_list := repeat (rewrite in_app_iff || cbn [In]); intuition congruence.

(** Where every vertex is finished, there is no cycle. *)
Lemma forest_no_cycle g0 g ord :
  wfb g0 = true -> symmetric g0 ->
  forest_inv g0 g ord [] ->
  (forall x, In x (vertices g0) -> In x ord) ->
  ~ undirected_cycle g0.
Proof.
  intros Hwf Hsym (Hnd & Hord & Hpar & Hfin) Hall.
  assert (forall x, In x (vertices g0) -> finished g0 g x) as Hdone.
  { intros x Hx. destruct (Hfin x (Hall x Hx)) as [[]|H]. exact H. }
  assert (forall x y, In x (vertices g0) -> In y (vertices g0) ->
                      parent_of g y = x -> appears_before ord x y) as Hup.
  { intros x y Hx Hy E. destruct (Hpar y (Hall y Hy)) as [H|H].
    - rewrite E in H. contradiction.
    - now rewrite E in H. }
  assert (forall x y, edge g0 x y -> parent_of g x = y \/ parent_of g y = x) as Hexp.
  { intros x y [Hx Hy]. destruct (Hdone x Hx) as [H _]. apply (H y Hy). }
  assert (forall x y, edge g0 x y -> In y (vertices g0)) as Htgt.
  { intros x y [Hx Hy]. exact (wfb_targets g0 Hwf x y Hx Hy). }
  assert (forall x y, edge g0 x y -> edge g0 y x) as Hflip.
  { intros x y He. pose proof (Htgt x y He) as Hy. destruct He as [Hx Hxy].
    split; [exact Hy|]. apply (count_occ_In Z.eq_dec). rewrite <- (Hsym x y Hx Hy).
    now apply (count_occ_In Z.eq_dec). }
  intros [(v & He) | [(u & v & Hu & Hne & Hc) | (c & Hlen & Hndc & Hch & Hcl)]].
  - (* an edge from [v] to itself *)
    destruct (Hexp v v He) as [E|E];
      apply (appears_before_antisym ord v v Hnd); apply Hup; auto; apply He.
  - (* two edges between [u] and [v] *)
    assert (In v (succs g0 u)) as Huv by (apply (count_occ_In Z.eq_dec); lia).
    assert (In v (vertices g0)) as Hv by (exact (wfb_targets g0 Hwf u v Hu Huv)).
    assert (forall a b, In a (vertices g0) -> In b (vertices g0) ->
                        (2 <= count_occ Z.eq_dec (succs g0 a) b)%nat ->
                        parent_of g a = b) as Htwice.
    { intros a b Ha Hb H2. destruct (Hdone a Ha) as [_ Hf].
      destruct (Z.eq_dec b (parent_of g a)) as [|Hnp]; [congruence|].
      rewrite (NoDup_count_occ Z.eq_dec) in Hf. specialize (Hf b).
      rewrite count_occ_filter in Hf.
      destruct (Z.eqb_spec b (parent_of g a)); [contradiction|]. cbn [negb] in Hf. lia. }
    apply (appears_before_antisym ord u v Hnd).
    + apply Hup; [exact Hu|exact Hv|]. apply Htwice; [exact Hv|exact Hu|].
      rewrite <- (Hsym u v Hu Hv). exact Hc.
    + apply Hup; [exact Hv|exact Hu|]. apply Htwice; [exact Hu|exact Hv|exact Hc].
  - (* a ring *)
    assert (incl c (vertices g0)) as Hcv by (exact (ring_vertices g0 c (conj Hch Hcl))).
    destruct (last_among ord c) as (x & Hx & Hlast).
    { intros ->. cbn in Hlen. lia. }
    { intros y Hy. auto. }
    assert (forall s, edge g0 x s -> In s c -> s <> x -> parent_of g x = s) as K1.
    { intros s He Hs Hne. destruct (Hexp x s He) as [E|E]; [exact E|]. exfalso.
      destruct (Hlast s Hs) as [|Hb]; [contradiction|].
      apply (appears_before_antisym ord s x Hnd Hb). apply Hup; auto. }
    assert (forall p, edge g0 p x -> In p c -> p <> x -> parent_of g x = p) as K2.
    { intros p He Hp Hne. apply K1; auto. }
    apply in_split in Hx as (l1 & l2 & ->).
    destruct l1 as [|h l1'].
    + (* [x] is the first vertex of the ring *)
      destruct l2 as [|s l2']; [cbn in Hlen; lia|].
      destruct (exists_last (l := l2')) as (m & q & ->); [intros ->; cbn in Hlen; lia|].
      cbn [app] in *. destruct Hch as [Hxs _].
      change (x :: s :: m ++ [q]) with ((x :: s :: m) ++ [q]) in Hcl.
      rewrite last_last in Hcl. cbn [hd app] in Hcl.
      inversion Hndc as [|? ? Hx1 Hnd1]; subst. inversion Hnd1 as [|? ? Hs1 Hnd2]; subst.
      assert (s <> x) by (intros ->; apply Hx1; in_list).
      assert (q <> x).
      { intros ->. apply Hx1. in_list. }
      assert (s <> q).
      { intros ->. apply Hs1. in_list. }
      assert (parent_of g x = s) by (apply K1; auto; in_list).
      assert (parent_of g x = q).
      { apply K2; auto. in_list. }
      congruence.
    + destruct l2 as [|s l2'].
      * (* [x] is the last vertex of the ring *)
        destruct (exists_last (l := l1')) as (m & p & ->).
        { intros ->. cbn in Hlen. lia. }
        rewrite last_last in Hcl. cbn [hd app] in Hcl.
        assert ((h :: m ++ [p]) ++ [x] = (h :: m) ++ p :: x :: []) as E1
            by (cbn [app]; rewrite <- app_assoc; reflexivity).
        rewrite E1 in Hch, Hndc.
        pose proof (chain_mid _ _ _ _ _ Hch) as Hpx.
        cbn [app] in Hndc.
        inversion Hndc as [|? ? Hh1 Hnd1]; subst.
        apply NoDup_remove_2 in Hnd1.
        assert (h <> x).
        { intros ->. apply Hh1. in_list. }
        assert (h <> p).
        { intros ->. apply Hh1. in_list. }
        assert (p <> x).
        { intros ->. apply Hnd1. in_list. }
        assert (parent_of g x = h) by (apply K1; auto; in_list).
        assert (parent_of g x = p).
        { apply K2; auto. in_list. }
        congruence.
      * (* [x] has a vertex before it and one behind it *)
        destruct (exists_last (l := h :: l1')) as (m & p & E); [discriminate|].
        rewrite E in *. clear E.
        pose proof (chain_mid g0 (m ++ [p]) x s l2' Hch) as Hxs.
        rewrite <- app_assoc in Hch, Hndc. cbn [app] in Hch, Hndc.
        pose proof (chain_mid g0 m p x (s :: l2') Hch) as Hpx.
        pose proof (NoDup_remove_2 _ _ _ Hndc) as Hp.
        change (m ++ p :: x :: s :: l2') with (m ++ [p] ++ x :: s :: l2') in Hndc.
        rewrite app_assoc in Hndc.
        pose proof (NoDup_remove_2 _ _ _ Hndc) as Hx1.
        assert (p <> x).
        { intros ->. apply Hp. in_list. }
        assert (p <> s).
        { intros ->. apply Hp. in_list. }
        assert (s <> x).
        { intros ->. apply Hx1. in_list. }
        assert (parent_of g x = s).
        { apply K1; auto. in_list. }
        assert (parent_of g x = p).
        { apply K2; auto. in_list. }
        congruence.
Qed.

(** ** The search for a cycle in an undirected graph *)

Lemma parent_of_put g w v x :
  0 <= w < Z.of_nat (length (buf (_parent g))) ->
  parent_of (with_parent g (list_set (buf (_parent g)) (Z.to_nat w) v)) x
  = if x =? w then v else parent_of g x.
Proof.
  intros Hw. unfold parent_of, parent_at. cbn [_parent with_parent buf].
  destruct (Z.eqb_spec x w) as [->|Hne].
  - now rewrite slot_list_set_same.
  - rewrite slot_list_set_other by lia. reflexivity.
Qed.

Lemma NoDup_app_apart (l1 l2 : list Z) x :
  NoDup (l1 ++ l2) -> In x l1 -> In x l2 -> False.
Proof.
  induction l1 as [|a l1 IH]; intros Hnd H1 H2; [contradiction|].
  inversion Hnd as [|? ? Ha Hl]; subst. destruct H1 as [->|H1]; auto.
  apply Ha. apply in_app_iff. now right.
Qed.

Lemma keeps_refl g : keeps g g.
Proof. intros y Hy. auto. Qed.

Lemma keeps_trans g1 g2 g3 : keeps g1 g2 -> keeps g2 g3 -> keeps g1 g3.
Proof.
  intros H1 H2 y Hy. destruct (H1 y Hy) as [Hy2 E2]. destruct (H2 y Hy2) as [Hy3 E3].
  split; congruence.
Qed.

Lemma seen_keeps g g' x pre :
  keeps g g' -> parent_of g' x = parent_of g x -> seen g x pre -> seen g' x pre.
Proof.
  intros Hk Ex [H1 H2]. split.
  - intros y Hy. destruct (H1 y Hy) as [Hd Hp]. destruct (Hk y Hd) as [Hd' Ey].
    split; [exact Hd'|]. rewrite Ex, Ey. exact Hp.
  - now rewrite Ex.
Qed.

Lemma seen_nil g x : seen g x [].
Proof. split; [intros y []|constructor]. Qed.

Lemma seen_snoc g x pre w :
  seen g x pre -> Z.testbit (_discovered g) w = true ->
  parent_of g x = w \/ (parent_of g w = x /\ ~ In w pre) ->
  seen g x (pre ++ [w]).
Proof.
  intros [H1 H2] Hd Hw. split.
  - intros y Hy. apply in_app_iff in Hy as [Hy|[<-|[]]]; [auto|].
    split; [exact Hd|]. tauto.
  - rewrite filter_app. cbn [filter].
    destruct (Z.eqb_spec w (parent_of g x)) as [E|Hne]; cbn [negb].
    + now rewrite app_nil_r.
    + destruct Hw as [E|[_ Hn]]; [congruence|].
      apply NoDup_app; [exact H2|repeat constructor; intros []|].
      intros y Hy [<-|[]]. apply filter_In in Hy. tauto.
Qed.

Lemma forest_inv_keeps g0 g g' ord act :
  forest_inv g0 g ord act -> keeps g g' ->
  (forall x, In x (vertices g0) -> Z.testbit (_discovered g') x = true ->
             Z.testbit (_discovered g) x = true) ->
  forest_inv g0 g' ord act.
Proof.
  intros (Hnd & Hord & Hpar & Hfin) Hk Hsame.
  assert (forall x, In x ord -> parent_of g' x = parent_of g x) as Hp.
  { intros x Hx. apply Hord in Hx as [_ Hx]. apply (Hk x Hx). }
  split; [exact Hnd|]. split; [|split].
  - intros x. rewrite Hord. split; intros [Hx Hd]; split; auto. apply (Hk x Hd).
  - intros x Hx. rewrite (Hp x Hx). auto.
  - intros x Hx. destruct (Hfin x Hx) as [H|H]; [now left|right].
    apply (seen_keeps g g'); auto.
Qed.

Lemma forest_inv_retire g0 g ord act v :
  forest_inv g0 g ord (v :: act) -> finished g0 g v -> forest_inv g0 g ord act.
Proof.
  intros (Hnd & Hord & Hpar & Hfin) Hv. split; [exact Hnd|]. split; [exact Hord|].
  split; [exact Hpar|]. intros x Hx. destruct (Hfin x Hx) as [[<-|H]|H]; auto.
Qed.

Lemma forest_inv_weaken g0 g ord act act' :
  forest_inv g0 g ord act -> incl act act' -> forest_inv g0 g ord act'.
Proof.
  intros (Hnd & Hord & Hpar & Hfin) Hi. split; [exact Hnd|]. split; [exact Hord|].
  split; [exact Hpar|]. intros x Hx. destruct (Hfin x Hx); auto.
Qed.

Section UndirectedSearch.
Variable g0 : Graph.
Hypothesis Hwf : wfb g0 = true.
Hypothesis Hsym : symmetric g0.

Lemma edge_flip x y : edge g0 x y -> edge g0 y x.
Proof.
  intros [Hx Hxy]. pose proof (wfb_targets g0 Hwf x y Hx Hxy) as Hy.
  split; [exact Hy|]. apply (count_occ_In Z.eq_dec). rewrite <- (Hsym x y Hx Hy).
  now apply (count_occ_In Z.eq_dec).
Qed.

(** Discovering [v], which came from the top of [stk]. *)
Lemma forest_inv_discover g ord stk v :
  forest_inv g0 g ord stk -> In v (vertices g0) -> Z.testbit (_discovered g) v = false ->
  incl stk ord -> came_from g0 g stk v ->
  forest_inv g0 (with_visit g (Z.setbit (_discovered g) v) (_processed g))
             (ord ++ [v]) (v :: stk).
Proof.
  intros (Hnd & Hord & Hpar & Hfin) Hv Hd Hstk Hfrom.
  pose proof (bit_ok_nonneg v (bit_ok_vertex g0 v Hwf Hv)) as Hv0.
  set (g1 := with_visit g _ _).
  assert (keeps g g1) as Hk.
  { intros y Hy. split; [|reflexivity]. cbn. apply testbit_setbit; auto. }
  assert (~ In v ord) as Hnv.
  { intros H. apply Hord in H as [_ H]. congruence. }
  split; [|split; [|split]].
  - apply NoDup_app; [exact Hnd|repeat constructor; intros []|].
    intros y Hy [<-|[]]. contradiction.
  - intros x. rewrite in_app_iff, Hord. cbn [In g1 _discovered with_visit].
    rewrite testbit_setbit by exact Hv0. split.
    + intros [[H1 H2]|[<-|[]]]; auto.
    + intros [H1 [H2 | ->]]; auto.
  - intros x Hx. change (parent_of g1 x) with (parent_of g x).
    apply in_app_iff in Hx as [Hx|[<-|[]]].
    + destruct (Hpar x Hx); auto using appears_before_app.
    + destruct stk as [|p stk']; cbn [came_from] in Hfrom; [now left|right].
      rewrite Hfrom. apply appears_before_split; [|now left]. apply Hstk. now left.
  - intros x Hx. apply in_app_iff in Hx as [Hx|[<-|[]]]; [|left; now left].
    destruct (Hfin x Hx) as [H|H]; [left; now right|right].
    apply (seen_keeps g g1); auto.
Qed.

(** A discovered edge target that is not the parent closes a cycle. *)
Lemma back_edge_cycle g ord new stk v pre w rest :
  forest_inv g0 g (ord ++ v :: new) (v :: stk) ->
  In v (vertices g0) -> NoDup (v :: stk) -> chain g0 (rev stk ++ [v]) ->
  came_from g0 g stk v ->
  succs g0 v = pre ++ w :: rest ->
  (forall x, In x (ord ++ v :: new) -> parent_of g x = v -> In x pre) ->
  Z.testbit (_discovered g) w = true -> parent_of g v <> w ->
  undirected_cycle g0.
Proof.
  intros (Hnd & Hord & Hpar & Hfin) Hv Hstk Hch Hfrom Hsucc Hchild Hd Hne.
  assert (edge g0 v w) as He.
  { split; [exact Hv|]. rewrite Hsucc. apply in_app_iff. right. now left. }
  assert (In w (vertices g0)) as Hw by (exact (wfb_targets g0 Hwf v w (proj1 He) (proj2 He))).
  destruct (Z.eq_dec w v) as [->|Hwv]; [left; now exists v|].
  assert (In w (ord ++ v :: new)) as Hin by (apply Hord; auto).
  destruct (Hfin w Hin) as [[E|Hws]|Hdone]; [congruence| |].
  - (* [w] is further up on the way to [v] *)
    right. right. destruct stk as [|p stk']; [contradiction|].
    cbn [came_from] in Hfrom. destruct Hws as [E|Hws]; [congruence|].
    apply in_rev in Hws. apply in_split in Hws as (l1 & l2 & E).
    assert (rev (p :: stk') ++ [v] = l1 ++ ((w :: l2 ++ [p]) ++ [v])) as Er.
    { cbn [rev]. rewrite E. repeat (rewrite <- app_assoc || rewrite <- app_comm_cons).
      reflexivity. }
    exists ((w :: l2 ++ [p]) ++ [v]). split; [|split; [|split]].
    + rewrite length_app. cbn [length]. rewrite length_app. cbn [length]. lia.
    + apply NoDup_rev in Hstk. cbn [rev] in Hstk. cbn [rev] in Er. rewrite Er in Hstk.
      eapply NoDup_app_remove_l; exact Hstk.
    + rewrite Er in Hch. eapply chain_app_r; exact Hch.
    + rewrite last_last. exact He.
  - (* [w] is finished *)
    right. left. exists v, w. split; [exact Hv|]. split; [congruence|].
    destruct Hdone as [H1 _]. destruct (H1 v (proj2 (edge_flip v w He))) as [_ [E|E]];
      [|congruence].
    pose proof (Hchild w Hin E) as Hpre.
    rewrite Hsucc, count_occ_app. cbn [count_occ].
    destruct (Z.eq_dec w w); [|congruence].
    apply (count_occ_In Z.eq_dec) in Hpre. lia.
Qed.

(** The loop of [detect_undirected_cycle] over the edges of [v]. *)
Lemma cycle_edges_forest f v stk :
  detect_spec g0 f ->
  In v (vertices g0) -> NoDup (v :: stk) -> chain g0 (rev stk ++ [v]) ->
  forall es pre g ord new,
    succs g0 v = pre ++ map to es ->
    parents_apart g0 g -> Z.testbit (_discovered g) v = true ->
    (length (undiscovered g0 (_discovered g)) < f)%nat ->
    forest_inv g0 g (ord ++ v :: new) (v :: stk) -> clean_but g0 g [] ->
    incl stk ord -> came_from g0 g stk v ->
    seen g v pre ->
    (forall x, In x (ord ++ v :: new) -> parent_of g x = v -> In x pre) ->
    (forall x, In x new -> In (parent_of g x) (v :: new)) ->
    exists l b g',
      runs (any_edge es (cycle_edge (detect_undirected_cycle f) v)) g l b g' /\
      parents_apart g0 g' /\
      if b then undirected_cycle g0
      else exists new',
          forest_inv g0 g' (ord ++ v :: new') (v :: stk) /\ clean_but g0 g' [] /\
          keeps g g' /\ seen g' v (pre ++ map to es) /\
          (forall x, In x new' -> In (parent_of g' x) (v :: new')).
Proof.
  intros Hrec Hv Hstk Hch.
  induction es as [|e es IH];
    intros pre g ord new Hsucc Hg Hdv Hfuel Hinv Hclean Hso Hfrom Hseen Hchild Hnew.
  - exists [], false, g. split; [apply runs_ret|]. split; [exact Hg|].
    exists new. cbn [map]. rewrite app_nil_r. auto using keeps_refl.
  - cbn [map] in Hsucc. set (w := to e) in *.
    assert (edge g0 v w) as He.
    { split; [exact Hv|]. rewrite Hsucc. apply in_app_iff. right. now left. }
    assert (In w (vertices g0)) as Hw
        by (exact (wfb_targets g0 Hwf v w (proj1 He) (proj2 He))).
    pose proof (bit_ok_vertex g0 w Hwf Hw) as Hb.
    assert (pre ++ w :: map to es = (pre ++ [w]) ++ map to es) as Eassoc
        by (now rewrite <- app_assoc).
    pose proof Hinv as (Hnd & Hord & Hpar & Hfin).
    destruct (Z.testbit (_discovered g) w) eqn:Edw.
    + (* the target is discovered *)
      destruct (slot_in_range (buf (_parent g)) v (parent_slot g0 Hwf g v Hg Hv)) as [p Ep].
      assert (parent_of g v = p) as Epv by (unfold parent_of, parent_at; now rewrite Ep).
      assert (runs (cycle_edge (detect_undirected_cycle f) v e) g
                   ([] ++ [] ++ []) (negb (p =? w)) g) as Hr1.
      { unfold cycle_edge. fold w.
        eapply runs_bind; [apply runs_get_discovered; exact Hb|].
        rewrite Edw. cbn [negb].
        eapply runs_bind; [apply runs_get_parent; exact Ep|]. apply runs_ret. }
      destruct (Z.eqb_spec p w) as [Epw|Hpw]; cbn [negb] in Hr1.
      * destruct (IH (pre ++ [w]) g ord new) as (l & b & g' & Hr & Hg' & Hpost); auto.
        { now rewrite <- Eassoc. }
        { apply seen_snoc; auto. left. congruence. }
        { intros x Hx E. apply in_app_iff. left. auto. }
        exists (([] ++ [] ++ []) ++ l), b, g'. split.
        { cbn [any_edge]. eapply runs_bind; [exact Hr1|]. exact Hr. }
        split; [exact Hg'|]. destruct b; [exact Hpost|].
        destruct Hpost as (new' & H1 & H2 & H3 & H4 & H5).
        exists new'. cbn [map]. fold w. rewrite Eassoc. auto.
      * exists (([] ++ [] ++ []) ++ []), true, g. split.
        { cbn [any_edge]. eapply runs_bind; [exact Hr1|]. apply runs_ret. }
        split; [exact Hg|].
        apply (back_edge_cycle g ord new stk v pre w (map to es)); auto. congruence.
    + (* the target is new *)
      pose proof (parent_slot g0 Hwf g w Hg Hw) as Hslot.
      set (g1 := with_parent g (list_set (buf (_parent g)) (Z.to_nat w) v)).
      assert (forall x, parent_of g1 x = if x =? w then v else parent_of g x) as Hp1
          by (intros x; apply parent_of_put; exact Hslot).
      assert (parents_apart g0 g1) as Hg1.
      { destruct Hg as (H1 & H2 & H3 & H4 & H5). unfold g1.
        repeat split; auto. cbn. now rewrite list_set_length. }
      assert (keeps g g1) as Hk1.
      { intros y Hy. split; [exact Hy|]. rewrite Hp1.
        destruct (Z.eqb_spec y w); [congruence|reflexivity]. }
      assert (~ In w (ord ++ v :: new)) as Hwn.
      { intros H. apply Hord in H as [_ H]. congruence. }
      destruct (Hrec w g1 (ord ++ v :: new) (v :: stk)) as (l1 & b1 & g2 & Hr1 & Hg2 & Hpost1).
      { exact Hg1. }
      { exact Hw. }
      { exact Edw. }
      { exact Hfuel. }
      { apply (forest_inv_keeps g0 g g1); auto. }
      { intros x Hx Hne Hdx. rewrite Hp1.
        destruct (Z.eqb_spec x w) as [->|]; [exfalso; apply Hne; now left|].
        apply Hclean; auto. }
      { exact Hstk. }
      { intros x [<-|Hx]; [in_list|]. apply in_app_iff. left. auto. }
      { cbn [rev]. apply chain_snoc; [exact Hch|exact He]. }
      { cbn [came_from]. rewrite Hp1. now rewrite Z.eqb_refl. }
      assert (runs (cycle_edge (detect_undirected_cycle f) v e) g
                   ([] ++ [] ++ l1) b1 g2) as Hr1'.
      { unfold cycle_edge. fold w.
        eapply runs_bind; [apply runs_get_discovered; exact Hb|].
        rewrite Edw. cbn [negb].
        eapply runs_bind; [apply runs_put_parent; exact Hslot|]. exact Hr1. }
      destruct b1.
      * exists (([] ++ [] ++ l1) ++ []), true, g2. split.
        { cbn [any_edge]. eapply runs_bind; [exact Hr1'|]. apply runs_ret. }
        split; [exact Hg2|exact Hpost1].
      * destruct Hpost1 as (nw & Hwnw & Hinv2 & Hclean2 & Hk2 & Epw & Hnw).
        pose proof (keeps_trans _ _ _ Hk1 Hk2) as Hk.
        rewrite Hp1, Z.eqb_refl in Epw.
        assert ((ord ++ v :: new) ++ nw = ord ++ v :: new ++ nw) as Eord
            by (now rewrite <- app_assoc).
        pose proof Hinv2 as (Hnd2 & Hord2 & _).
        assert (Z.testbit (_discovered g2) w = true) as Hdw2.
        { apply Hord2. apply in_app_iff. right. exact Hwnw. }
        assert (forall x, In x (ord ++ v :: new) -> parent_of g2 x = parent_of g x) as Hold.
        { intros x Hx. apply Hord in Hx as [_ Hx]. apply (Hk x Hx). }
        assert (parent_of g2 v = parent_of g v) as Epv by (apply (Hk v Hdv)).
        destruct (IH (pre ++ [w]) g2 ord (new ++ nw)) as (l & b & g' & Hr & Hg' & Hpost).
        { now rewrite <- Eassoc. }
        { exact Hg2. }
        { apply (Hk v Hdv). }
        { pose proof (undiscovered_le g0 (_discovered g) (_discovered g2)
                        (fun x Hx => proj1 (Hk x Hx))). lia. }
        { rewrite <- Eord. exact Hinv2. }
        { exact Hclean2. }
        { exact Hso. }
        { destruct stk; cbn [came_from] in *; now rewrite Epv. }
        { apply seen_snoc.
          - apply (seen_keeps g g2); auto.
          - exact Hdw2.
          - right. split; [exact Epw|]. intros Hin. destruct Hseen as [Hs _].
            destruct (Hs w Hin) as [Hd _]. congruence. }
        { intros x Hx E. rewrite <- Eord in Hx. apply in_app_iff.
          apply in_app_iff in Hx as [Hx|Hx].
          - left. apply Hchild; auto. now rewrite <- (Hold x Hx).
          - destruct (Hnw x Hx) as [->|Hpx]; [right; now left|].
            exfalso. rewrite E in Hpx.
            apply (NoDup_app_apart _ _ v Hnd2); [in_list|exact Hpx]. }
        { intros x Hx. apply in_app_iff in Hx as [Hx|Hx].
          - rewrite Hold by in_list. specialize (Hnew x Hx). revert Hnew. in_list.
          - destruct (Hnw x Hx) as [->|Hpx]; [rewrite Epw; now left|]. in_list. }
        exists (([] ++ [] ++ l1) ++ l), b, g'. split.
        { cbn [any_edge]. eapply runs_bind; [exact Hr1'|]. exact Hr. }
        split; [exact Hg'|]. destruct b; [exact Hpost|].
        destruct Hpost as (new' & H1 & H2 & H3 & H4 & H5).
        exists new'. cbn [map]. fold w. rewrite Eassoc.
        split; [exact H1|]. split; [exact H2|]. split; [|split; [exact H4|exact H5]].
        exact (keeps_trans _ _ _ Hk H3).
Qed.

Lemma detect_undirected_cycle_forest fuel : detect_spec g0 fuel.
Proof.
  induction fuel as [|f IH]; intros v g ord stk Hg Hv Hd Hfuel Hinv Hclean Hstk Hso Hch Hfrom;
    [lia|].
  pose proof (bit_ok_vertex g0 v Hwf Hv) as Hb.
  pose proof (bit_ok_nonneg v Hb) as Hv0.
  pose proof Hinv as (Hnd & Hord & Hpar & Hfin).
  destruct (wfb_vertex_at g0 Hwf v Hv) as [vx Evx].
  assert (map to (neighbors vx) = succs g0 v) as Esucc
      by (unfold succs; now rewrite Evx).
  set (g1 := with_visit g (Z.setbit (_discovered g) v) (_processed g)).
  assert (parents_apart g0 g1) as Hg1 by (now apply parents_apart_set_discovered).
  assert (keeps g g1) as Hk1.
  { intros y Hy. split; [|reflexivity]. cbn. apply testbit_setbit; auto. }
  assert (Z.testbit (_discovered g1) v = true) as Hdv1 by (cbn; now apply Z.setbit_eq).
  assert (vertex_at g1 v = Some vx) as Evx1.
  { unfold vertex_at. cbn [g1 with_visit _vertex].
    destruct Hg as (-> & _). exact Evx. }
  assert (~ In v stk) as Hvs.
  { intros H. apply Hso in H. apply Hord in H as [_ H]. congruence. }
  destruct (cycle_edges_forest f v stk IH Hv) with
      (es := neighbors vx) (pre := @nil Z) (g := g1) (ord := ord) (new := @nil Z)
    as (l & b & g' & Hr & Hg' & Hpost).
  { constructor; auto. }
  { exact Hch. }
  { now rewrite Esucc. }
  { exact Hg1. }
  { exact Hdv1. }
  { assert (length (undiscovered g0 (_discovered g1))
            < length (undiscovered g0 (_discovered g)))%nat.
    { apply undiscovered_lt with (v := v); auto. intros x Hx. apply (Hk1 x Hx). }
    lia. }
  { apply forest_inv_discover; auto. }
  { intros x Hx _ Hdx. change (parent_of g1 x) with (parent_of g x).
    assert (x <> v) as Hne by (intros ->; congruence).
    apply Hclean; auto.
    - intros [E|[]]. congruence.
    - destruct (Z.testbit (_discovered g) x) eqn:E; auto.
      rewrite (proj1 (Hk1 x E)) in Hdx. discriminate. }
  { exact Hso. }
  { destruct stk; exact Hfrom. }
  { apply seen_nil. }
  { intros x Hx E. change (parent_of g1 x) with (parent_of g x) in E.
    apply in_app_iff in Hx as [Hx|[<-|[]]].
    - destruct (Hpar x Hx) as [H|H]; [rewrite E in H; contradiction|].
      apply appears_before_In in H as [H _]. rewrite E in H.
      apply Hord in H as [_ H]. congruence.
    - destruct stk as [|p stk']; cbn [came_from] in Hfrom.
      + rewrite E in Hfrom. contradiction.
      + apply Hvs. rewrite <- E, Hfrom. now left. }
  { intros x []. }
  exists ([] ++ [Snapshot (Z.setbit (_discovered g) v) (_processed g)] ++ [] ++ l), b, g'.
  split.
  - cbn [detect_undirected_cycle].
    eapply runs_bind; [apply runs_get_discovered; exact Hb|].
    rewrite Hd. cbn [negb].
    eapply runs_bind; [apply runs_set_discovered; exact Hb|].
    eapply runs_bind; [apply runs_get_vertex; exact Evx1|]. exact Hr.
  - split; [exact Hg'|]. unfold search_ok. destruct b; [exact Hpost|].
    destruct Hpost as (new' & H1 & H2 & H3 & H4 & H5).
    cbn [app] in H4. rewrite Esucc in H4.
    exists (v :: new'). split; [now left|]. split; [|split; [exact H2|split; [|split]]].
    + apply (forest_inv_retire g0 g' _ stk v); auto.
    + exact (keeps_trans _ _ _ Hk1 H3).
    + apply (H3 v Hdv1).
    + intros x [<-|Hx]; [now left|right]. auto.
Qed.
End UndirectedSearch.

(** ** [has_cycle] on undirected graphs *)

(** Once a cycle has been found, the loop of [has_cycle] keeps the
    answer. *)
Lemma undirected_scan_sticky fuel : forall ids g l b g',
  runs (undirected_scan fuel ids true) g l b g' -> b = true.
Proof.
  induction ids as [|i ids IH]; intros g l b g' H; cbn [undirected_scan] in H;
    unfold runs in H.
  - unfold ret in H. now inversion H.
  - unfold bind in H.
    destruct (get_discovered i g) as [l1 [[d g1]|]]; [|discriminate].
    destruct d; cbn [negb] in H.
    + destruct (undirected_scan fuel ids true g1) as [l2 r] eqn:E2.
      inversion H; subst. exact (IH _ _ _ _ E2).
    + destruct (detect_undirected_cycle fuel (to_int i) g1) as [l2 [[r g2]|]];
        [|discriminate].
      cbn [orb] in H.
      destruct (undirected_scan fuel ids true g2) as [l3 r3] eqn:E3.
      inversion H; subst. exact (IH _ _ _ _ E3).
Qed.

Section UndirectedScan.
Variable g0 : Graph.
Hypothesis Hwf : wfb g0 = true.
Hypothesis Hsym : symmetric g0.
Variable fuel : nat.
Hypothesis Hfuel : (_nvertex g0 < fuel)%nat.

Lemma undirected_scan_forest : forall ids g ord,
  parents_apart g0 g -> incl ids (vertices g0) ->
  forest_inv g0 g ord [] -> clean_but g0 g [] ->
  exists l b g',
    runs (undirected_scan fuel ids false) g l b g' /\
    if b then undirected_cycle g0
    else exists ord',
        forest_inv g0 g' ord' [] /\ (forall i, In i ids -> In i ord') /\ incl ord ord'.
Proof.
  induction ids as [|i ids IH]; intros g ord Hg Hids Hinv Hclean.
  - exists [], false, g. split; [apply runs_ret|]. exists ord.
    split; [exact Hinv|]. split; [intros i []|apply incl_refl].
  - assert (In i (vertices g0)) as Hi by (apply Hids; now left).
    assert (incl ids (vertices g0)) as Hids' by (intros x Hx; apply Hids; now right).
    pose proof (bit_ok_vertex g0 i Hwf Hi) as Hb.
    pose proof Hinv as (Hnd & Hord & _).
    cbn [undirected_scan]. destruct (Z.testbit (_discovered g) i) eqn:Ed.
    + destruct (IH g ord Hg Hids' Hinv Hclean) as (l & b & g' & Hr & Hpost).
      exists ([] ++ l), b, g'. split.
      * eapply runs_bind; [apply runs_get_discovered; exact Hb|].
        rewrite Ed. exact Hr.
      * destruct b; [exact Hpost|]. destruct Hpost as (ord' & H1 & H2 & H3).
        exists ord'. split; [exact H1|]. split; [|exact H3].
        intros x [<-|Hx]; auto. apply H3. apply Hord. auto.
    + destruct (detect_undirected_cycle_forest g0 Hwf Hsym fuel i g ord [])
        as (l1 & b1 & g1 & Hr1 & Hg1 & Hpost1).
      { exact Hg. }
      { exact Hi. }
      { exact Ed. }
      { pose proof (undiscovered_bound g0 (_discovered g)). lia. }
      { exact Hinv. }
      { intros x Hx _ Hdx. apply Hclean; auto. }
      { constructor. }
      { intros x []. }
      { exact I. }
      { cbn [came_from]. apply Hclean; auto. }
      destruct b1.
      * destruct (undirected_scan_runs g0 Hwf fuel Hfuel ids true g1 Hg1 Hids')
          as (l2 & b2 & g2 & Hr2 & _).
        pose proof (undirected_scan_sticky _ _ _ _ _ _ Hr2) as ->.
        exists ([] ++ l1 ++ l2), true, g2. split; [|exact Hpost1].
        eapply runs_bind; [apply runs_get_discovered; exact Hb|].
        rewrite Ed. cbn [negb]. rewrite (to_int_vertex g0 i Hwf Hi).
        eapply runs_bind; [exact Hr1|]. exact Hr2.
      * destruct Hpost1 as (new & Hin & Hinv1 & Hclean1 & _).
        destruct (IH g1 (ord ++ new) Hg1 Hids' Hinv1 Hclean1) as (l2 & b2 & g2 & Hr2 & Hpost).
        exists ([] ++ l1 ++ l2), b2, g2. split.
        { eapply runs_bind; [apply runs_get_discovered; exact Hb|].
          rewrite Ed. cbn [negb]. rewrite (to_int_vertex g0 i Hwf Hi).
          eapply runs_bind; [exact Hr1|]. exact Hr2. }
        destruct b2; [exact Hpost|]. destruct Hpost as (ord' & H1 & H2 & H3).
        exists ord'. split; [exact H1|]. split.
        { intros x [<-|Hx]; auto. apply H3. apply in_app_iff. now right. }
        { intros x Hx. apply H3. apply in_app_iff. now left. }
Qed.
End UndirectedScan.

Lemma chain_with_visit g d p l : chain (with_visit g d p) l <-> chain g l.
Proof.
  induction l as [|a l IH]; [reflexivity|].
  destruct l as [|b l]; [reflexivity|].
  change (edge g a b /\ chain (with_visit g d p) (b :: l) <-> edge g a b /\ chain g (b :: l)).
  now rewrite IH.
Qed.

Lemma undirected_cycle_with_visit g d p :
  undirected_cycle (with_visit g d p) <-> undirected_cycle g.
Proof.
  unfold undirected_cycle, ring.
  split; (intros [H|[H|(c & H1 & H2 & H3 & H4)]]; [left; exact H|right; left; exact H|]);
    right; right; exists c; (split; [exact H1|split; [exact H2|split; [|exact H4]]]);
    now apply (chain_with_visit g d p).
Qed.

(** [has_cycle] decides whether an undirected graph has a cycle, when
    started with a parent array that names no vertex. *)
Lemma has_cycle_forest g fuel :
  wfb g = true -> _directed g = false -> symmetric g -> no_parents g ->
  (0 < _nvertex g < fuel)%nat ->
  exists b, value_of (has_cycle fuel g) = Some b /\ (b = true <-> undirected_cycle g).
Proof.
  intros Hwf Hdir Hsym Hnp [Hn Hfuel].
  set (g1 := with_visit g 0 0).
  destruct (undirected_scan_forest g1 Hwf Hsym fuel Hfuel (vertices g1) g1 [])
    as (l & b & g' & Hr & Hpost).
  { apply parents_apart_refl. }
  { apply incl_refl. }
  { split; [constructor|]. split; [|split; intros x []].
    intros x. cbn. rewrite Z.testbit_0_l. split; [intros []|intros [_ H]; discriminate]. }
  { intros x Hx _ _. exact (Hnp x Hx). }
  exists b. split.
  - rewrite (has_cycle_unvisit fuel g Hn). fold g1.
    unfold detect_cycle. cbn [_directed g1 with_visit]. rewrite Hdir. cbn [negb].
    unfold runs in Hr. change (vertices (with_visit g 0 0)) with (vertices g1).
    rewrite Hr. reflexivity.
  - destruct b.
    + split; [intros _; apply (undirected_cycle_with_visit g 0 0); exact Hpost|reflexivity].
    + destruct Hpost as (ord & Hinv & Hall & _). split; [discriminate|].
      intros Hc. exfalso. apply (undirected_cycle_with_visit g 0 0) in Hc.
      exact (forest_no_cycle g1 g' ord Hwf Hsym Hinv Hall Hc).
Qed.

(** On an undirected graph that lists every edge at both ends, its
    parent array naming no vertex, [has_cycle] returns, and it returns
    true exactly when the graph has a cycle: an edge from a vertex to
    itself, two edges between the same vertices, or a ring of three or
    more distinct vertices. *)
Theorem has_cycle_undirected_iff_cycle g fuel :
  wfb g = true -> _directed g = false -> symmetric g -> no_parents g ->
  (0 < _nvertex g < fuel)%nat ->
  exists b, value_of (has_cycle fuel g) = Some b /\ (b = true <-> undirected_cycle g).
Proof. exact (has_cycle_forest g fuel). Qed.

Lemma has_cycle_undirected_iff_cycle_witness :
  exists b, value_of (has_cycle 4 (the scenario_D)) = Some b /\
            (b = true <-> undirected_cycle (the scenario_D)).
Proof.
  apply (has_cycle_undirected_iff_cycle (the scenario_D) 4).
  - reflexivity.
  - reflexivity.
  - intros u v Hu Hv. vm_compute in Hu, Hv.
    destruct Hu as [<-|[<-|[<-|[]]]], Hv as [<-|[<-|[<-|[]]]]; reflexivity.
  - intros x Hx. vm_compute in Hx.
    destruct Hx as [<-|[<-|[<-|[]]]]; vm_compute; intuition discriminate.
  - vm_compute; lia.
Defined.

(** ** Undirected graphs as they are read *)

(** A pair contributes as many entries for [v] to the list of [u] as
    entries for [u] to the list of [v]. *)
Lemma count_pair_edges ins u v :
  count_occ Z.eq_dec (map to (flat_map (pair_edges false u) ins)) v
  = count_occ Z.eq_dec (map to (flat_map (pair_edges false v) ins)) u.
Proof.
  induction ins as [|[x y] ins IH]; [reflexivity|].
  cbn [flat_map]. rewrite !map_app, !count_occ_app, IH. f_equal.
  unfold pair_edges. cbn [fst snd].
  destruct (Z.eqb_spec u x), (Z.eqb_spec u y), (Z.eqb_spec v x), (Z.eqb_spec v y);
    subst; cbn [app map to count_occ];
    repeat match goal with
           | |- context [Z.eq_dec ?a ?b] => destruct (Z.eq_dec a b)
           end; congruence.
Qed.

Lemma build_undirected_well_formed n ins :
  Z.of_nat n <= MAX_VERTEX ->
  Forall (fun p => 1 <= fst p <= Z.of_nat n /\ 1 <= snd p <= Z.of_nat n) ins ->
  exists g,
    build n false ins = Some g /\
    wfb g = true /\ _directed g = false /\ _nvertex g = n /\
    symmetric g /\ no_parents g.
Proof.
  intros Hn Hall. unfold build.
  destruct (Graph_ctor_zero_slots n false) as (g0 & E0 & Hs & Hn0 & Hd & Hnil & _).
  rewrite E0. cbn [obind].
  destruct (read_graph_slots ins g0 Hs)
    as (g & E & N & _ & Hs' & Hn' & Hd' & Hp & _).
  { rewrite Hn0. eapply Forall_impl; [|exact Hall]. cbn beta. intros p Hp. lia. }
  rewrite Hd in N.
  assert (forall u, succs g u = map to (flat_map (pair_edges false u) ins)) as Hsucc.
  { intros u. rewrite succs_neighbors_of, N, Hnil. reflexivity. }
  exists g. split; [exact E|]. split; [|split; [congruence|split; [congruence|split]]].
  - apply wfb_intro; [rewrite Hn', Hn0; exact Hn|exact Hs'|].
    intros u t _ Ht. rewrite Hsucc in Ht. apply in_map_iff in Ht as (e & <- & He).
    apply in_flat_map in He as (xy & Hxy & He).
    rewrite Forall_forall in Hall. specialize (Hall xy Hxy).
    apply in_vertices. rewrite Hn', Hn0.
    apply in_pair_edges in He as [[_ ->]|[_ [_ ->]]]; cbn [to]; lia.
  - intros u v _ _. rewrite !Hsucc. apply count_pair_edges.
  - intros x Hx Hin. apply in_vertices in Hin.
    assert (parent_of g x = 0) as E1.
    { unfold parent_of, parent_at. rewrite Hp.
      rewrite Graph_ctor_eq in E0. inversion E0; subst g0. cbn [_parent buf].
      unfold slot. destruct (x <? 0); [reflexivity|]. rewrite nth_error_map.
      destruct (nth_error _ _); reflexivity. }
    lia.
Qed.

(** An undirected graph read into zeroed storage from pairs of vertices:
    [has_cycle] returns true exactly when the graph has a cycle. *)
Theorem build_undirected_has_cycle n ins fuel :
  Z.of_nat n <= MAX_VERTEX -> (0 < n < fuel)%nat ->
  Forall (fun p => 1 <= fst p <= Z.of_nat n /\ 1 <= snd p <= Z.of_nat n) ins ->
  exists g b,
    build n false ins = Some g /\
    value_of (has_cycle fuel g) = Some b /\
    (b = true <-> undirected_cycle g).
Proof.
  intros Hn Hfuel Hall.
  destruct (build_undirected_well_formed n ins Hn Hall)
    as (g & E & Hwf & Hdir & Hnv & Hsym & Hnp).
  rewrite <- Hnv in Hfuel.
  destruct (has_cycle_forest g fuel Hwf Hdir Hsym Hnp Hfuel) as (b & Hv & Hb).
  exists g, b. auto.
Qed.

Lemma build_undirected_has_cycle_witness :
  exists g b,
    build 4 false [(1, 2); (2, 3)] = Some g /\
    value_of (has_cycle 5 g) = Some b /\
    (b = true <-> undirected_cycle g).
Proof.
  apply (build_undirected_has_cycle 4 [(1, 2); (2, 3)] 5).
  - unfold MAX_VERTEX; lia.
  - lia.
  - repeat constructor; cbn; lia.
Defined.

(** ** The triangle *)

Lemma detect_undirected_cycle_old f v g :
  bit_ok v = true -> Z.testbit (_discovered g) v = true ->
  detect_undirected_cycle (S f) v g = ([], Some (false, g)).
Proof.
  intros Hb Hd. cbn [detect_undirected_cycle]. unfold bind, get_discovered, ret.
  rewrite Hb, Hd. reflexivity.
Qed.

Lemma detect_undirected_cycle_new f v g vx :
  bit_ok v = true -> Z.testbit (_discovered g) v = false -> vertex_at g v = Some vx ->
  let g1 := with_visit g (Z.setbit (_discovered g) v) (_processed g) in
  let r := any_edge (neighbors vx) (cycle_edge (detect_undirected_cycle f) v) g1 in
  detect_undirected_cycle (S f) v g
  = (Snapshot (_discovered g1) (_processed g1) :: log_of r, outcome r).
Proof.
  intros Hb Hd Hvx g1 r. cbn [detect_undirected_cycle]. unfold bind.
  pose proof (runs_get_discovered g v Hb) as E1. rewrite Hd in E1.
  pose proof (runs_set_discovered g v Hb) as E2. fold g1 in E2.
  pose proof (runs_get_vertex g1 v vx Hvx) as E3.
  unfold runs in E1, E2, E3. rewrite E1. cbn [negb]. rewrite E2, E3. fold r.
  destruct r as [l o]. reflexivity.
Qed.

(** C6. On the triangle of scenario D [has_cycle] returns true: it
    discovers 1, then 2 from 1, then 3 from 2, and stops at vertex 3,
    whose edge to 1 leads to a discovered vertex that is not its parent
    2.  Without the edge 3-1 (scenario C) it returns false.
    [detect_undirected_cycle] returns false at once on a discovered
    vertex; on a new one it marks it and goes through its edges by the
    rule: a discovered target other than the recorded parent of [v] ends
    the scan with true; a discovered target that is the recorded parent
    of [v] is passed over; an undiscovered target gets [v] as parent
    before the recursive call, whose true ends the scan.  By this rule
    [has_cycle] returns true exactly on the undirected graphs that have
    a cycle. *)
Theorem C6_triangle_has_cycle :
  (exists l g',
      run scenario_D (has_cycle 4) = (l, Some (true, g')) /\
      _discovered g' = 14 /\ succs g' 3 = [2; 1] /\
      parent_of g' 1 = 0 /\ parent_of g' 2 = 1 /\ parent_of g' 3 = 2) /\
  value_of (run scenario_C (has_cycle 5)) = Some false /\
  (forall f v g,
      bit_ok v = true -> Z.testbit (_discovered g) v = true ->
      detect_undirected_cycle (S f) v g = ([], Some (false, g))) /\
  (forall f v g vx,
      bit_ok v = true -> Z.testbit (_discovered g) v = false ->
      vertex_at g v = Some vx ->
      let g1 := with_visit g (Z.setbit (_discovered g) v) (_processed g) in
      let r := any_edge (neighbors vx) (cycle_edge (detect_undirected_cycle f) v) g1 in
      detect_undirected_cycle (S f) v g
      = (Snapshot (_discovered g1) (_processed g1) :: log_of r, outcome r)) /\
  (forall rec v e es g p,
      bit_ok (to e) = true -> Z.testbit (_discovered g) (to e) = true ->
      parent_at g v = Some p -> p <> to e ->
      any_edge (e :: es) (cycle_edge rec v) g = ([], Some (true, g))) /\
  (forall rec v e es g,
      bit_ok (to e) = true -> Z.testbit (_discovered g) (to e) = true ->
      parent_at g v = Some (to e) ->
      any_edge (e :: es) (cycle_edge rec v) g = any_edge es (cycle_edge rec v) g) /\
  (forall rec v e es g g1 l g2,
      bit_ok (to e) = true -> Z.testbit (_discovered g) (to e) = false ->
      set_parent g (to e) v = Some g1 ->
      parent_at g1 (to e) = Some v /\
      (rec (to e) g1 = (l, Some (true, g2)) ->
       any_edge (e :: es) (cycle_edge rec v) g = (l, Some (true, g2)))) /\
  (forall g fuel,
      wfb g = true -> _directed g = false -> symmetric g -> no_parents g ->
      (0 < _nvertex g < fuel)%nat ->
      exists b, value_of (has_cycle fuel g) = Some b /\ (b = true <-> undirected_cycle g)).
Proof.
  split.
  { exists (log_of (run scenario_D (has_cycle 4))),
           (the (state_of (run scenario_D (has_cycle 4)))).
    by_run. }
  split; [by_run|].
  split; [exact detect_undirected_cycle_old|].
  split; [exact detect_undirected_cycle_new|].
  split; [|split; [|split]].
  - intros rec v e es g p Hb Hd Hp Hne. simpl. unfold bind at 1.
    rewrite (cycle_edge_found rec v e g p Hb Hd Hp Hne). reflexivity.
  - intros rec v e es g Hb Hd Hp. simpl. unfold bind at 1.
    rewrite (cycle_edge_parent rec v e g Hb Hd Hp). simpl.
    destruct (any_edge es (cycle_edge rec v) g); reflexivity.
  - intros rec v e es g g1 l g2 Hb Hd Hp. split.
    + unfold set_parent in Hp. destruct (store _ _ _) eqn:E; [|discriminate].
      inversion Hp; subst. apply store_range in E as [Hr ->].
      unfold parent_at; simpl. now apply slot_list_set_same.
    + intros Hrec. simpl. unfold bind at 1.
      rewrite (cycle_edge_descend rec v e g g1 Hb Hd Hp), Hrec. simpl.
      now rewrite app_nil_r.
  - exact has_cycle_forest.
Qed.

Lemma C6_triangle_has_cycle_witness :
  any_edge [mkEdge 0 2; mkEdge 0 1] (cycle_edge (detect_undirected_cycle 1) 3)
           (the (state_of (run scenario_D (has_cycle 4))))
  = ([], Some (true, the (state_of (run scenario_D (has_cycle 4))))) /\
  exists b, value_of (has_cycle 4 (the scenario_D)) = Some b /\
            (b = true <-> undirected_cycle (the scenario_D)).
Proof.
  destruct C6_triangle_has_cycle as (_ & _ & _ & _ & Hfound & Hpass & _ & Hgen).
  split.
  - rewrite Hpass.
    + apply Hfound with (p := 2).
      * reflexivity.
      * vm_compute. reflexivity.
      * vm_compute. reflexivity.
      * cbn. lia.
    + reflexivity.
    + vm_compute. reflexivity.
    + vm_compute. reflexivity.
  - apply (Hgen (the scenario_D) 4%nat).
    + reflexivity.
    + reflexivity.
    + intros u v Hu Hv. vm_compute in Hu, Hv.
      destruct Hu as [<-|[<-|[<-|[]]]], Hv as [<-|[<-|[<-|[]]]]; reflexivity.
    + intros x Hx. vm_compute in Hx.
      destruct Hx as [<-|[<-|[<-|[]]]]; vm_compute; intuition discriminate.
    + vm_compute; lia.
Defined.
